(** * ts-spatial-navigation: a shallow embedding and its verified properties

    The development follows the TypeScript sources:
    - geometry.ts: [getRect], [partition], [distanceBuilder];
    - strategies.ts and core.ts: the per-direction tiers, [prioritize],
      [navigate], [extend], [exclude], [parseSelector], [matchSelector];
    - spatial-navigation.ts: the private functions of the focus state
      machine ([isNavigable], [getSectionId], [focusElement],
      [focusSection], [focusExtendedSelector], [gotoLeaveFor],
      [focusNext]) and the public object [SpatialNavigation].

    Modelling conventions.
    - JavaScript numbers are binary64 values, held as the rationals they
      denote ([Q]); NaN and infinities are outside the model.  The
      threshold arithmetic of [partition] is rounded as IEEE 754
      prescribes ([round64]); the other arithmetic of the model is
      exact.  "Zero" is stated up to [==].
    - DOM elements are identities ([Elem]).  What the engine asks of the
      document -- selector queries, geometry, attributes, the verdict of
      the listeners of a cancelable event -- is a field of a [World].
      Selectors are valid, elements belong to the document (so
      [elem.matches(s)] holds exactly for the members of
      [querySelectorAll(s)]) and can take focus; listeners observe and
      veto but do not call back into the engine.  The empty string is
      not a valid selector: [elem.matches('')] throws, and the theorems
      about [makeFocusable] assume that the list of selectors to ignore
      is not the empty string.
    - A JavaScript object used as a dictionary is an association list
      kept in the order in which [for ... in] and [Object.keys] enumerate
      it: array-index keys first, in ascending numeric order, then the
      other keys in order of creation.  [_sections[id]] is looked up
      among the object's own keys, which is what the source does for
      every id that does not name a member of [Object.prototype]
      ([inherited]): the model is of such ids, and a theorem that
      speaks of an id that need not be registered says so by
      hypothesis.
    - A property of a configuration is [undefined] ([None]) or a value
      of the type that types.ts declares for it.  The two [null]
      defaults of [globalConfig] ([leaveFor] and [navigableFilter]),
      which the code only tests for truthiness and for being a
      function, are [None] as well; a [null] handed in by a caller,
      which no declared type admits, is outside the model.
    - Stateful functions run in a state monad over the engine variables,
      the document's active element and the log of dispatched events.
      Where the source would raise a TypeError on a section id that is
      not registered, the private functions of the model return a
      default; their callers only pass registered ids, and the theorems
      about [focusNext] assume it. *)

From Stdlib Require Import QArith Qround Qpower Qabs ZArith List String Ascii Bool.
From Stdlib Require Import Arith Lia Lqa.
From Stdlib Require Import DecimalString DecimalNat.
Import ListNotations.
Open Scope Q_scope.

(* ================================================================== *)
(** * Numbers *)

Definition Qlt_bool (a b : Q) : bool := negb (Qle_bool b a).

(** [2^e]. *)
Definition pow2 (e : Z) : Q := Qpower 2 e.

(** The integer nearest to [q]; of two equally near, the even one. *)
Definition roundEven (q : Q) : Z :=
  let f := Qfloor q in
  match Qcompare (q - inject_Z f) (1 # 2) with
  | Lt => f
  | Gt => (f + 1)%Z
  | Eq => if Z.even f then f else (f + 1)%Z
  end.

(** The integer part of the binary logarithm of [|q|], for [q] other
    than 0. *)
Definition ilog2 (q : Q) : Z :=
  let k := (Z.log2 (Z.abs (Qnum q)) - Z.log2 (Zpos (Qden q)))%Z in
  if Qle_bool (pow2 k) (Z.abs (Qnum q) # Qden q) then k else (k - 1)%Z.

(** The binary64 value nearest to [q], ties to even: 53 significant
    bits, the exponent of the last bit no lower than -1074.  (A result
    beyond the largest binary64 value is kept, not turned into an
    infinity.) *)
Definition round64 (q : Q) : Q :=
  if Qeq_bool q 0 then 0
  else
    let e := Z.max (ilog2 q - 52) (-1074) in
    inject_Z (roundEven (q / pow2 e)) * pow2 e.

(** [a * b], [a + b] and [a - b] on binary64 values. *)
Definition mul64 (a b : Q) : Q := round64 (a * b).
Definition add64 (a b : Q) : Q := round64 (a + b).
Definition sub64 (a b : Q) : Q := round64 (a - b).

(* ================================================================== *)
(** * Geometry (geometry.ts) *)

(** DOM element identity. *)
Definition Elem := nat.

(** What [getBoundingClientRect] returns. *)
Record ClientRect := mkClientRect {
  cr_left : Q; cr_top : Q; cr_right : Q; cr_bottom : Q;
  cr_width : Q; cr_height : Q
}.

Record Point := mkPoint { x : Q; y : Q }.

Record Rect := mkRect {
  left : Q; top : Q; right : Q; bottom : Q;
  width : Q; height : Q;
  element : Elem;
  center : Point
}.

(** [getRect]: the bounding box plus the centre
    [left + floor(width/2), top + floor(height/2)]. *)
Definition getRect (bcr : Elem -> option ClientRect) (elem : Elem) : option Rect :=
  match bcr elem with
  | None => None
  | Some cr =>
      let cx := cr_left cr + inject_Z (Qfloor (cr_width cr / 2)) in
      let cy := cr_top cr + inject_Z (Qfloor (cr_height cr / 2)) in
      Some {| left := cr_left cr; top := cr_top cr;
              right := cr_right cr; bottom := cr_bottom cr;
              width := cr_width cr; height := cr_height cr;
              element := elem;
              center := {| x := cx; y := cy |} |}
  end.

(** The [Grid] constants of constants.ts. *)
Module Grid.
Definition SIZE : nat := 3.
Definition TOTAL_CELLS : nat := 9.
Definition TOP_LEFT : nat := 0.
Definition TOP_CENTER : nat := 1.
Definition TOP_RIGHT : nat := 2.
Definition MIDDLE_LEFT : nat := 3.
Definition MIDDLE_CENTER : nat := 4.
Definition MIDDLE_RIGHT : nat := 5.
Definition BOTTOM_LEFT : nat := 6.
Definition BOTTOM_CENTER : nat := 7.
Definition BOTTOM_RIGHT : nat := 8.
Definition CORNERS : list nat := [0; 2; 6; 8]%nat.
End Grid.

(** [groups[i].push(rect)] on the array of buckets. *)
Fixpoint push (groups : list (list Rect)) (i : nat) (rect : Rect)
  : list (list Rect) :=
  match groups, i with
  | [], _ => []
  | g :: gs, O => (g ++ [rect]) :: gs
  | g :: gs, S i' => g :: push gs i' rect
  end.

(** [groups[i]]; an index outside the array reads as the empty bucket. *)
Definition bucket (groups : list (list Rect)) (i : nat) : list Rect :=
  nth i groups [].

(** One iteration of the loop of [partition].  The edges that a corner
    candidate has to reach are computed in binary64 arithmetic. *)
Definition partition_step (targetRect : Rect) (straightOverlapThreshold : Q)
    (groups : list (list Rect)) (rect : Rect) : list (list Rect) :=
  let c := center rect in
  let gx := if Qlt_bool (x c) (left targetRect) then 0%nat
            else if Qle_bool (x c) (right targetRect) then 1%nat else 2%nat in
  let gy := if Qlt_bool (y c) (top targetRect) then 0%nat
            else if Qle_bool (y c) (bottom targetRect) then 1%nat else 2%nat in
  let groupId := (gy * Grid.SIZE + gx)%nat in
  let groups := push groups groupId rect in
  if existsb (Nat.eqb groupId) Grid.CORNERS then
    let groups :=
      if Qle_bool (left rect)
           (sub64 (right targetRect)
              (mul64 (width targetRect) straightOverlapThreshold))
      then if (groupId =? Grid.TOP_RIGHT)%nat then push groups Grid.TOP_CENTER rect
           else if (groupId =? Grid.BOTTOM_RIGHT)%nat
                then push groups Grid.BOTTOM_CENTER rect else groups
      else groups in
    let groups :=
      if Qle_bool (add64 (left targetRect)
                     (mul64 (width targetRect) straightOverlapThreshold))
           (right rect)
      then if (groupId =? Grid.TOP_LEFT)%nat then push groups Grid.TOP_CENTER rect
           else if (groupId =? Grid.BOTTOM_LEFT)%nat
                then push groups Grid.BOTTOM_CENTER rect else groups
      else groups in
    let groups :=
      if Qle_bool (top rect)
           (sub64 (bottom targetRect)
              (mul64 (height targetRect) straightOverlapThreshold))
      then if (groupId =? Grid.BOTTOM_LEFT)%nat then push groups Grid.MIDDLE_LEFT rect
           else if (groupId =? Grid.BOTTOM_RIGHT)%nat
                then push groups Grid.MIDDLE_RIGHT rect else groups
      else groups in
    let groups :=
      if Qle_bool (add64 (top targetRect)
                     (mul64 (height targetRect) straightOverlapThreshold))
           (bottom rect)
      then if (groupId =? Grid.TOP_LEFT)%nat then push groups Grid.MIDDLE_LEFT rect
           else if (groupId =? Grid.TOP_RIGHT)%nat
                then push groups Grid.MIDDLE_RIGHT rect else groups
      else groups in
    groups
  else groups.

(** [partition]: nine buckets, filled candidate by candidate. *)
Definition partition (rects : list Rect) (targetRect : Rect)
    (straightOverlapThreshold : Q) : list (list Rect) :=
  fold_left (partition_step targetRect straightOverlapThreshold) rects
    [[]; []; []; []; []; []; []; []; []].

(** Distance functions (the record [DistanceFunctions] of types.ts). *)
Record DistanceFunctions := mkDistanceFunctions {
  nearPlumbLineIsBetter : Rect -> Q;
  nearHorizonIsBetter : Rect -> Q;
  nearTargetLeftIsBetter : Rect -> Q;
  nearTargetTopIsBetter : Rect -> Q;
  topIsBetter : Rect -> Q;
  bottomIsBetter : Rect -> Q;
  leftIsBetter : Rect -> Q;
  rightIsBetter : Rect -> Q
}.

Definition distanceBuilder (targetRect : Rect) : DistanceFunctions :=
  {| nearPlumbLineIsBetter := fun rect =>
       let d := if Qlt_bool (x (center rect)) (x (center targetRect))
                then x (center targetRect) - right rect
                else left rect - x (center targetRect) in
       if Qlt_bool d 0 then 0 else d;
     nearHorizonIsBetter := fun rect =>
       let d := if Qlt_bool (y (center rect)) (y (center targetRect))
                then y (center targetRect) - bottom rect
                else top rect - y (center targetRect) in
       if Qlt_bool d 0 then 0 else d;
     nearTargetLeftIsBetter := fun rect =>
       let d := if Qlt_bool (x (center rect)) (x (center targetRect))
                then left targetRect - right rect
                else left rect - left targetRect in
       if Qlt_bool d 0 then 0 else d;
     nearTargetTopIsBetter := fun rect =>
       let d := if Qlt_bool (y (center rect)) (y (center targetRect))
                then top targetRect - bottom rect
                else top rect - top targetRect in
       if Qlt_bool d 0 then 0 else d;
     topIsBetter := fun rect => top rect;
     bottomIsBetter := fun rect => -1 * bottom rect;
     leftIsBetter := fun rect => left rect;
     rightIsBetter := fun rect => -1 * right rect |}.

(* ================================================================== *)
(** * Configuration and document model (types.ts) *)

(** ['up' | 'down' | 'left' | 'right']. *)
Inductive Direction := Up | Down | Left | Right.

Definition Direction_eqb (a b : Direction) : bool :=
  match a, b with
  | Up, Up | Down, Down | Left, Left | Right, Right => true
  | _, _ => false
  end.

(** A selector value: a CSS selector string or an element. *)
Inductive Sel := SelStr (s : string) | SelElem (e : Elem).

(** [leaveFor]: one optional entry per direction; [None] stands for an
    absent, [undefined] or [null] entry. *)
Record LeaveFor := mkLeaveFor {
  lf_up : option Sel; lf_down : option Sel;
  lf_left : option Sel; lf_right : option Sel
}.

Definition leaveFor_at (l : LeaveFor) (d : Direction) : option Sel :=
  match d with
  | Up => lf_up l | Down => lf_down l | Left => lf_left l | Right => lf_right l
  end.

Record PreviousFocus := mkPrevious {
  target : Elem; destination : Elem; reverse : Direction
}.

(** [SectionConfig] / [GlobalConfig]: every property is optional; [None]
    is a property that is absent or [undefined]. *)
Record Config := mkConfig {
  id : option string;
  selector : option Sel;
  straightOnly : option bool;
  straightOverlapThreshold : option Q;
  rememberSource : option bool;
  disabled : option bool;
  defaultElement : option Sel;
  enterTo : option string;
  leaveFor : option LeaveFor;
  restrict : option string;
  tabIndexIgnoreList : option string;
  navigableFilter : option (Elem -> string -> bool);
  sectionPrefix : option string;
  eventPrefix : option string;
  lastFocusedElement : option Elem;
  previous : option PreviousFocus
}.

(** The object literal [{}]. *)
Definition emptyConfig : Config :=
  mkConfig None None None None None None None None
           None None None None None None None None.

(** Event names (without prefix). *)
Inductive EventName :=
| willmove | willfocus | willunfocus | focused | unfocused
| enter_down | enter_up | navigatefailed.

(** [SpatialEventDetail]. *)
Record SpatialEventDetail := mkDetail {
  d_direction : option Direction;
  d_id : option string;
  d_nextId : option string;
  d_nextElement : option Elem;
  d_previousElement : option Elem;
  d_native : option bool;
  d_cause : option string
}.

(** The document as the engine sees it.  [dispatchEvent elem name detail]
    is the outcome of dispatching a cancelable event: [false] when a
    listener called [preventDefault].  Listeners are observers: they do
    not call back into the engine. *)
Record World := mkWorld {
  querySelectorAll : string -> list Elem;
  getBoundingClientRect : Elem -> option ClientRect;
  offsetWidth : Elem -> Z;
  offsetHeight : Elem -> Z;
  hasAttribute_disabled : Elem -> bool;
  getAttribute_data_sn : Elem -> Direction -> option string;
  dispatchEvent : Elem -> EventName -> SpatialEventDetail -> bool
}.

(** JavaScript truthiness of an optional boolean. *)
Definition truthy (b : option bool) : bool :=
  match b with Some true => true | _ => false end.

(* ================================================================== *)
(** * Candidate resolver (core.ts) and strategies (strategies.ts) *)

Record Priority := mkPriority {
  group : list Rect;
  distance : list (Rect -> Q)
}.

(** The comparator passed to [sort]: the first non-zero delta. *)
Fixpoint comparator (destDistance : list (Rect -> Q)) (a b : Rect) : Q :=
  match destDistance with
  | [] => 0
  | distance :: rest =>
      let delta := distance a - distance b in
      if Qeq_bool delta 0 then comparator rest a b else delta
  end.

(** [Array.prototype.sort] is stable; it is modelled as a stable
    insertion sort: [a] goes in front of the first element that does
    not compare strictly below it. *)
Fixpoint insert (cmp : Rect -> Rect -> Q) (a : Rect) (l : list Rect) : list Rect :=
  match l with
  | [] => [a]
  | b :: l' => if Qlt_bool (cmp b a) 0 then b :: insert cmp a l' else a :: b :: l'
  end.

Fixpoint sort (cmp : Rect -> Rect -> Q) (l : list Rect) : list Rect :=
  match l with
  | [] => []
  | a :: l' => insert cmp a (sort cmp l')
  end.

(** The first priority whose group is not empty. *)
Fixpoint destPriority (priorities : list Priority) : option Priority :=
  match priorities with
  | [] => None
  | p :: rest =>
      match group p with
      | [] => destPriority rest
      | _ :: _ => Some p
      end
  end.

Definition prioritize (priorities : list Priority) : option (list Rect) :=
  match destPriority priorities with
  | None => None
  | Some p => Some (sort (comparator (distance p)) (group p))
  end.

(** The [switch (direction)] of [navigate]. *)
Definition priorities_of (direction : Direction)
    (groups internalGroups : list (list Rect))
    (distanceFunction : DistanceFunctions) : list Priority :=
  let g := bucket groups in
  let ig := bucket internalGroups in
  let df := distanceFunction in
  match direction with
  | Left =>
      [ {| group := ig 0%nat ++ ig 3%nat ++ ig 6%nat;
           distance := [nearPlumbLineIsBetter df; topIsBetter df] |};
        {| group := g 3%nat;
           distance := [nearPlumbLineIsBetter df; topIsBetter df] |};
        {| group := g 0%nat ++ g 6%nat;
           distance := [nearHorizonIsBetter df; rightIsBetter df;
                        nearTargetTopIsBetter df] |} ]
  | Right =>
      [ {| group := ig 2%nat ++ ig 5%nat ++ ig 8%nat;
           distance := [nearPlumbLineIsBetter df; topIsBetter df] |};
        {| group := g 5%nat;
           distance := [nearPlumbLineIsBetter df; topIsBetter df] |};
        {| group := g 2%nat ++ g 8%nat;
           distance := [nearHorizonIsBetter df; leftIsBetter df;
                        nearTargetTopIsBetter df] |} ]
  | Up =>
      [ {| group := ig 0%nat ++ ig 1%nat ++ ig 2%nat;
           distance := [nearHorizonIsBetter df; leftIsBetter df] |};
        {| group := g 1%nat;
           distance := [nearHorizonIsBetter df; leftIsBetter df] |};
        {| group := g 0%nat ++ g 2%nat;
           distance := [nearPlumbLineIsBetter df; bottomIsBetter df;
                        nearTargetLeftIsBetter df] |} ]
  | Down =>
      [ {| group := ig 6%nat ++ ig 7%nat ++ ig 8%nat;
           distance := [nearHorizonIsBetter df; leftIsBetter df] |};
        {| group := g 7%nat;
           distance := [nearHorizonIsBetter df; leftIsBetter df] |};
        {| group := g 6%nat ++ g 8%nat;
           distance := [nearPlumbLineIsBetter df; topIsBetter df;
                        nearTargetLeftIsBetter df] |} ]
  end.

(** strategies.ts: one strategy object per direction. *)
Record NavigationStrategy := mkStrategy {
  direction : Direction;
  buildPriorities :
    list (list Rect) -> list (list Rect) -> DistanceFunctions -> list Priority
}.

Definition leftStrategy : NavigationStrategy :=
  {| direction := Left;
     buildPriorities := fun groups internalGroups df =>
       [ {| group := bucket internalGroups Grid.TOP_LEFT
                     ++ bucket internalGroups Grid.MIDDLE_LEFT
                     ++ bucket internalGroups Grid.BOTTOM_LEFT;
            distance := [nearPlumbLineIsBetter df; topIsBetter df] |};
         {| group := bucket groups Grid.MIDDLE_LEFT;
            distance := [nearPlumbLineIsBetter df; topIsBetter df] |};
         {| group := bucket groups Grid.TOP_LEFT ++ bucket groups Grid.BOTTOM_LEFT;
            distance := [nearHorizonIsBetter df; rightIsBetter df;
                         nearTargetTopIsBetter df] |} ] |}.

Definition rightStrategy : NavigationStrategy :=
  {| direction := Right;
     buildPriorities := fun groups internalGroups df =>
       [ {| group := bucket internalGroups Grid.TOP_RIGHT
                     ++ bucket internalGroups Grid.MIDDLE_RIGHT
                     ++ bucket internalGroups Grid.BOTTOM_RIGHT;
            distance := [nearPlumbLineIsBetter df; topIsBetter df] |};
         {| group := bucket groups Grid.MIDDLE_RIGHT;
            distance := [nearPlumbLineIsBetter df; topIsBetter df] |};
         {| group := bucket groups Grid.TOP_RIGHT ++ bucket groups Grid.BOTTOM_RIGHT;
            distance := [nearHorizonIsBetter df; leftIsBetter df;
                         nearTargetTopIsBetter df] |} ] |}.

Definition upStrategy : NavigationStrategy :=
  {| direction := Up;
     buildPriorities := fun groups internalGroups df =>
       [ {| group := bucket internalGroups Grid.TOP_LEFT
                     ++ bucket internalGroups Grid.TOP_CENTER
                     ++ bucket internalGroups Grid.TOP_RIGHT;
            distance := [nearHorizonIsBetter df; leftIsBetter df] |};
         {| group := bucket groups Grid.TOP_CENTER;
            distance := [nearHorizonIsBetter df; leftIsBetter df] |};
         {| group := bucket groups Grid.TOP_LEFT ++ bucket groups Grid.TOP_RIGHT;
            distance := [nearPlumbLineIsBetter df; bottomIsBetter df;
                         nearTargetLeftIsBetter df] |} ] |}.

Definition downStrategy : NavigationStrategy :=
  {| direction := Down;
     buildPriorities := fun groups internalGroups df =>
       [ {| group := bucket internalGroups Grid.BOTTOM_LEFT
                     ++ bucket internalGroups Grid.BOTTOM_CENTER
                     ++ bucket internalGroups Grid.BOTTOM_RIGHT;
            distance := [nearHorizonIsBetter df; leftIsBetter df] |};
         {| group := bucket groups Grid.BOTTOM_CENTER;
            distance := [nearHorizonIsBetter df; leftIsBetter df] |};
         {| group := bucket groups Grid.BOTTOM_LEFT ++ bucket groups Grid.BOTTOM_RIGHT;
            distance := [nearPlumbLineIsBetter df; topIsBetter df;
                         nearTargetLeftIsBetter df] |} ] |}.

Definition navigationStrategies (d : Direction) : NavigationStrategy :=
  match d with
  | Left => leftStrategy | Right => rightStrategy
  | Up => upStrategy | Down => downStrategy
  end.

(** [priorities.pop()]. *)
Definition pop (priorities : list Priority) : list Priority :=
  removelast priorities.

(** [config.straightOverlapThreshold || 0.5]. *)
Definition thresholdOf (config : Config) : Q :=
  match straightOverlapThreshold config with
  | Some t => if Qeq_bool t 0 then 1 # 2 else t
  | None => 1 # 2
  end.

(** The rectangles of the candidates that can be measured. *)
Definition measure (w : World) (candidates : list Elem) : list Rect :=
  flat_map (fun c => match getRect (getBoundingClientRect w) c with
                     | Some rect => [rect]
                     | None => []
                     end) candidates.

(** The tiers handed to [prioritize], after the [straightOnly] cut. *)
Definition tiers (targetRect : Rect) (dir : Direction) (rects : list Rect)
    (config : Config) : list Priority :=
  let distanceFunction := distanceBuilder targetRect in
  let groups := partition rects targetRect (thresholdOf config) in
  let internalGroups :=
    partition (bucket groups 4%nat) targetRect (thresholdOf config) in
  let priorities := priorities_of dir groups internalGroups distanceFunction in
  if truthy (straightOnly config) then pop priorities else priorities.

(** The remembered source, when [config.previous] applies to this move
    and names a member of [destGroup]. *)
Definition remembered (tgt : Elem) (dir : Direction) (config : Config)
    (destGroup : list Rect) : option Elem :=
  match previous config with
  | Some prev =>
      if truthy (rememberSource config)
         && (destination prev =? tgt)%nat
         && Direction_eqb (reverse prev) dir
      then option_map element
             (find (fun r => (element r =? target prev)%nat) destGroup)
      else None
  | None => None
  end.

Definition navigate (w : World) (tgt : option Elem) (dir : Direction)
    (candidates : list Elem) (config : Config) : option Elem :=
  match tgt, candidates with
  | None, _ => None
  | _, [] => None
  | Some tgt, _ :: _ =>
      match getRect (getBoundingClientRect w) tgt with
      | None => None
      | Some targetRect =>
          match measure w candidates with
          | [] => None
          | rects =>
              match prioritize (tiers targetRect dir rects config) with
              | None => None
              | Some destGroup =>
                  match remembered tgt dir config destGroup with
                  | Some dest => Some dest
                  | None => option_map element (hd_error destGroup)
                  end
              end
          end
      end
  end.

(* ================================================================== *)
(** * JavaScript objects used as dictionaries *)

Section Dictionary.
Context {V : Type}.

(** [obj[key]]. *)
Fixpoint lookup (key : string) (obj : list (string * V)) : option V :=
  match obj with
  | [] => None
  | (k, v) :: rest => if String.eqb k key then Some v else lookup key rest
  end.

(** [Object.keys(obj)], also the order of [for (key in obj)]. *)
Definition keys (obj : list (string * V)) : list string := map fst obj.

(** Overwrite the value of an existing key, in place. *)
Fixpoint replace (key : string) (v : V) (obj : list (string * V))
  : list (string * V) :=
  match obj with
  | [] => []
  | (k, v') :: rest =>
      if String.eqb k key then (k, v) :: rest
      else (k, v') :: replace key v rest
  end.

(** Remove a key (the [obj[key] = undefined; obj = extend({}, obj)]
    idiom of [remove]). *)
Fixpoint delete (key : string) (obj : list (string * V))
  : list (string * V) :=
  match obj with
  | [] => []
  | (k, v') :: rest =>
      if String.eqb k key then rest else (k, v') :: delete key rest
  end.
End Dictionary.

(** The numeric value of a decimal digit. *)
Definition digit (c : ascii) : option N :=
  let n := N_of_ascii c in
  if ((48 <=? n) && (n <=? 57))%N then Some (n - 48)%N else None.

Fixpoint digits (s : string) (acc : N) : option N :=
  match s with
  | EmptyString => Some acc
  | String c rest =>
      match digit c with
      | Some d => digits rest (acc * 10 + d)%N
      | None => None
      end
  end.

(** A property key is an array index when it is the canonical decimal
    form of an integer below 2^32 - 1.  Such keys are enumerated first,
    in ascending numeric order; all other keys follow in the order in
    which they were created (OrdinaryOwnPropertyKeys). *)
Definition arrayIndex (key : string) : option N :=
  match key with
  | EmptyString => None
  | String c rest =>
      if (N_of_ascii c =? 48)%N
      then match rest with EmptyString => Some 0%N | _ => None end
      else match digits key 0%N with
           | Some n => if (n <? 4294967295)%N then Some n else None
           | None => None
           end
  end.

Section DictionaryOrder.
Context {V : Type}.

(** Create array-index key [key] (of value [n]) at its place. *)
Fixpoint insertIndex (n : N) (key : string) (v : V) (obj : list (string * V))
  : list (string * V) :=
  match obj with
  | [] => [(key, v)]
  | (k, v') :: rest =>
      match arrayIndex k with
      | Some m => if (m <? n)%N then (k, v') :: insertIndex n key v rest
                  else (key, v) :: obj
      | None => (key, v) :: obj
      end
  end.

(** [obj[key] = v]. *)
Definition assign (key : string) (v : V) (obj : list (string * V))
  : list (string * V) :=
  match lookup key obj with
  | Some _ => replace key v obj
  | None =>
      match arrayIndex key with
      | Some n => insertIndex n key v obj
      | None => obj ++ [(key, v)]
      end
  end.
End DictionaryOrder.

(** The members of [Object.prototype]: a plain object answers to these
    names, with the inherited member, without holding them as keys. *)
Definition Object_prototype : list string :=
  [ "constructor"; "__defineGetter__"; "__defineSetter__"; "hasOwnProperty";
    "__lookupGetter__"; "__lookupSetter__"; "isPrototypeOf";
    "propertyIsEnumerable"; "toString"; "valueOf"; "__proto__";
    "toLocaleString" ]%string.

(** [lookup] is [obj[key]] for every key that is not [inherited]. *)
Definition inherited (key : string) : bool :=
  existsb (String.eqb key) Object_prototype.

(* ================================================================== *)
(** * Engine state (spatial-navigation.ts, private variables) *)

Record Engine := mkEngine {
  globalConfig : Config;
  ID_POOL_PREFIX : string;
  EVENT_PREFIX : string;
  _idPool : nat;
  _ready : bool;
  _pause : bool;
  _sections : list (string * Config);
  _sectionCount : Z;
  _defaultSectionId : string;
  _lastSectionId : string;
  _duringFocusChange : bool
}.

(** A dispatched event: target element, name, detail. *)
Record Event := mkEvent {
  ev_target : Elem; ev_name : EventName; ev_detail : SpatialEventDetail
}.

(** The whole state: engine variables, the document's active element
    ([None] when nothing but the body has focus), and the events
    dispatched so far, most recent first. *)
Record State := mkState {
  engine : Engine;
  activeElement : option Elem;
  events : list Event
}.

Definition defaultGlobalConfig : Config :=
  {| id := None;
     selector := Some (SelStr "");
     straightOnly := Some false;
     straightOverlapThreshold := Some (1 # 2);
     rememberSource := Some false;
     disabled := Some false;
     defaultElement := Some (SelStr "");
     enterTo := Some ""%string;
     leaveFor := None;
     restrict := Some "self-first"%string;
     tabIndexIgnoreList :=
       Some "a, input, select, textarea, button, iframe, [contentEditable=true]"%string;
     navigableFilter := None;
     sectionPrefix := Some "section-"%string;
     eventPrefix := Some "sn:"%string;
     lastFocusedElement := None;
     previous := None |}.

Definition initialEngine : Engine :=
  {| globalConfig := defaultGlobalConfig;
     ID_POOL_PREFIX := "section-";
     EVENT_PREFIX := "sn:";
     _idPool := 0;
     _ready := false;
     _pause := false;
     _sections := [];
     _sectionCount := 0;
     _defaultSectionId := "";
     _lastSectionId := "";
     _duringFocusChange := false |}.

Definition initialState : State :=
  {| engine := initialEngine; activeElement := None; events := [] |}.

(** Field updates. *)
Definition with_sections (secs : list (string * Config)) (e : Engine) : Engine :=
  mkEngine (globalConfig e) (ID_POOL_PREFIX e) (EVENT_PREFIX e) (_idPool e)
    (_ready e) (_pause e) secs (_sectionCount e) (_defaultSectionId e)
    (_lastSectionId e) (_duringFocusChange e).

Definition with_sectionCount (n : Z) (e : Engine) : Engine :=
  mkEngine (globalConfig e) (ID_POOL_PREFIX e) (EVENT_PREFIX e) (_idPool e)
    (_ready e) (_pause e) (_sections e) n (_defaultSectionId e)
    (_lastSectionId e) (_duringFocusChange e).

Definition with_defaultSectionId (i : string) (e : Engine) : Engine :=
  mkEngine (globalConfig e) (ID_POOL_PREFIX e) (EVENT_PREFIX e) (_idPool e)
    (_ready e) (_pause e) (_sections e) (_sectionCount e) i
    (_lastSectionId e) (_duringFocusChange e).

Definition with_lastSectionId (i : string) (e : Engine) : Engine :=
  mkEngine (globalConfig e) (ID_POOL_PREFIX e) (EVENT_PREFIX e) (_idPool e)
    (_ready e) (_pause e) (_sections e) (_sectionCount e) (_defaultSectionId e)
    i (_duringFocusChange e).

Definition with_duringFocusChange (b : bool) (e : Engine) : Engine :=
  mkEngine (globalConfig e) (ID_POOL_PREFIX e) (EVENT_PREFIX e) (_idPool e)
    (_ready e) (_pause e) (_sections e) (_sectionCount e) (_defaultSectionId e)
    (_lastSectionId e) b.

Definition with_pause (b : bool) (e : Engine) : Engine :=
  mkEngine (globalConfig e) (ID_POOL_PREFIX e) (EVENT_PREFIX e) (_idPool e)
    (_ready e) b (_sections e) (_sectionCount e) (_defaultSectionId e)
    (_lastSectionId e) (_duringFocusChange e).

Definition with_idPool (n : nat) (e : Engine) : Engine :=
  mkEngine (globalConfig e) (ID_POOL_PREFIX e) (EVENT_PREFIX e) n
    (_ready e) (_pause e) (_sections e) (_sectionCount e) (_defaultSectionId e)
    (_lastSectionId e) (_duringFocusChange e).

Definition with_ready (b : bool) (e : Engine) : Engine :=
  mkEngine (globalConfig e) (ID_POOL_PREFIX e) (EVENT_PREFIX e) (_idPool e)
    b (_pause e) (_sections e) (_sectionCount e) (_defaultSectionId e)
    (_lastSectionId e) (_duringFocusChange e).

Definition with_lastFocusedElement (elem : Elem) (c : Config) : Config :=
  mkConfig (id c) (selector c) (straightOnly c) (straightOverlapThreshold c)
    (rememberSource c) (disabled c) (defaultElement c) (enterTo c) (leaveFor c)
    (restrict c) (tabIndexIgnoreList c) (navigableFilter c) (sectionPrefix c)
    (eventPrefix c) (Some elem) (previous c).

Definition with_previous (p : PreviousFocus) (c : Config) : Config :=
  mkConfig (id c) (selector c) (straightOnly c) (straightOverlapThreshold c)
    (rememberSource c) (disabled c) (defaultElement c) (enterTo c) (leaveFor c)
    (restrict c) (tabIndexIgnoreList c) (navigableFilter c) (sectionPrefix c)
    (eventPrefix c) (lastFocusedElement c) (Some p).

Definition with_disabled (b : bool) (c : Config) : Config :=
  mkConfig (id c) (selector c) (straightOnly c) (straightOverlapThreshold c)
    (rememberSource c) (Some b) (defaultElement c) (enterTo c) (leaveFor c)
    (restrict c) (tabIndexIgnoreList c) (navigableFilter c) (sectionPrefix c)
    (eventPrefix c) (lastFocusedElement c) (previous c).

(** [_sections[id].field = ...] on a section that exists. *)
Definition updateSection (sid : string) (f : Config -> Config)
    (secs : list (string * Config)) : list (string * Config) :=
  match lookup sid secs with
  | Some sec => replace sid (f sec) secs
  | None => secs
  end.

(** [extend({}, source1, source2)]: properties of the later source win,
    undefined values are ignored. *)
Definition orElse {A} (a b : option A) : option A :=
  match a with Some _ => a | None => b end.

Definition extend (source1 source2 : Config) : Config :=
  {| id := orElse (id source2) (id source1);
     selector := orElse (selector source2) (selector source1);
     straightOnly := orElse (straightOnly source2) (straightOnly source1);
     straightOverlapThreshold :=
       orElse (straightOverlapThreshold source2) (straightOverlapThreshold source1);
     rememberSource := orElse (rememberSource source2) (rememberSource source1);
     disabled := orElse (disabled source2) (disabled source1);
     defaultElement := orElse (defaultElement source2) (defaultElement source1);
     enterTo := orElse (enterTo source2) (enterTo source1);
     leaveFor := orElse (leaveFor source2) (leaveFor source1);
     restrict := orElse (restrict source2) (restrict source1);
     tabIndexIgnoreList :=
       orElse (tabIndexIgnoreList source2) (tabIndexIgnoreList source1);
     navigableFilter := orElse (navigableFilter source2) (navigableFilter source1);
     sectionPrefix := orElse (sectionPrefix source2) (sectionPrefix source1);
     eventPrefix := orElse (eventPrefix source2) (eventPrefix source1);
     lastFocusedElement :=
       orElse (lastFocusedElement source2) (lastFocusedElement source1);
     previous := orElse (previous source2) (previous source1) |}.

(** [exclude(elemList, excluded)]. *)
Definition exclude (elemList excluded : list Elem) : list Elem :=
  filter (fun elem => negb (existsb (Nat.eqb elem) excluded)) elemList.

Definition REVERSE (d : Direction) : Direction :=
  match d with
  | Left => Right | Up => Down | Right => Left | Down => Up
  end.

(* ================================================================== *)
(** * A state monad for the stateful functions *)

Definition M (A : Type) : Type := State -> A * State.

Definition ret {A} (a : A) : M A := fun s => (a, s).

Definition bind {A B} (m : M A) (k : A -> M B) : M B :=
  fun s => let (a, s') := m s in k a s'.

Declare Scope monad_scope.
Delimit Scope monad_scope with monad.
Notation "x <- m ;; k" := (bind m (fun x => k))
  (at level 61, m at next level, right associativity) : monad_scope.
Notation "m ;;; k" := (bind m (fun _ => k))
  (at level 61, right associativity) : monad_scope.
Open Scope monad_scope.

Definition gets {A} (f : State -> A) : M A := fun s => (f s, s).

Definition modifyEngine (f : Engine -> Engine) : M unit :=
  fun s => (tt, mkState (f (engine s)) (activeElement s) (events s)).

(** [forEach]: run the body on every item; what the body returns is
    discarded. *)
Fixpoint forEach {A B} (l : list A) (body : A -> M B) : M unit :=
  match l with
  | [] => ret tt
  | a :: rest => body a ;;; forEach rest body
  end.

(* ================================================================== *)
(** * Document primitives *)

(** [elem.blur()] of the focused element: focus goes back to the body. *)
Definition blur : M unit :=
  fun s => (tt, mkState (engine s) None (events s)).

(** [elem.focus()]. *)
Definition focus_ (elem : Elem) : M unit :=
  fun s => (tt, mkState (engine s) (Some elem) (events s)).

(** [getCurrentFocusedElement]. *)
Definition getCurrentFocusedElement : M (option Elem) := gets activeElement.

(** [dispatch(elem, type, details, cancelable)]: the event is recorded;
    only a cancelable event can be vetoed. *)
Definition dispatch (w : World) (elem : Elem) (type : EventName)
    (details : SpatialEventDetail) (cancelable : bool) : M bool :=
  fun s =>
    (if cancelable then dispatchEvent w elem type details else true,
     mkState (engine s) (activeElement s)
       (mkEvent elem type details :: events s)).

(** [elem.matches(selector)] for an element of the document. *)
Definition matches (w : World) (elem : Elem) (s : string) : bool :=
  existsb (Nat.eqb elem) (querySelectorAll w s).

Definition parseSelector (w : World) (selector : option Sel) : list Elem :=
  match selector with
  | Some (SelStr s) => if String.eqb s "" then [] else querySelectorAll w s
  | Some (SelElem e) => [e]
  | None => []
  end.

Definition matchSelector (w : World) (elem : option Elem) (selector : option Sel)
  : bool :=
  match elem, selector with
  | None, _ => false
  | Some elem, Some (SelStr s) => matches w elem s
  | Some elem, Some (SelElem e) => (elem =? e)%nat
  | Some _, None => false
  end.

(** Truthiness of an optional string: [undefined] and [''] are falsy. *)
Definition nonEmpty (s : option string) : option string :=
  match s with
  | Some s => if String.eqb s "" then None else Some s
  | None => None
  end.

(* ================================================================== *)
(** * Private functions of spatial-navigation.ts *)

Fixpoint generateId_loop (fuel : nat) (prefix : string)
    (secs : list (string * Config)) (idPool : nat) : string * nat :=
  let idPool := S idPool in
  let newId := (prefix ++ NilEmpty.string_of_uint (Nat.to_uint idPool))%string in
  match fuel with
  | O => (newId, idPool)
  | S fuel' =>
      match lookup newId secs with
      | Some _ => generateId_loop fuel' prefix secs idPool
      | None => (newId, idPool)
      end
  end.

(** [generateId]: at most [length _sections] candidates can be taken. *)
Definition generateId : M string :=
  fun s =>
    let e := engine s in
    let (newId, pool) :=
      generateId_loop (List.length (_sections e)) (ID_POOL_PREFIX e) (_sections e)
        (_idPool e) in
    (newId, mkState (with_idPool pool e) (activeElement s) (events s)).

Definition isNavigable (w : World) (e : Engine) (elem : option Elem)
    (sectionId : option string) (verifySectionSelector : bool) : bool :=
  match elem, nonEmpty sectionId with
  | Some el, Some sid =>
      match lookup sid (_sections e) with
      | None => false
      | Some sec =>
          if truthy (disabled sec) then false
          else if ((offsetWidth w el <=? 0)%Z && (offsetHeight w el <=? 0)%Z)
                  || hasAttribute_disabled w el then false
          else if verifySectionSelector
                  && negb (matchSelector w (Some el) (selector sec)) then false
          else match navigableFilter sec with
               | Some filter => filter el sid
               | None =>
                   match navigableFilter (globalConfig e) with
                   | Some filter => filter el sid
                   | None => true
                   end
               end
      end
  | _, _ => false
  end.

(** The loop of [getSectionId] over the sections in enumeration order. *)
Fixpoint firstSection (w : World) (elem : Elem) (secs : list (string * Config))
  : option string :=
  match secs with
  | [] => None
  | (sid, sec) :: rest =>
      if negb (truthy (disabled sec))
         && matchSelector w (Some elem) (selector sec)
      then Some sid
      else firstSection w elem rest
  end.

Definition getSectionId (w : World) (e : Engine) (elem : Elem) : option string :=
  firstSection w elem (_sections e).

Definition getSectionNavigableElements (w : World) (e : Engine) (sectionId : string)
  : list Elem :=
  match lookup sectionId (_sections e) with
  | Some sec =>
      filter (fun elem => isNavigable w e (Some elem) (Some sectionId) false)
        (parseSelector w (selector sec))
  | None => []
  end.

Definition getSectionDefaultElement (w : World) (e : Engine) (sectionId : string)
  : option Elem :=
  match lookup sectionId (_sections e) with
  | Some sec =>
      find (fun elem => isNavigable w e (Some elem) (Some sectionId) true)
        (parseSelector w (defaultElement sec))
  | None => None
  end.

Definition getSectionLastFocusedElement (w : World) (e : Engine)
    (sectionId : string) : option Elem :=
  match lookup sectionId (_sections e) with
  | Some sec =>
      if isNavigable w e (lastFocusedElement sec) (Some sectionId) true
      then lastFocusedElement sec else None
  | None => None
  end.

Definition focusChanged (w : World) (elem : Elem) (sectionId : option string)
  : M unit :=
  fun s =>
    let sectionId :=
      match nonEmpty sectionId with
      | Some sid => Some sid
      | None => getSectionId w (engine s) elem
      end in
    match nonEmpty sectionId with
    | Some sid =>
        modifyEngine (fun e =>
          with_lastSectionId sid
            (with_sections
               (updateSection sid (with_lastFocusedElement elem) (_sections e)) e))
          s
    | None => (tt, s)
    end.

Definition setDuringFocusChange (b : bool) : M unit :=
  modifyEngine (with_duringFocusChange b).

Definition focusElement (w : World) (elem : option Elem)
    (sectionId : option string) (direction : option Direction) : M bool :=
  match elem with
  | None => ret false
  | Some elem =>
      currentFocusedElement <- getCurrentFocusedElement ;;
      let silentFocus : M unit :=
        (match currentFocusedElement with
         | Some _ => blur
         | None => ret tt
         end) ;;;
        focus_ elem ;;;
        focusChanged w elem sectionId in
      during <- gets (fun s => _duringFocusChange (engine s)) ;;
      if during : bool then silentFocus ;;; ret true
      else
        setDuringFocusChange true ;;;
        paused <- gets (fun s => _pause (engine s)) ;;
        if paused : bool then
          silentFocus ;;; setDuringFocusChange false ;;; ret true
        else
          let focusDetail :=
            {| d_direction := direction; d_id := sectionId; d_nextId := None;
               d_nextElement := None;
               d_previousElement := currentFocusedElement;
               d_native := Some false; d_cause := None |} in
          let gainFocus : M bool :=
            ok <- dispatch w elem willfocus focusDetail true ;;
            if ok : bool then
              focus_ elem ;;;
              dispatch w elem focused focusDetail false ;;;
              setDuringFocusChange false ;;;
              focusChanged w elem sectionId ;;;
              ret true
            else setDuringFocusChange false ;;; ret false in
          match currentFocusedElement with
          | Some cur =>
              let willUnfocusDetail :=
                {| d_direction := direction; d_id := None; d_nextId := sectionId;
                   d_nextElement := Some elem; d_previousElement := None;
                   d_native := Some false; d_cause := None |} in
              ok <- dispatch w cur willunfocus willUnfocusDetail true ;;
              if ok : bool then
                blur ;;;
                dispatch w cur unfocused willUnfocusDetail false ;;;
                gainFocus
              else setDuringFocusChange false ;;; ret false
          | None => gainFocus
          end
  end.

(** [addRange] of [focusSection]. *)
Definition addRange (e : Engine) (range : list string) (sid : string)
  : list string :=
  match nonEmpty (Some sid) with
  | None => range
  | Some _ =>
      if existsb (String.eqb sid) range then range
      else match lookup sid (_sections e) with
           | Some sec => if truthy (disabled sec) then range else range ++ [sid]
           | None => range
           end
  end.

(** The element [focusSection] picks for one section of its range. *)
Definition entryElement (w : World) (e : Engine) (sid : string) : option Elem :=
  let enter := match lookup sid (_sections e) with
               | Some sec => enterTo sec
               | None => None
               end in
  match enter with
  | Some "last-focused"%string =>
      orElse (getSectionLastFocusedElement w e sid)
        (orElse (getSectionDefaultElement w e sid)
           (hd_error (getSectionNavigableElements w e sid)))
  | _ =>
      orElse (getSectionDefaultElement w e sid)
        (orElse (getSectionLastFocusedElement w e sid)
           (hd_error (getSectionNavigableElements w e sid)))
  end.

(** [focusSection]: the body of [range.forEach] returns the result of
    [focusElement] to [forEach], which discards it; the function itself
    ends with [return false]. *)
Definition focusSection (w : World) (sectionId : option string) : M bool :=
  e0 <- gets engine ;;
  let range :=
    match nonEmpty sectionId with
    | Some sid => addRange e0 [] sid
    | None =>
        fold_left (addRange e0) (keys (_sections e0))
          (addRange e0 (addRange e0 [] (_defaultSectionId e0)) (_lastSectionId e0))
    end in
  forEach range (fun sid =>
    e <- gets engine ;;
    match entryElement w e sid with
    | Some next => focusElement w (Some next) (Some sid) None
    | None => ret false
    end) ;;;
  ret false.

Definition focusExtendedSelector (w : World) (sel : string)
    (direction : option Direction) : M bool :=
  match sel with
  | String "@" rest =>
      match rest with
      | EmptyString => focusSection w None
      | _ => focusSection w (Some rest)
      end
  | _ =>
      match hd_error (parseSelector w (Some (SelStr sel))) with
      | Some next =>
          e <- gets engine ;;
          let nextSectionId := getSectionId w e next in
          if isNavigable w e (Some next) nextSectionId false
          then focusElement w (Some next) nextSectionId direction
          else ret false
      | None => ret false
      end
  end.

Definition fireNavigateFailed (w : World) (elem : Elem) (direction : Direction)
  : M unit :=
  dispatch w elem navigatefailed
    {| d_direction := Some direction; d_id := None; d_nextId := None;
       d_nextElement := None; d_previousElement := None; d_native := None;
       d_cause := None |} false ;;;
  ret tt.

(** Truthiness of a [leaveFor] entry: an element is truthy, a string is
    truthy unless empty. *)
Definition truthySel (s : option Sel) : bool :=
  match s with
  | Some (SelStr s) => negb (String.eqb s "")
  | Some (SelElem _) => true
  | None => false
  end.

(** [_sections[sectionId]?.leaveFor?.[direction]]. *)
Definition leaveForEntry (e : Engine) (sectionId : string) (direction : Direction)
  : option Sel :=
  match lookup sectionId (_sections e) with
  | Some sec =>
      match leaveFor sec with
      | Some l => leaveFor_at l direction
      | None => None
      end
  | None => None
  end.

(** [gotoLeaveFor]: [None] is the source's [null], [Some b] a boolean.
    The test [leaveFor === ''] sits inside [if (leaveFor)]. *)
Definition gotoLeaveFor (w : World) (sectionId : string) (direction : Direction)
  : M (option bool) :=
  e <- gets engine ;;
  let leaveFor := leaveForEntry e sectionId direction in
  if truthySel leaveFor then
    match leaveFor with
    | Some (SelStr s) =>
        if String.eqb s "" then ret None
        else b <- focusExtendedSelector w s (Some direction) ;; ret (Some b)
    | Some (SelElem el) =>
        let nextSectionId := getSectionId w e el in
        if isNavigable w e (Some el) nextSectionId false
        then b <- focusElement w (Some el) nextSectionId (Some direction) ;;
             ret (Some b)
        else ret (Some false)
    | None => ret (Some false)
    end
  else ret (Some false).

(** The geometric search of [focusNext] (the candidate sets of the three
    restrict modes). *)
Definition allNavigableElements (w : World) (e : Engine) : list Elem :=
  flat_map (getSectionNavigableElements w e) (keys (_sections e)).

Definition effectiveConfig (e : Engine) (sectionId : string) : Config :=
  match lookup sectionId (_sections e) with
  | Some sec => extend (globalConfig e) sec
  | None => globalConfig e
  end.

Definition searchNext (w : World) (e : Engine) (direction : Direction)
    (currentFocusedElement : Elem) (currentSectionId : string) : option Elem :=
  let config := effectiveConfig e currentSectionId in
  let isMode (m : string) :=
    match restrict config with Some r => String.eqb r m | None => false end in
  if isMode "self-only"%string || isMode "self-first"%string then
    let currentSectionNavigableElements :=
      getSectionNavigableElements w e currentSectionId in
    match navigate w (Some currentFocusedElement) direction
            (exclude currentSectionNavigableElements [currentFocusedElement])
            config with
    | Some next => Some next
    | None =>
        if isMode "self-first"%string then
          navigate w (Some currentFocusedElement) direction
            (exclude (allNavigableElements w e) currentSectionNavigableElements)
            config
        else None
    end
  else
    navigate w (Some currentFocusedElement) direction
      (exclude (allNavigableElements w e) [currentFocusedElement]) config.

Definition optStringEqb (a : string) (b : option string) : bool :=
  match b with Some b => String.eqb a b | None => false end.

(** The [switch] on the destination section's [enterTo]. *)
Definition enterToElement (w : World) (e : Engine) (nextSectionId : option string)
  : option Elem :=
  match nextSectionId with
  | Some nid =>
      match lookup nid (_sections e) with
      | Some sec =>
          match enterTo sec with
          | Some "last-focused"%string =>
              orElse (getSectionLastFocusedElement w e nid)
                     (getSectionDefaultElement w e nid)
          | Some "default-element"%string => getSectionDefaultElement w e nid
          | _ => None
          end
      | None => None
      end
  | None => None
  end.

Definition focusNext (w : World) (direction : Direction)
    (currentFocusedElement : Elem) (currentSectionId : string) : M bool :=
  match getAttribute_data_sn w currentFocusedElement direction with
  | Some extSelector =>
      if String.eqb extSelector "" then
        fireNavigateFailed w currentFocusedElement direction ;;; ret false
      else
        ok <- focusExtendedSelector w extSelector (Some direction) ;;
        if ok : bool then ret true
        else fireNavigateFailed w currentFocusedElement direction ;;; ret false
  | None =>
      e <- gets engine ;;
      match searchNext w e direction currentFocusedElement currentSectionId with
      | Some next =>
          modifyEngine (fun e =>
            with_sections
              (updateSection currentSectionId
                 (with_previous
                    {| target := currentFocusedElement;
                       destination := next;
                       reverse := REVERSE direction |})
                 (_sections e)) e) ;;;
          e1 <- gets engine ;;
          let nextSectionId := getSectionId w e1 next in
          if negb (optStringEqb currentSectionId nextSectionId) then
            result <- gotoLeaveFor w currentSectionId direction ;;
            match result with
            | Some true => ret true
            | None =>
                fireNavigateFailed w currentFocusedElement direction ;;; ret false
            | Some false =>
                e2 <- gets engine ;;
                let next :=
                  match enterToElement w e2 nextSectionId with
                  | Some el => el
                  | None => next
                  end in
                focusElement w (Some next) nextSectionId (Some direction)
            end
          else focusElement w (Some next) nextSectionId (Some direction)
      | None =>
          result <- gotoLeaveFor w currentSectionId direction ;;
          match result with
          | Some true => ret true
          | _ => fireNavigateFailed w currentFocusedElement direction ;;; ret false
          end
      end
  end.

(* ================================================================== *)
(** * Public functions ([SpatialNavigation]) *)

(** A property of an object literal passed by the caller: missing,
    present with the value [undefined], or present with a value. *)
Inductive Property (T : Type) :=
| Absent
| Undefined
| Value (v : T).
Arguments Absent {T}.
Arguments Undefined {T}.
Arguments Value {T} v.

Record ConfigArg := mkConfigArg {
  a_id : Property string;
  a_selector : Property Sel;
  a_straightOnly : Property bool;
  a_straightOverlapThreshold : Property Q;
  a_rememberSource : Property bool;
  a_disabled : Property bool;
  a_defaultElement : Property Sel;
  a_enterTo : Property string;
  a_leaveFor : Property LeaveFor;
  a_restrict : Property string;
  a_tabIndexIgnoreList : Property string;
  a_navigableFilter : Property (Elem -> string -> bool);
  a_sectionPrefix : Property string;
  a_eventPrefix : Property string;
  a_lastFocusedElement : Property Elem;
  a_previous : Property PreviousFocus
}.

Definition propValue {T} (p : Property T) : option T :=
  match p with Value v => Some v | _ => None end.

Definition present {T} (p : Property T) : bool :=
  match p with Absent => false | _ => true end.

(** Some entry of [config] has a key that [globalConfig] defines. *)
Definition hasGlobalKey (c : ConfigArg) : bool :=
  present (a_selector c) || present (a_straightOnly c)
  || present (a_straightOverlapThreshold c) || present (a_rememberSource c)
  || present (a_disabled c) || present (a_defaultElement c)
  || present (a_enterTo c) || present (a_leaveFor c) || present (a_restrict c)
  || present (a_tabIndexIgnoreList c) || present (a_navigableFilter c)
  || present (a_sectionPrefix c) || present (a_eventPrefix c).

(** [_sections[id][key] = value] for every entry, then the removal of the
    undefined items. *)
Definition onSection {T} (p : Property T) (old : option T) : option T :=
  match p with Absent => old | Undefined => None | Value v => Some v end.

(** [globalConfig[key] = value] unless [value] is undefined. *)
Definition onGlobal {T} (p : Property T) (old : option T) : option T :=
  match p with Value v => Some v | _ => old end.

Definition setSection (c : ConfigArg) (sec : Config) : Config :=
  {| id := id sec;
     selector := onSection (a_selector c) (selector sec);
     straightOnly := onSection (a_straightOnly c) (straightOnly sec);
     straightOverlapThreshold :=
       onSection (a_straightOverlapThreshold c) (straightOverlapThreshold sec);
     rememberSource := onSection (a_rememberSource c) (rememberSource sec);
     disabled := onSection (a_disabled c) (disabled sec);
     defaultElement := onSection (a_defaultElement c) (defaultElement sec);
     enterTo := onSection (a_enterTo c) (enterTo sec);
     leaveFor := onSection (a_leaveFor c) (leaveFor sec);
     restrict := onSection (a_restrict c) (restrict sec);
     tabIndexIgnoreList :=
       onSection (a_tabIndexIgnoreList c) (tabIndexIgnoreList sec);
     navigableFilter := onSection (a_navigableFilter c) (navigableFilter sec);
     sectionPrefix := onSection (a_sectionPrefix c) (sectionPrefix sec);
     eventPrefix := onSection (a_eventPrefix c) (eventPrefix sec);
     lastFocusedElement := lastFocusedElement sec;
     previous := previous sec |}.

Definition setGlobal (c : ConfigArg) (g : Config) : Config :=
  {| id := id g;
     selector := onGlobal (a_selector c) (selector g);
     straightOnly := onGlobal (a_straightOnly c) (straightOnly g);
     straightOverlapThreshold :=
       onGlobal (a_straightOverlapThreshold c) (straightOverlapThreshold g);
     rememberSource := onGlobal (a_rememberSource c) (rememberSource g);
     disabled := onGlobal (a_disabled c) (disabled g);
     defaultElement := onGlobal (a_defaultElement c) (defaultElement g);
     enterTo := onGlobal (a_enterTo c) (enterTo g);
     leaveFor := onGlobal (a_leaveFor c) (leaveFor g);
     restrict := onGlobal (a_restrict c) (restrict g);
     tabIndexIgnoreList := onGlobal (a_tabIndexIgnoreList c) (tabIndexIgnoreList g);
     navigableFilter := onGlobal (a_navigableFilter c) (navigableFilter g);
     sectionPrefix := onGlobal (a_sectionPrefix c) (sectionPrefix g);
     eventPrefix := onGlobal (a_eventPrefix c) (eventPrefix g);
     lastFocusedElement := lastFocusedElement g;
     previous := previous g |}.

(** Exceptions thrown by the public functions. *)
Inductive Exn :=
| AlreadyExisted (sid : string)   (* Section "id" has already existed! *)
| AssignTheId                     (* Please assign the "id"! *)
| DoesntExist (sid : string)      (* Section "id" doesn't exist! *)
| TypeError.                      (* property access on undefined *)

(** A public function either throws or returns; the state is returned in
    both cases. *)
Definition API (A : Type) : Type := State -> (Exn + A) * State.

Definition onEngine (f : Engine -> Engine) (s : State) : State :=
  mkState (f (engine s)) (activeElement s) (events s).

Module SpatialNavigation.

Definition init : API unit :=
  fun s => (inr tt, onEngine (with_ready true) s).

Definition clear : API unit :=
  fun s =>
    (inr tt,
     onEngine (fun e =>
       with_duringFocusChange false
         (with_lastSectionId ""
            (with_defaultSectionId ""
               (with_sectionCount 0 (with_sections [] e))))) s).

Definition uninit : API unit :=
  fun s =>
    let (_, s1) := clear s in
    (inr tt, onEngine (fun e => with_ready false (with_idPool 0%nat e)) s1).

(** [set]: with a truthy [config.id] every entry whose key
    [globalConfig] knows is written to [_sections[config.id]], which
    throws when that section does not exist; afterwards
    [_sections[config.id] = extend({}, _sections[config.id])] is
    executed unconditionally. *)
Definition set (config : ConfigArg) : API unit :=
  fun s =>
    let e := engine s in
    match nonEmpty (propValue (a_id config)) with
    | Some sid =>
        match lookup sid (_sections e) with
        | Some sec =>
            (inr tt,
             onEngine (with_sections
                         (assign sid (setSection config sec) (_sections e))) s)
        | None =>
            if hasGlobalKey config then (inl TypeError, s)
            else (inr tt,
                  onEngine (with_sections
                              (assign sid emptyConfig (_sections e))) s)
        end
    | None =>
        let g := setGlobal config (globalConfig e) in
        let prefix := match a_sectionPrefix config with
                      | Value v => v
                      | _ => ID_POOL_PREFIX e
                      end in
        let evPrefix := match a_eventPrefix config with
                        | Value v => v
                        | _ => EVENT_PREFIX e
                        end in
        (inr tt,
         onEngine (fun e =>
           mkEngine g prefix evPrefix (_idPool e) (_ready e) (_pause e)
             (_sections e) (_sectionCount e) (_defaultSectionId e)
             (_lastSectionId e) (_duringFocusChange e)) s)
    end.

Definition withId (sid : string) (c : ConfigArg) : ConfigArg :=
  mkConfigArg (Value sid) (a_selector c) (a_straightOnly c)
    (a_straightOverlapThreshold c) (a_rememberSource c) (a_disabled c)
    (a_defaultElement c) (a_enterTo c) (a_leaveFor c) (a_restrict c)
    (a_tabIndexIgnoreList c) (a_navigableFilter c) (a_sectionPrefix c)
    (a_eventPrefix c) (a_lastFocusedElement c) (a_previous c).

Definition add (config : ConfigArg) : API string :=
  fun s =>
    let (sid, s1) :=
      match nonEmpty (propValue (a_id config)) with
      | Some sid => (sid, s)
      | None => generateId s
      end in
    match lookup sid (_sections (engine s1)) with
    | Some _ => (inl (AlreadyExisted sid), s1)
    | None =>
        let s2 :=
          onEngine (fun e =>
            with_sectionCount (_sectionCount e + 1)%Z
              (with_sections (assign sid emptyConfig (_sections e)) e)) s1 in
        match set (withId sid config) s2 with
        | (inl exn, s3) => (inl exn, s3)
        | (inr _, s3) => (inr sid, s3)
        end
    end.

Definition remove (sid : option string) : API bool :=
  fun s =>
    match nonEmpty sid with
    | None => (inl AssignTheId, s)
    | Some sid =>
        let e := engine s in
        match lookup sid (_sections e) with
        | Some _ =>
            (inr true,
             onEngine (fun e =>
               let e := with_sectionCount (_sectionCount e - 1)%Z
                          (with_sections (delete sid (_sections e)) e) in
               if String.eqb (_lastSectionId e) sid
               then with_lastSectionId "" e else e) s)
        | None => (inr false, s)
        end
    end.

Definition disable (sid : string) : API bool :=
  fun s =>
    match lookup sid (_sections (engine s)) with
    | Some _ =>
        (inr true,
         onEngine (fun e =>
           with_sections (updateSection sid (with_disabled true) (_sections e)) e) s)
    | None => (inr false, s)
    end.

Definition enable (sid : string) : API bool :=
  fun s =>
    match lookup sid (_sections (engine s)) with
    | Some _ =>
        (inr true,
         onEngine (fun e =>
           with_sections (updateSection sid (with_disabled false) (_sections e)) e) s)
    | None => (inr false, s)
    end.

Definition pause : API unit :=
  fun s => (inr tt, onEngine (with_pause true) s).

Definition resume : API unit :=
  fun s => (inr tt, onEngine (with_pause false) s).

(** The first argument of [focus]: omitted, a string, or an element. *)
Inductive FocusTarget :=
| NoTarget
| TargetString (s : string)
| TargetElement (elem : Elem).

Definition focus (w : World) (elem : FocusTarget) (silent : option bool)
  : API bool :=
  fun s =>
    let autoPause := negb (_pause (engine s)) && truthy silent in
    let s1 := if autoPause then snd (pause s) else s in
    let (result, s2) :=
      match elem with
      | NoTarget => focusSection w None s1
      | TargetString str =>
          if String.eqb str "" then focusSection w None s1
          else match lookup str (_sections (engine s1)) with
               | Some _ => focusSection w (Some str) s1
               | None => focusExtendedSelector w str None s1
               end
      | TargetElement el =>
          let nextSectionId := getSectionId w (engine s1) el in
          if isNavigable w (engine s1) (Some el) nextSectionId false
          then focusElement w (Some el) nextSectionId None s1
          else (false, s1)
      end in
    let s3 := if autoPause then snd (resume s2) else s2 in
    (inr result, s3).

Definition move (w : World) (direction : Direction) (sel : option Sel)
  : API bool :=
  fun s =>
    let elem := if truthySel sel then hd_error (parseSelector w sel)
                else activeElement s in
    match elem with
    | None => (inr false, s)
    | Some elem =>
        match nonEmpty (getSectionId w (engine s) elem) with
        | None => (inr false, s)
        | Some sectionId =>
            let (ok, s1) :=
              dispatch w elem willmove
                {| d_direction := Some direction; d_id := Some sectionId;
                   d_nextId := None; d_nextElement := None;
                   d_previousElement := None; d_native := None;
                   d_cause := Some "api"%string |} true s in
            if ok : bool then
              let (b, s2) := focusNext w direction elem sectionId s1 in
              (inr b, s2)
            else (inr false, s1)
        end
    end.

Definition setDefaultSection (sid : option string) : API unit :=
  fun s =>
    match nonEmpty sid with
    | None => (inr tt, onEngine (with_defaultSectionId "") s)
    | Some sid =>
        match lookup sid (_sections (engine s)) with
        | None => (inl (DoesntExist sid), s)
        | Some _ => (inr tt, onEngine (with_defaultSectionId sid) s)
        end
    end.

End SpatialNavigation.

From Stdlib Require Sorted.
From Stdlib Require Import Permutation.

(* ================================================================== *)
(** * Strategy lookup (strategies.ts) *)

(** [getStrategy]: [navigationStrategies[direction]].  Every member of
    [Direction] has a strategy; the [undefined] of the source is the
    answer to a string that is not a direction. *)
Definition getStrategy (direction : Direction) : option NavigationStrategy :=
  Some (navigationStrategies direction).

Definition buildPrioritiesForDirection (direction : Direction)
    (groups internalGroups : list (list Rect))
    (distanceFunctions : DistanceFunctions) : option (list Priority) :=
  match getStrategy direction with
  | None => None
  | Some strategy =>
      Some (buildPriorities strategy groups internalGroups distanceFunctions)
  end.

(* ================================================================== *)
(** * Keyboard handlers (spatial-navigation.ts) *)

(** What the handlers read of a [KeyboardEvent]. *)
Record KeyboardEvent := mkKeyboardEvent {
  keyCode : Z;
  altKey : bool;
  ctrlKey : bool;
  metaKey : bool;
  shiftKey : bool
}.

Definition KEYMAPPING (code : Z) : option Direction :=
  if (code =? 37)%Z then Some Left
  else if (code =? 38)%Z then Some Up
  else if (code =? 39)%Z then Some Right
  else if (code =? 40)%Z then Some Down
  else None.

(** The detail of an event dispatched without one. *)
Definition noDetail : SpatialEventDetail :=
  mkDetail None None None None None None None.

(** [onKeyDown].  The result tells whether the handler called
    [evt.preventDefault()] and [evt.stopPropagation()]. *)
Definition onKeyDown (w : World) (evt : KeyboardEvent) : M bool :=
  e <- gets engine ;;
  if (_sectionCount e =? 0)%Z || _pause e
     || altKey evt || ctrlKey evt || metaKey evt || shiftKey evt
  then ret false
  else
    match KEYMAPPING (keyCode evt) with
    | None =>
        if (keyCode evt =? 13)%Z then
          currentFocusedElement <- getCurrentFocusedElement ;;
          match currentFocusedElement with
          | Some cur =>
              match nonEmpty (getSectionId w e cur) with
              | Some _ =>
                  ok <- dispatch w cur enter_down noDetail true ;;
                  if ok : bool then ret false else ret true
              | None => ret false
              end
          | None => ret false
          end
        else ret false
    | Some direction =>
        currentFocusedElement <- getCurrentFocusedElement ;;
        let currentFocusedElement :=
          match currentFocusedElement with
          | Some cur => Some cur
          | None =>
              match nonEmpty (Some (_lastSectionId e)) with
              | Some lastSectionId => getSectionLastFocusedElement w e lastSectionId
              | None => None
              end
          end in
        match currentFocusedElement with
        | None => focusSection w None ;;; ret true
        | Some cur =>
            match nonEmpty (getSectionId w e cur) with
            | None => ret false
            | Some currentSectionId =>
                let willMoveDetail :=
                  {| d_direction := Some direction; d_id := Some currentSectionId;
                     d_nextId := None; d_nextElement := None;
                     d_previousElement := None; d_native := None;
                     d_cause := Some "keydown"%string |} in
                ok <- dispatch w cur willmove willMoveDetail true ;;
                (if ok : bool
                 then focusNext w direction cur currentSectionId ;;; ret tt
                 else ret tt) ;;;
                ret true
            end
        end
    end.

(** [onKeyUp]; the result is as for [onKeyDown]. *)
Definition onKeyUp (w : World) (evt : KeyboardEvent) : M bool :=
  if altKey evt || ctrlKey evt || metaKey evt || shiftKey evt then ret false
  else
    e <- gets engine ;;
    if negb (_pause e) && negb (_sectionCount e =? 0)%Z && (keyCode evt =? 13)%Z
    then
      currentFocusedElement <- getCurrentFocusedElement ;;
      match currentFocusedElement with
      | Some cur =>
          match nonEmpty (getSectionId w e cur) with
          | Some _ =>
              ok <- dispatch w cur enter_up noDetail true ;;
              if ok : bool then ret false else ret true
          | None => ret false
          end
      | None => ret false
      end
    else ret false.

(* ================================================================== *)
(** * [makeFocusable] (spatial-navigation.ts) *)

(** The [tabindex] attribute of every element of the document; [None]
    when the element does not carry one. *)
Definition TabIndex := Elem -> option string.

(** [elem.setAttribute('tabindex', value)]. *)
Definition setAttribute_tabindex (elem : Elem) (value : string) (attrs : TabIndex)
  : TabIndex :=
  fun e => if (e =? elem)%nat then Some value else attrs e.

(** The document as [makeFocusable] sees it: what it answers to selectors
    may depend on the [tabindex] attributes, which the function writes
    while it asks. *)
Definition Document := TabIndex -> World.

(** The body of the [forEach] of [doMakeFocusable]. *)
Definition makeFocusable_step (doc : Document)
    (tabIndexIgnoreList : option string) (attrs : TabIndex) (elem : Elem)
  : TabIndex :=
  if negb (matchSelector (doc attrs) (Some elem)
             (option_map SelStr tabIndexIgnoreList))
  then match nonEmpty (attrs elem) with
       | None => setAttribute_tabindex elem "-1" attrs
       | Some _ => attrs
       end
  else attrs.

Definition doMakeFocusable (doc : Document) (e : Engine) (section : Config)
    (attrs : TabIndex) : TabIndex :=
  let ignoreList :=
    match tabIndexIgnoreList section with
    | Some l => Some l
    | None => tabIndexIgnoreList (globalConfig e)
    end in
  if truthySel (selector section)
  then fold_left (makeFocusable_step doc ignoreList)
         (parseSelector (doc attrs) (selector section)) attrs
  else attrs.

(** [makeFocusable]: it reads the engine and writes [tabindex]
    attributes. *)
Definition makeFocusable (doc : Document) (sid : option string) (e : Engine)
    (attrs : TabIndex) : Exn + TabIndex :=
  match nonEmpty sid with
  | Some sid =>
      match lookup sid (_sections e) with
      | Some section => inr (doMakeFocusable doc e section attrs)
      | None => inl (DoesntExist sid)
      end
  | None =>
      inr (fold_left (fun attrs kv => doMakeFocusable doc e (snd kv) attrs)
             (_sections e) attrs)
  end.

(* ================================================================== *)
(** * State manager (state.ts) *)

(** [NavigationState] of types.ts.  [sections] is a [Map]: its entries
    are kept in insertion order, whatever the keys look like. *)
Record NavigationState := mkNavigationState {
  ready : bool;
  paused : bool;
  duringFocusChange : bool;
  sections : list (string * Config);
  sectionCount : Z;
  defaultSectionId : string;
  lastSectionId : string;
  idPool : nat
}.

(** [Map.prototype.set]: an existing key keeps its place, a new key
    goes last. *)
Definition Map_set {V} (key : string) (v : V) (m : list (string * V))
  : list (string * V) :=
  match lookup key m with
  | Some _ => replace key v m
  | None => m ++ [(key, v)]
  end.

(** [Map.prototype.has]. *)
Definition Map_has {V} (key : string) (m : list (string * V)) : bool :=
  match lookup key m with Some _ => true | None => false end.

(** The object spread [{ ...g, ...c }]: every property that [c] carries
    replaces the one of [g], an [undefined] value included. *)
Definition spread (c : ConfigArg) (g : Config) : Config :=
  {| id := onSection (a_id c) (id g);
     selector := onSection (a_selector c) (selector g);
     straightOnly := onSection (a_straightOnly c) (straightOnly g);
     straightOverlapThreshold :=
       onSection (a_straightOverlapThreshold c) (straightOverlapThreshold g);
     rememberSource := onSection (a_rememberSource c) (rememberSource g);
     disabled := onSection (a_disabled c) (disabled g);
     defaultElement := onSection (a_defaultElement c) (defaultElement g);
     enterTo := onSection (a_enterTo c) (enterTo g);
     leaveFor := onSection (a_leaveFor c) (leaveFor g);
     restrict := onSection (a_restrict c) (restrict g);
     tabIndexIgnoreList :=
       onSection (a_tabIndexIgnoreList c) (tabIndexIgnoreList g);
     navigableFilter := onSection (a_navigableFilter c) (navigableFilter g);
     sectionPrefix := onSection (a_sectionPrefix c) (sectionPrefix g);
     eventPrefix := onSection (a_eventPrefix c) (eventPrefix g);
     lastFocusedElement :=
       onSection (a_lastFocusedElement c) (lastFocusedElement g);
     previous := onSection (a_previous c) (previous g) |}.

Module Defaults.
Definition SECTION_PREFIX : string := "section-".
Definition EVENT_PREFIX : string := "sn:".
Definition STRAIGHT_OVERLAP_THRESHOLD : Q := 1 # 2.
Definition RESTRICT_MODE : string := "self-first".
Definition TAB_INDEX_IGNORE_LIST : string :=
  "a, input, select, textarea, button, iframe, [contentEditable=true]".
End Defaults.

Definition createDefaultGlobalConfig : Config :=
  {| id := None;
     selector := Some (SelStr "");
     straightOnly := Some false;
     straightOverlapThreshold := Some Defaults.STRAIGHT_OVERLAP_THRESHOLD;
     rememberSource := Some false;
     disabled := Some false;
     defaultElement := Some (SelStr "");
     enterTo := Some ""%string;
     leaveFor := None;
     restrict := Some Defaults.RESTRICT_MODE;
     tabIndexIgnoreList := Some Defaults.TAB_INDEX_IGNORE_LIST;
     navigableFilter := None;
     sectionPrefix := Some Defaults.SECTION_PREFIX;
     eventPrefix := Some Defaults.EVENT_PREFIX;
     lastFocusedElement := None;
     previous := None |}.

Definition createInitialState : NavigationState :=
  {| ready := false;
     paused := false;
     duringFocusChange := false;
     sections := [];
     sectionCount := 0;
     defaultSectionId := "";
     lastSectionId := "";
     idPool := 0 |}.

(** The class [StateManager]: an instance is the pair of its private
    fields; a method takes the instance and returns it updated. *)
Module StateManager.

Record t := mk {
  _state : NavigationState;
  _globalConfig : Config
}.

Definition constructor : t :=
  {| _state := createInitialState; _globalConfig := createDefaultGlobalConfig |}.

Definition withState (f : NavigationState -> NavigationState) (sm : t) : t :=
  {| _state := f (_state sm); _globalConfig := _globalConfig sm |}.

Definition globalConfig (sm : t) : Config := _globalConfig sm.

Definition setGlobalConfig (config : ConfigArg) (sm : t) : t :=
  {| _state := _state sm; _globalConfig := spread config (_globalConfig sm) |}.

Definition setReady (value : bool) : t -> t :=
  withState (fun st =>
    mkNavigationState value (paused st) (duringFocusChange st) (sections st)
      (sectionCount st) (defaultSectionId st) (lastSectionId st) (idPool st)).

Definition setPaused (value : bool) : t -> t :=
  withState (fun st =>
    mkNavigationState (ready st) value (duringFocusChange st) (sections st)
      (sectionCount st) (defaultSectionId st) (lastSectionId st) (idPool st)).

Definition setDuringFocusChange (value : bool) : t -> t :=
  withState (fun st =>
    mkNavigationState (ready st) (paused st) value (sections st)
      (sectionCount st) (defaultSectionId st) (lastSectionId st) (idPool st)).

Definition setDefaultSectionId (value : string) : t -> t :=
  withState (fun st =>
    mkNavigationState (ready st) (paused st) (duringFocusChange st) (sections st)
      (sectionCount st) value (lastSectionId st) (idPool st)).

Definition setLastSectionId (value : string) : t -> t :=
  withState (fun st =>
    mkNavigationState (ready st) (paused st) (duringFocusChange st) (sections st)
      (sectionCount st) (defaultSectionId st) value (idPool st)).

(** [generateSectionId]: the prefix, then the counter after its
    increment; the sections are not consulted. *)
Definition generateSectionId (sm : t) : string * t :=
  let prefix := match nonEmpty (sectionPrefix (_globalConfig sm)) with
                | Some p => p
                | None => Defaults.SECTION_PREFIX
                end in
  let n := S (idPool (_state sm)) in
  ((prefix ++ NilEmpty.string_of_uint (Nat.to_uint n))%string,
   withState (fun st =>
     mkNavigationState (ready st) (paused st) (duringFocusChange st)
       (sections st) (sectionCount st) (defaultSectionId st)
       (lastSectionId st) n) sm).

Definition hasSection (sid : string) (sm : t) : bool :=
  Map_has sid (sections (_state sm)).

Definition getSection (sid : string) (sm : t) : option Config :=
  lookup sid (sections (_state sm)).

Definition setSection (sid : string) (config : Config) (sm : t) : t :=
  let isNew := negb (Map_has sid (sections (_state sm))) in
  withState (fun st =>
    mkNavigationState (ready st) (paused st) (duringFocusChange st)
      (Map_set sid config (sections st))
      (if isNew then sectionCount st + 1 else sectionCount st)%Z
      (defaultSectionId st) (lastSectionId st) (idPool st)) sm.

Definition removeSection (sid : string) (sm : t) : bool * t :=
  let existed := Map_has sid (sections (_state sm)) in
  (existed,
   withState (fun st =>
     mkNavigationState (ready st) (paused st) (duringFocusChange st)
       (delete sid (sections st))
       (if existed then sectionCount st - 1 else sectionCount st)%Z
       (defaultSectionId st) (lastSectionId st) (idPool st)) sm).

Definition getSectionIds (sm : t) : list string :=
  keys (sections (_state sm)).

Definition clearSections : t -> t :=
  withState (fun st =>
    mkNavigationState (ready st) (paused st) (duringFocusChange st)
      [] 0 "" "" (idPool st)).

Definition reset (sm : t) : t :=
  {| _state := createInitialState; _globalConfig := _globalConfig sm |}.

Definition resetGlobalConfig (sm : t) : t :=
  {| _state := _state sm; _globalConfig := createDefaultGlobalConfig |}.

Definition fullReset (sm : t) : t := resetGlobalConfig (reset sm).

End StateManager.

Definition defaultStateManager : StateManager.t := StateManager.constructor.

(* ================================================================== *)
(** * The placements of [partition]

    The home bucket of a candidate is read off its centre; a candidate
    whose home is a corner is additionally placed in an adjacent edge
    bucket when it reaches the edge that the loop computes from the
    threshold. *)

(** Position of a coordinate relative to a span: 0 before it, 1 within
    (bounds included), 2 after it. *)
Definition classify (c lo hi : Q) : nat :=
  if Qlt_bool c lo then 0%nat else if Qle_bool c hi then 1%nat else 2%nat.

Definition column (T r : Rect) : nat := classify (x (center r)) (left T) (right T).
Definition row (T r : Rect) : nat := classify (y (center r)) (top T) (bottom T).

Definition homeBucket (T r : Rect) : nat := (row T r * 3 + column T r)%nat.

Definition isCorner (k : nat) : bool := existsb (Nat.eqb k) Grid.CORNERS.

(** The edge buckets next to a corner: same row, middle column; and
    middle row, same column. *)
Definition edgeAboveBelow (T r : Rect) : nat := (row T r * 3 + 1)%nat.
Definition edgeBeside (T r : Rect) : nat := (3 + column T r)%nat.

(** The tests the loop makes of a corner candidate: a candidate on the
    right (resp. below) has to begin at or before the edge
    [right - width * threshold] (resp. [bottom - height * threshold]),
    one on the left (resp. above) has to end at or after
    [left + width * threshold] (resp. [top + height * threshold]); the
    edges are computed in binary64 arithmetic. *)
Definition reachesX (T : Rect) (t : Q) (r : Rect) : bool :=
  if (column T r =? 2)%nat
  then Qle_bool (left r) (sub64 (right T) (mul64 (width T) t))
  else Qle_bool (add64 (left T) (mul64 (width T) t)) (right r).

Definition reachesY (T : Rect) (t : Q) (r : Rect) : bool :=
  if (row T r =? 2)%nat
  then Qle_bool (top r) (sub64 (bottom T) (mul64 (height T) t))
  else Qle_bool (add64 (top T) (mul64 (height T) t)) (bottom r).

Definition duplicated (T : Rect) (t : Q) (r : Rect) (k : nat) : bool :=
  isCorner (homeBucket T r)
  && (((k =? edgeAboveBelow T r)%nat && reachesX T t r)
      || ((k =? edgeBeside T r)%nat && reachesY T t r)).

Definition placed (T : Rect) (t : Q) (r : Rect) (k : nat) : bool :=
  (k =? homeBucket T r)%nat || duplicated T t r k.

(** ** The overlap rule as the specification words it

    A corner candidate is copied into the adjacent edge bucket when it
    overlaps the target by at least the threshold fraction of the
    target's width (resp. height). *)

(** How far a corner candidate reaches into the target's horizontal
    (resp. vertical) span, measured from the side the candidate lies on. *)
Definition overlapX (T r : Rect) : Q :=
  if (column T r =? 2)%nat then right T - left r else right r - left T.

Definition overlapY (T r : Rect) : Q :=
  if (row T r =? 2)%nat then bottom T - top r else bottom r - top T.

Definition placedByOverlap (T : Rect) (t : Q) (r : Rect) (k : nat) : bool :=
  (k =? homeBucket T r)%nat
  || (isCorner (homeBucket T r)
      && (((k =? edgeAboveBelow T r)%nat
           && Qle_bool (width T * t) (overlapX T r))
          || ((k =? edgeBeside T r)%nat
              && Qle_bool (height T * t) (overlapY T r)))).

(** No rounding occurs in the threshold arithmetic for [T] and [t]: the
    four edges are computed exactly. *)
Definition exactEdges (T : Rect) (t : Q) : Prop :=
  sub64 (right T) (mul64 (width T) t) == right T - width T * t
  /\ add64 (left T) (mul64 (width T) t) == left T + width T * t
  /\ sub64 (bottom T) (mul64 (height T) t) == bottom T - height T * t
  /\ add64 (top T) (mul64 (height T) t) == top T + height T * t.

(** A box on whole pixels: its sides, width and height are integers of
    a magnitude below [2^51]. *)
Definition wholePixels (T : Rect) : Prop :=
  exists l tp w h : Z,
    left T == inject_Z l /\ top T == inject_Z tp
    /\ width T == inject_Z w /\ height T == inject_Z h
    /\ right T == inject_Z (l + w) /\ bottom T == inject_Z (tp + h)
    /\ (Z.abs l < 2 ^ 51 /\ Z.abs tp < 2 ^ 51
        /\ Z.abs w < 2 ^ 51 /\ Z.abs h < 2 ^ 51)%Z.

(** The nine bucket indices. *)
Definition cells : list nat := seq 0 9.


(** [a] ranks strictly before [b] under a tier's metrics: the first
    metric that tells the two apart gives [a] the smaller value. *)
Definition precedes (metrics : list (Rect -> Q)) (a b : Rect) : Prop :=
  exists before d after,
    metrics = before ++ d :: after
    /\ (forall d', In d' before -> d' a == d' b)
    /\ d a < d b.

(** The edge bucket that lies straight in a direction. *)
Definition straightBucket (d : Direction) : nat :=
  match d with
  | Left => Grid.MIDDLE_LEFT
  | Right => Grid.MIDDLE_RIGHT
  | Up => Grid.TOP_CENTER
  | Down => Grid.BOTTOM_CENTER
  end.

(** The registry invariant: the counter equals the number of entries. *)
Definition countInvariant (e : Engine) : Prop :=
  _sectionCount e = Z.of_nat (List.length (_sections e)).

(** A section to which [getSectionId] may attribute an element: not
    disabled, and its selector matches. *)
Definition attributable (w : World) (elem : Elem) (sec : Config) : bool :=
  negb (truthy (disabled sec)) && matchSelector w (Some elem) (selector sec).


(** None of the events reports a committed focus change. *)
Definition noFocusCommitted (evs : list Event) : Prop :=
  forall ev, In ev evs -> ev_name ev <> focused.

(** [settled failed s s']: the engine went from [s] to [s'] neither
    paused nor inside a focus change, only dispatching events; and if
    none of them reports a committed focus change, then [failed] holds
    and the engine variables are what they were. *)
Definition settled (failed : Prop) (s s' : State) : Prop :=
  _pause (engine s') = false
  /\ _duringFocusChange (engine s') = false
  /\ exists evs,
       events s' = evs ++ events s
       /\ (noFocusCommitted evs -> failed /\ engine s' = engine s).

(** The approval gate of [focusElement] for a move to [elem]: the
    focused element, if any, accepts [willunfocus], and then [elem]
    accepts [willfocus]. *)
Definition gateApproves (w : World) (s : State) (elem : Elem)
    (sectionId : option string) (direction : option Direction) : bool :=
  (match activeElement s with
   | Some cur =>
       dispatchEvent w cur willunfocus
         (mkDetail direction None sectionId (Some elem) None (Some false) None)
   | None => true
   end)
  && dispatchEvent w elem willfocus
       (mkDetail direction sectionId None None (activeElement s) (Some false) None).

(** The engine after [focusNext] has recorded its geometric winner. *)
Definition recordPrevious (e : Engine) (sid : string) (cur next : Elem)
    (dir : Direction) : Engine :=
  with_sections
    (updateSection sid
       (with_previous {| target := cur; destination := next;
                         reverse := REVERSE dir |})
       (_sections e)) e.

(** A rectangle whose centre lies within its own spans, as is the case
    for every box with non-negative width and height. *)
Definition centred (T : Rect) : Prop :=
  left T <= x (center T) <= right T /\ top T <= y (center T) <= bottom T.

(** The buckets a direction's tiers draw from once the [straightOnly]
    cut is made: the straight edge bucket, then the two corners. *)
Definition cornerBuckets (d : Direction) : list nat :=
  match d with
  | Left => [Grid.TOP_LEFT; Grid.BOTTOM_LEFT]
  | Right => [Grid.TOP_RIGHT; Grid.BOTTOM_RIGHT]
  | Up => [Grid.TOP_LEFT; Grid.TOP_RIGHT]
  | Down => [Grid.BOTTOM_LEFT; Grid.BOTTOM_RIGHT]
  end.

Definition activeBuckets (d : Direction) (config : Config) : list nat :=
  straightBucket d
  :: (if truthy (straightOnly config) then [] else cornerBuckets d).

(** The registry operations, as calls on the public object. *)
Inductive RegistryOp :=
| OpAdd (config : ConfigArg)
| OpRemove (sid : option string)
| OpClear
| OpSet (config : ConfigArg)
| OpEnable (sid : string)
| OpDisable (sid : string).

Definition runOp (op : RegistryOp) (s : State) : State :=
  match op with
  | OpAdd config => snd (SpatialNavigation.add config s)
  | OpRemove sid => snd (SpatialNavigation.remove sid s)
  | OpClear => snd (SpatialNavigation.clear s)
  | OpSet config => snd (SpatialNavigation.set config s)
  | OpEnable sid => snd (SpatialNavigation.enable sid s)
  | OpDisable sid => snd (SpatialNavigation.disable sid s)
  end.

(** A call of [set] that names a section is on target when that section
    exists at the time of the call, or when the call throws (it carries
    a property that [globalConfig] knows). *)
Definition onTarget (op : RegistryOp) (s : State) : bool :=
  match op with
  | OpSet config =>
      match nonEmpty (propValue (a_id config)) with
      | Some sid =>
          match lookup sid (_sections (engine s)) with
          | Some _ => true
          | None => hasGlobalKey config
          end
      | None => true
      end
  | _ => true
  end.

Fixpoint allOnTarget (ops : list RegistryOp) (s : State) : bool :=
  match ops with
  | [] => true
  | op :: rest => onTarget op s && allOnTarget rest (runOp op s)
  end.

(** What [add] stores for a configuration. *)
Definition storedSection (c : ConfigArg) : Config :=
  setSection c emptyConfig.



(* ================================================================== *)
(** * Vocabulary of the properties of the resolver *)

(** A bounding box as the layout engine produces it: a non-negative
    size, and far edges at the near edge plus the size. *)
Definition wellFormed (cr : ClientRect) : Prop :=
  0 <= cr_width cr /\ 0 <= cr_height cr
  /\ cr_right cr == cr_left cr + cr_width cr
  /\ cr_bottom cr == cr_top cr + cr_height cr.

(** The centre of [r] lies strictly beyond the edge of [T] that faces
    direction [d]. *)
Definition onSide (d : Direction) (T r : Rect) : Prop :=
  match d with
  | Left => x (center r) < left T
  | Right => right T < x (center r)
  | Up => y (center r) < top T
  | Down => bottom T < y (center r)
  end.

(** [l] is in the order of the comparator: no member compares above a
    later one. *)
Definition ordered (cmp : Rect -> Rect -> Q) (l : list Rect) : Prop :=
  Sorted.StronglySorted (fun a b => cmp a b <= 0) l.

(** A configuration with another [straightOverlapThreshold]. *)
Definition with_threshold (t : option Q) (c : Config) : Config :=
  mkConfig (id c) (selector c) (straightOnly c) t
    (rememberSource c) (disabled c) (defaultElement c) (enterTo c) (leaveFor c)
    (restrict c) (tabIndexIgnoreList c) (navigableFilter c) (sectionPrefix c)
    (eventPrefix c) (lastFocusedElement c) (previous c).

(* ================================================================== *)
(** * Vocabulary of the properties of the focus state machine *)

(** A section id handed to [focusElement] is either missing (or empty)
    or the id of a registered section. *)
Definition registeredOrNone (e : Engine) (sectionId : option string) : Prop :=
  forall i, nonEmpty sectionId = Some i -> lookup i (_sections e) <> None.

(** The state in which [focusElement] leaves a focus change it has
    carried out: the events [evs] dispatched, the document's focus on
    [elem], the bookkeeping of [focusChanged] done. *)
Definition afterFocus (w : World) (elem : Elem) (sectionId : option string)
    (evs : list Event) (s : State) : State :=
  snd (focusChanged w elem sectionId
         (mkState (engine s) (Some elem) (evs ++ events s))).

(** What [add] and [set] wrote of a section, without the two fields the
    focus state machine keeps in it. *)
Definition configured (c : Config) : Config :=
  mkConfig (id c) (selector c) (straightOnly c) (straightOverlapThreshold c)
    (rememberSource c) (disabled c) (defaultElement c) (enterTo c) (leaveFor c)
    (restrict c) (tabIndexIgnoreList c) (navigableFilter c) (sectionPrefix c)
    (eventPrefix c) None None.

(** The registry of [e'] is that of [e]: the same sections in the same
    order with the same configured properties, the same counter, global
    configuration, prefixes, id pool and default section. *)
Definition sameRegistry (e e' : Engine) : Prop :=
  globalConfig e' = globalConfig e
  /\ ID_POOL_PREFIX e' = ID_POOL_PREFIX e
  /\ EVENT_PREFIX e' = EVENT_PREFIX e
  /\ _idPool e' = _idPool e
  /\ _ready e' = _ready e
  /\ _sectionCount e' = _sectionCount e
  /\ _defaultSectionId e' = _defaultSectionId e
  /\ map (fun kv => (fst kv, configured (snd kv))) (_sections e')
     = map (fun kv => (fst kv, configured (snd kv))) (_sections e).

(** The two mode flags are what they were. *)
Definition flagsKept (e e' : Engine) : Prop :=
  _pause e' = _pause e /\ _duringFocusChange e' = _duringFocusChange e.

(** [_lastSectionId] is empty or names a registered section. *)
Definition lastSectionRegistered (e : Engine) : Prop :=
  _lastSectionId e = ""%string \/ lookup (_lastSectionId e) (_sections e) <> None.

(** The state once one more event has been dispatched. *)
Definition addEvent (ev : Event) (s : State) : State :=
  mkState (engine s) (activeElement s) (ev :: events s).

(** What can happen to the engine: a call of a public function, a key
    event handled by [onKeyDown] or [onKeyUp], or the document moving its
    focus by itself. *)
Inductive Call :=
| CallInit
| CallUninit
| CallClear
| CallSet (config : ConfigArg)
| CallAdd (config : ConfigArg)
| CallRemove (sid : option string)
| CallDisable (sid : string)
| CallEnable (sid : string)
| CallPause
| CallResume
| CallFocus (target : SpatialNavigation.FocusTarget) (silent : option bool)
| CallMove (direction : Direction) (sel : option Sel)
| CallSetDefaultSection (sid : option string)
| KeyDown (evt : KeyboardEvent)
| KeyUp (evt : KeyboardEvent)
| DocumentFocus (elem : option Elem).

(** The state after a call made while the document is [w]; a call that
    throws leaves the state it had reached. *)
Definition runCall (wc : World * Call) (s : State) : State :=
  let w := fst wc in
  match snd wc with
  | CallInit => snd (SpatialNavigation.init s)
  | CallUninit => snd (SpatialNavigation.uninit s)
  | CallClear => snd (SpatialNavigation.clear s)
  | CallSet config => snd (SpatialNavigation.set config s)
  | CallAdd config => snd (SpatialNavigation.add config s)
  | CallRemove sid => snd (SpatialNavigation.remove sid s)
  | CallDisable sid => snd (SpatialNavigation.disable sid s)
  | CallEnable sid => snd (SpatialNavigation.enable sid s)
  | CallPause => snd (SpatialNavigation.pause s)
  | CallResume => snd (SpatialNavigation.resume s)
  | CallFocus target silent => snd (SpatialNavigation.focus w target silent s)
  | CallMove direction sel => snd (SpatialNavigation.move w direction sel s)
  | CallSetDefaultSection sid => snd (SpatialNavigation.setDefaultSection sid s)
  | KeyDown evt => snd (onKeyDown w evt s)
  | KeyUp evt => snd (onKeyUp w evt s)
  | DocumentFocus elem => mkState (engine s) elem (events s)
  end.

(** A history: calls in the order in which they are made, each with the
    document as it is at that time. *)
Definition runCalls (calls : list (World * Call)) (s : State) : State :=
  fold_left (fun s wc => runCall wc s) calls s.

(** The section ids [focusSection] goes through. *)
Definition sectionRange (e : Engine) (sectionId : option string) : list string :=
  match nonEmpty sectionId with
  | Some sid => addRange e [] sid
  | None =>
      fold_left (addRange e) (keys (_sections e))
        (addRange e (addRange e [] (_defaultSectionId e)) (_lastSectionId e))
  end.

(** The relation kept by navigation: the registry, the mode flags, and
    the registration of the last section. *)
Definition navKept (s s' : State) : Prop :=
  sameRegistry (engine s) (engine s')
  /\ flagsKept (engine s) (engine s')
  /\ (lastSectionRegistered (engine s) -> lastSectionRegistered (engine s')).

(** The invariant of the engine: the last section is registered, and no
    focus change is in progress. *)
Definition engineInvariant (e : Engine) : Prop :=
  lastSectionRegistered e /\ _duringFocusChange e = false.

(** While the engine is paused, it stays paused and dispatches nothing. *)
Definition silentKept (s s' : State) : Prop :=
  keys (_sections (engine s')) = keys (_sections (engine s))
  /\ (_pause (engine s) = true ->
      _pause (engine s') = true /\ events s' = events s).

(** What [focusSection] does at one section of its range. *)
Definition visitSection (w : World) (sid : string) : M bool :=
  e <- gets engine ;;
  match entryElement w e sid with
  | Some next => focusElement w (Some next) (Some sid) None
  | None => ret false
  end.

(** The detail of the [willunfocus] and [unfocused] events of a focus
    change towards [elem], and that of its [willfocus] and [focused]
    events. *)
Definition unfocusDetail (elem : Elem) (sectionId : option string)
    (direction : option Direction) : SpatialEventDetail :=
  mkDetail direction None sectionId (Some elem) None (Some false) None.

Definition focusDetail (previousElement : option Elem)
    (sectionId : option string) (direction : option Direction)
  : SpatialEventDetail :=
  mkDetail direction sectionId None None previousElement (Some false) None.

(** The events by which the focused element, if any, is left. *)
Definition leaveEvents (s : State) (elem : Elem) (sectionId : option string)
    (direction : option Direction) : list Event :=
  match activeElement s with
  | Some cur =>
      [mkEvent cur unfocused (unfocusDetail elem sectionId direction);
       mkEvent cur willunfocus (unfocusDetail elem sectionId direction)]
  | None => []
  end.

(** The detail of the [willmove] event and of the [navigatefailed]
    event. *)
Definition willMoveDetail (direction : Direction) (sectionId cause : string)
  : SpatialEventDetail :=
  mkDetail (Some direction) (Some sectionId) None None None None (Some cause).

Definition failedDetail (direction : Direction) : SpatialEventDetail :=
  mkDetail (Some direction) None None None None None None.

(** The [previous] records of the sections are what they were. *)
Definition previousKept (e e' : Engine) : Prop :=
  forall i, option_map previous (lookup i (_sections e'))
            = option_map previous (lookup i (_sections e)).

(** The sections are the same and so are their [previous] records. *)
Definition previousFrame (s s' : State) : Prop :=
  keys (_sections (engine s')) = keys (_sections (engine s))
  /\ previousKept (engine s) (engine s').

(** What a run of [focusNext] shows of the search it made.  The search
    had the winner [next]: the current section has recorded the move to
    [next], and when [next] is attributed to the current section the
    run is the attempt to focus it.  The search had no winner: no
    [previous] record has changed, and without a [leaveFor] entry for
    the direction the move has failed -- a [navigatefailed] event and
    nothing else. *)
Definition searched (w : World) (dir : Direction) (cur : Elem) (sid : string)
    (s : State) (found : option Elem) : Prop :=
  let run := focusNext w dir cur sid s in
  match found with
  | Some next =>
      option_map previous (lookup sid (_sections (engine (snd run))))
      = Some (Some {| target := cur; destination := next;
                      reverse := REVERSE dir |})
      /\ (getSectionId w (engine s) next = Some sid ->
          run = focusElement w (Some next) (Some sid) (Some dir)
                  (mkState (recordPrevious (engine s) sid cur next dir)
                     (activeElement s) (events s)))
  | None =>
      previousKept (engine s) (engine (snd run))
      /\ (truthySel (leaveForEntry (engine s) sid dir) = false ->
          run = (false, addEvent (mkEvent cur navigatefailed (failedDetail dir)) s))
  end.

(** A property of the merge of [a] and then [b]: the value that [b]
    defines, or the one of [a] where [b] leaves the property
    undefined. *)
Definition laterWins {A} (field : Config -> option A) (a b : Config) : Prop :=
  (forall v, field b = Some v -> field (extend a b) = Some v)
  /\ (field b = None -> field (extend a b) = field a).

(** The test [addRange] makes of a section id, as a boolean. *)
Definition visitableb (e : Engine) (sid : string) : bool :=
  negb (String.eqb sid "")
  && match lookup sid (_sections e) with
     | Some sec => negb (truthy (disabled sec))
     | None => false
     end.

(** A section that [focusSection] may visit: registered under a name
    that is not empty, and not disabled. *)
Definition visitable (e : Engine) (sid : string) : Prop :=
  sid <> ""%string
  /\ exists sec, lookup sid (_sections e) = Some sec /\ truthy (disabled sec) = false.

(* ------------------------------------------------------------------ *)
(** ** Key events *)

(** The test that opens [onKeyDown]: the section counter is zero, the
    engine is paused, or the key comes with a modifier. *)
Definition keyIgnored (e : Engine) (evt : KeyboardEvent) : bool :=
  (_sectionCount e =? 0)%Z || _pause e
  || altKey evt || ctrlKey evt || metaKey evt || shiftKey evt.

(** The element an arrow key starts from: the focused element, else the
    element focused last in the section focused last, if that element is
    still navigable. *)
Definition keyOrigin (w : World) (s : State) : option Elem :=
  match activeElement s with
  | Some cur => Some cur
  | None =>
      match nonEmpty (Some (_lastSectionId (engine s))) with
      | Some lastSectionId =>
          getSectionLastFocusedElement w (engine s) lastSectionId
      | None => None
      end
  end.

(** The state with older events under the ones it has recorded. *)
Definition relog (older : list Event) (s : State) : State :=
  mkState (engine s) (activeElement s) (events s ++ older).

(** A computation that only adds to the record of events: run over a
    longer record, it does the same and leaves the older events below
    the ones it adds. *)
Definition logfree {A} (m : M A) : Prop :=
  forall older s, m (relog older s) = (fst (m s), relog older (snd (m s))).

(* ------------------------------------------------------------------ *)
(** ** [tabindex] attributes *)

(** The element carries a [tabindex] attribute that is not empty. *)
Definition hasTabindex (attrs : TabIndex) (elem : Elem) : bool :=
  match nonEmpty (attrs elem) with Some _ => true | None => false end.

(** From [attrs] to [attrs'] nothing happened but that elements without
    a [tabindex] were given the value [-1]. *)
Definition onlyFilled (attrs attrs' : TabIndex) : Prop :=
  forall elem,
    attrs' elem = attrs elem
    \/ (hasTabindex attrs elem = false /\ attrs' elem = Some "-1"%string).

(** The element is one that [doMakeFocusable] looks at for the section
    and does not pass over: it matches the selector of the section and
    not the list of selectors to ignore. *)
Definition focusableIn (w : World) (e : Engine) (section : Config) (elem : Elem)
  : bool :=
  truthySel (selector section)
  && existsb (Nat.eqb elem) (parseSelector w (selector section))
  && negb (matchSelector w (Some elem)
             (option_map SelStr
                match tabIndexIgnoreList section with
                | Some l => Some l
                | None => tabIndexIgnoreList (globalConfig e)
                end)).

(** The list of selectors that [doMakeFocusable] ignores for a section
    is a selector: where one is in force, the section's own or else the
    global one, it is not the empty string. *)
Definition ignoreListValid (e : Engine) (section : Config) : Prop :=
  match tabIndexIgnoreList section with
  | Some l => Some l
  | None => tabIndexIgnoreList (globalConfig e)
  end <> Some ""%string.

(** That holds of every section, and the id, if one is given, is not
    the name of a member of [Object.prototype]. *)
Definition makeFocusableInput (sid : option string) (e : Engine) : Prop :=
  (forall i, nonEmpty sid = Some i -> inherited i = false)
  /\ (forall i section,
        lookup i (_sections e) = Some section -> ignoreListValid e section).

(** The same for the sections [makeFocusable] is asked about: the one
    named, or all of them. *)
Definition targeted (w : World) (e : Engine) (sid : option string) (elem : Elem)
  : bool :=
  match nonEmpty sid with
  | Some sid =>
      match lookup sid (_sections e) with
      | Some section => focusableIn w e section elem
      | None => false
      end
  | None => existsb (fun kv => focusableIn w e (snd kv) elem) (_sections e)
  end.

(* ------------------------------------------------------------------ *)
(** ** Histories of a state manager *)

(** The methods of [StateManager] that change the instance. *)
Inductive Method :=
| DoSetGlobalConfig (config : ConfigArg)
| DoSetReady (value : bool)
| DoSetPaused (value : bool)
| DoSetDuringFocusChange (value : bool)
| DoSetDefaultSectionId (value : string)
| DoSetLastSectionId (value : string)
| DoGenerateSectionId
| DoSetSection (sid : string) (config : Config)
| DoRemoveSection (sid : string)
| DoClearSections
| DoReset
| DoResetGlobalConfig
| DoFullReset.

Definition callMethod (sm : StateManager.t) (m : Method) : StateManager.t :=
  match m with
  | DoSetGlobalConfig config => StateManager.setGlobalConfig config sm
  | DoSetReady value => StateManager.setReady value sm
  | DoSetPaused value => StateManager.setPaused value sm
  | DoSetDuringFocusChange value => StateManager.setDuringFocusChange value sm
  | DoSetDefaultSectionId value => StateManager.setDefaultSectionId value sm
  | DoSetLastSectionId value => StateManager.setLastSectionId value sm
  | DoGenerateSectionId => snd (StateManager.generateSectionId sm)
  | DoSetSection sid config => StateManager.setSection sid config sm
  | DoRemoveSection sid => snd (StateManager.removeSection sid sm)
  | DoClearSections => StateManager.clearSections sm
  | DoReset => StateManager.reset sm
  | DoResetGlobalConfig => StateManager.resetGlobalConfig sm
  | DoFullReset => StateManager.fullReset sm
  end.

Definition callMethods (ms : list Method) (sm : StateManager.t)
  : StateManager.t :=
  fold_left callMethod ms sm.

(** [n] calls of [generateSectionId] in a row: the ids, first to last,
    and the instance afterwards. *)
Fixpoint generateSectionIds (n : nat) (sm : StateManager.t)
  : list string * StateManager.t :=
  match n with
  | O => ([], sm)
  | S n =>
      let (sid, sm1) := StateManager.generateSectionId sm in
      let (ids, sm2) := generateSectionIds n sm1 in
      (sid :: ids, sm2)
  end.

(* ================================================================== *)
(** * Example documents

    Three 50x50 elements: element 1 at (0,0), element 2 at (100,0) and
    element 3 at (0,100); element 4 at (100,100) lies diagonally from
    element 1.  [".f"] selects the first three, [".a"] element 1,
    [".b"] element 2, [".c"] element 3, [".d"] element 4. *)

Definition box (l t wd ht : Z) : ClientRect :=
  mkClientRect (inject_Z l) (inject_Z t) (inject_Z (l + wd)) (inject_Z (t + ht))
    (inject_Z wd) (inject_Z ht).

(** The document; [veto elem name] tells which cancelable events the
    listeners cancel. *)
Definition page (veto : Elem -> EventName -> bool) : World :=
  {| querySelectorAll := fun s =>
       if String.eqb s ".f" then [1; 2; 3]%nat
       else if String.eqb s ".a" then [1]%nat
       else if String.eqb s ".b" then [2]%nat
       else if String.eqb s ".c" then [3]%nat
       else if String.eqb s ".d" then [4]%nat
       else [];
     getBoundingClientRect := fun e =>
       match e with
       | 1%nat => Some (box 0 0 50 50)
       | 2%nat => Some (box 100 0 50 50)
       | 3%nat => Some (box 0 100 50 50)
       | 4%nat => Some (box 100 100 50 50)
       | _ => None
       end;
     offsetWidth := fun _ => 50%Z;
     offsetHeight := fun _ => 50%Z;
     hasAttribute_disabled := fun _ => false;
     getAttribute_data_sn := fun _ _ => None;
     dispatchEvent := fun e n _ => negb (veto e n) |}.

(** No listener cancels anything. *)
Definition quietPage : World := page (fun _ _ => false).

(** A listener cancels [willfocus] on element 2. *)
Definition vetoPage : World :=
  page (fun e n => match e, n with 2%nat, willfocus => true | _, _ => false end).

(** [{ id: sid }]. *)
Definition idOnly (sid : string) : ConfigArg :=
  mkConfigArg (Value sid) Absent Absent Absent Absent Absent Absent Absent
              Absent Absent Absent Absent Absent Absent Absent Absent.

(** [{ id: sid, selector: sel }]. *)
Definition section (sid sel : string) : ConfigArg :=
  mkConfigArg (Value sid) (Value (SelStr sel)) Absent Absent Absent Absent
              Absent Absent Absent Absent Absent Absent Absent Absent Absent
              Absent.

(** [{ id: sid, selector: sel, restrict: mode }]. *)
Definition sectionRestrict (sid sel mode : string) : ConfigArg :=
  mkConfigArg (Value sid) (Value (SelStr sel)) Absent Absent Absent Absent
              Absent Absent Absent (Value mode) Absent Absent Absent Absent
              Absent Absent.

(** [{ id: sid, selector: sel, leaveFor: { right: r } }]. *)
Definition sectionLeaveRight (sid sel : string) (r : Sel) : ConfigArg :=
  mkConfigArg (Value sid) (Value (SelStr sel)) Absent Absent Absent Absent
              Absent Absent (Value (mkLeaveFor None None None (Some r)))
              Absent Absent Absent Absent Absent Absent Absent.

(** The state after a sequence of [add] calls on a fresh engine. *)
Definition registered (configs : list ConfigArg) : State :=
  fold_left (fun s c => snd (SpatialNavigation.add c s)) configs initialState.

(** The same, with the document's focus on [elem]. *)
Definition focusedOn (elem : Elem) (s : State) : State :=
  mkState (engine s) (Some elem) (events s).

(** The rectangles [getRect] measures for elements 1 and 3. *)
Definition rect1 : Rect := mkRect 0 0 50 50 50 50 1%nat (mkPoint 25 25).
Definition rect3 : Rect := mkRect 0 100 50 150 50 50 3%nat (mkPoint 25 125).

(** A 10x10 rectangle at (v, v), as in the test-suite of [prioritize]. *)
Definition mockRect (n : nat) (v : Z) : Rect :=
  mkRect (inject_Z v) (inject_Z v) (inject_Z (v + 10)) (inject_Z (v + 10))
    10 10 n (mkPoint (inject_Z (v + 5)) (inject_Z (v + 5))).

(** The default configuration with [straightOnly] switched on. *)
Definition straightConfig : Config :=
  mkConfig None (Some (SelStr "")) (Some true) (Some (1 # 2)) (Some false)
    (Some false) (Some (SelStr "")) (Some ""%string) None
    (Some "self-first"%string) None None None None None None.

(* ================================================================== *)
(** * More example objects *)

(** The rectangle [getRect] measures for element 2. *)
Definition rect2 : Rect := mkRect 100 0 150 50 50 50 2%nat (mkPoint 125 25).

(** The quiet document, with [data-sn-right=".c"] on element 1. *)
Definition overridePage : World :=
  {| querySelectorAll := querySelectorAll quietPage;
     getBoundingClientRect := getBoundingClientRect quietPage;
     offsetWidth := offsetWidth quietPage;
     offsetHeight := offsetHeight quietPage;
     hasAttribute_disabled := hasAttribute_disabled quietPage;
     getAttribute_data_sn := fun e d =>
       match e, d with
       | 1%nat, Right => Some ".c"%string
       | _, _ => None
       end;
     dispatchEvent := dispatchEvent quietPage |}.

(** [{ selector: sel }]: a section without an id. *)
Definition anonymous (sel : string) : ConfigArg :=
  mkConfigArg Absent (Value (SelStr sel)) Absent Absent Absent Absent
              Absent Absent Absent Absent Absent Absent Absent Absent Absent
              Absent.

(** [{ id: sid, selector: sel, rememberSource: true }]. *)
Definition sectionRemember (sid sel : string) : ConfigArg :=
  mkConfigArg (Value sid) (Value (SelStr sel)) Absent Absent (Value true)
              Absent Absent Absent Absent Absent Absent Absent Absent Absent
              Absent Absent.

(** A 100x50 rectangle above and to the right of [rect1], beginning at
    abscissa [l]: it overlaps [rect1] horizontally by [50 - l]. *)
Definition cornerRect (l : Z) : Rect :=
  mkRect (inject_Z l) (-60) (inject_Z (l + 100)) (-10) 100 50 5%nat
    (mkPoint (inject_Z (l + 50)) (-35)).

(** Another layout of the first three elements: element 1 (50x50) at
    (0,0), element 3 (50x50) below it at (0,50), and element 2 (50x100)
    at (100,0), to the right of both.  To the left of element 2 the
    tier's metrics put element 1 before element 3. *)
Definition tallPage : World :=
  {| querySelectorAll := querySelectorAll quietPage;
     getBoundingClientRect := fun e =>
       match e with
       | 1%nat => Some (box 0 0 50 50)
       | 2%nat => Some (box 100 0 50 100)
       | 3%nat => Some (box 0 50 50 50)
       | _ => None
       end;
     offsetWidth := offsetWidth quietPage;
     offsetHeight := offsetHeight quietPage;
     hasAttribute_disabled := hasAttribute_disabled quietPage;
     getAttribute_data_sn := getAttribute_data_sn quietPage;
     dispatchEvent := dispatchEvent quietPage |}.

(** The rectangles [getRect] measures for its elements 2 and 3. *)
Definition tallRect2 : Rect := mkRect 100 0 150 100 50 100 2%nat (mkPoint 125 50).
Definition tallRect3 : Rect := mkRect 0 50 50 100 50 50 3%nat (mkPoint 25 75).

(** The engine with the one section [main] of the first three elements,
    and the focus on element 1. *)
Definition mainFocused : State :=
  focusedOn 1%nat (registered [section "main" ".f"]).

(** The right arrow key, without modifiers. *)
Definition arrowRight : KeyboardEvent :=
  mkKeyboardEvent 39 false false false false.

(** The quiet document, whatever the [tabindex] attributes. *)
Definition plainDocument : Document := fun _ => quietPage.

(** No element carries a [tabindex]. *)
Definition noTabindex : TabIndex := fun _ => None.

(* ================================================================== *)
(** * Properties *)

(** ** The end-to-end example and cases of the test-suite *)

(** Elements at (0,0), (100,0) and (0,100), all 50x50, focus on the
    first: right reaches the second, down the third, left and up
    nothing. *)
Example navigate_end_to_end :
  navigate quietPage (Some 1%nat) Right [2; 3]%nat defaultGlobalConfig = Some 2%nat
  /\ navigate quietPage (Some 1%nat) Down [2; 3]%nat defaultGlobalConfig = Some 3%nat
  /\ navigate quietPage (Some 1%nat) Left [2; 3]%nat defaultGlobalConfig = None
  /\ navigate quietPage (Some 1%nat) Up [2; 3]%nat defaultGlobalConfig = None.
Proof. repeat split; reflexivity. Qed.

(** [prioritize] picks the first non-empty group and sorts it. *)
Example prioritize_sorts_first_non_empty_group :
  option_map (map element)
    (prioritize
       [ mkPriority [] [];
         mkPriority [mockRect 2 20; mockRect 1 10; mockRect 3 30] [left];
         mkPriority [mockRect 4 40] [] ])
  = Some [1; 2; 3]%nat.
Proof. reflexivity. Qed.

Example prioritize_all_empty :
  prioritize [mkPriority [] []; mkPriority [] []; mkPriority [] []] = None.
Proof. reflexivity. Qed.

(** Nothing to partition: nine empty buckets. *)
Example partition_nothing :
  partition [] rect1 (1 # 2) = [[]; []; []; []; []; []; []; []; []].
Proof. reflexivity. Qed.

(** ** Comparisons on rationals *)

Lemma Qlt_bool_iff (a b : Q) : Qlt_bool a b = true <-> a < b.
Proof.
  unfold Qlt_bool. rewrite negb_true_iff, <- not_true_iff_false, Qle_bool_iff.
  split; [apply Qnot_le_lt | apply Qlt_not_le].
Qed.

Lemma Qlt_bool_false_iff (a b : Q) : Qlt_bool a b = false <-> b <= a.
Proof.
  unfold Qlt_bool. rewrite negb_false_iff. apply Qle_bool_iff.
Qed.

Lemma Qle_bool_false_iff (a b : Q) : Qle_bool a b = false <-> b < a.
Proof.
  rewrite <- not_true_iff_false, Qle_bool_iff.
  split; [apply Qnot_le_lt | apply Qlt_not_le].
Qed.

(** [d < 0 ? 0 : d] is never negative, and is zero when [d <= 0]. *)
Lemma clamp_nonneg (d : Q) : 0 <= (if Qlt_bool d 0 then 0 else d).
Proof.
  destruct (Qlt_bool d 0) eqn:E.
  - apply Qle_refl.
  - now apply Qlt_bool_false_iff.
Qed.

Lemma clamp_zero (d : Q) : d <= 0 -> (if Qlt_bool d 0 then 0 else d) == 0.
Proof.
  intros Hd. destruct (Qlt_bool d 0) eqn:E.
  - reflexivity.
  - apply Qlt_bool_false_iff in E. now apply Qle_antisym.
Qed.

(** ** Distance metrics *)

(** C8. Each of [nearPlumbLineIsBetter], [nearHorizonIsBetter],
    [nearTargetLeftIsBetter] and [nearTargetTopIsBetter] is non-negative
    on every candidate rectangle, and is zero as soon as the candidate's
    span contains the target's centre line (first two) or the target's
    left/top edge (last two). *)
Theorem near_metrics_nonneg_zero_when_covering :
  forall targetRect rect : Rect,
    let df := distanceBuilder targetRect in
    (0 <= nearPlumbLineIsBetter df rect
     /\ 0 <= nearHorizonIsBetter df rect
     /\ 0 <= nearTargetLeftIsBetter df rect
     /\ 0 <= nearTargetTopIsBetter df rect)
    /\ (left rect <= x (center targetRect) <= right rect ->
        nearPlumbLineIsBetter df rect == 0)
    /\ (top rect <= y (center targetRect) <= bottom rect ->
        nearHorizonIsBetter df rect == 0)
    /\ (left rect <= left targetRect <= right rect ->
        nearTargetLeftIsBetter df rect == 0)
    /\ (top rect <= top targetRect <= bottom rect ->
        nearTargetTopIsBetter df rect == 0).
Proof.
  intros T r df. unfold df; cbn [distanceBuilder nearPlumbLineIsBetter
    nearHorizonIsBetter nearTargetLeftIsBetter nearTargetTopIsBetter].
  repeat split; try apply clamp_nonneg.
  - intros [H1 H2]. apply clamp_zero.
    destruct (Qlt_bool (x (center r)) (x (center T))); lra.
  - intros [H1 H2]. apply clamp_zero.
    destruct (Qlt_bool (y (center r)) (y (center T))); lra.
  - intros [H1 H2]. apply clamp_zero.
    destruct (Qlt_bool (x (center r)) (x (center T))); lra.
  - intros [H1 H2]. apply clamp_zero.
    destruct (Qlt_bool (y (center r)) (y (center T))); lra.
Qed.

(** ** Partition *)

Lemma Qle_bool_ext (a b c d : Q) :
  (a <= b <-> c <= d) -> Qle_bool a b = Qle_bool c d.
Proof.
  intros H. apply eq_true_iff_eq. now rewrite !Qle_bool_iff.
Qed.

Lemma partition_step_placed (T : Rect) (t : Q) (pre : list Rect) (r : Rect) :
  partition_step T t (map (fun k => filter (fun c => placed T t c k) pre) cells) r
  = map (fun k => filter (fun c => placed T t c k) (pre ++ [r])) cells.
Proof.
  unfold cells. cbn [seq map]. rewrite !filter_app. cbn [filter].
  repeat match goal with
         | |- context [filter ?f pre] => generalize (filter f pre); intro
         end.
  unfold partition_step, placed, duplicated, reachesX, reachesY, homeBucket,
    edgeAboveBelow, edgeBeside, row, column, classify.
  generalize (sub64 (right T) (mul64 (width T) t))
             (add64 (left T) (mul64 (width T) t))
             (sub64 (bottom T) (mul64 (height T) t))
             (add64 (top T) (mul64 (height T) t)).
  intros e1 e2 e3 e4.
  destruct (Qlt_bool (x (center r)) (left T));
    [| destruct (Qle_bool (x (center r)) (right T))];
    (destruct (Qlt_bool (y (center r)) (top T));
     [| destruct (Qle_bool (y (center r)) (bottom T))]);
    cbn -[Qle_bool];
    repeat match goal with
           | |- context [Qle_bool ?a ?b] => destruct (Qle_bool a b)
           end;
    cbn; rewrite ?app_nil_r; reflexivity.
Qed.

Lemma partition_fold (T : Rect) (t : Q) (rects pre : list Rect) :
  fold_left (partition_step T t) rects
    (map (fun k => filter (fun c => placed T t c k) pre) cells)
  = map (fun k => filter (fun c => placed T t c k) (pre ++ rects)) cells.
Proof.
  revert pre. induction rects as [|r rects IH]; intros pre; cbn [fold_left].
  - now rewrite app_nil_r.
  - rewrite partition_step_placed, IH, <- app_assoc. reflexivity.
Qed.

Lemma partition_placed (T : Rect) (t : Q) (rects : list Rect) :
  partition rects T t
  = map (fun k => filter (fun c => placed T t c k) rects) cells.
Proof.
  unfold partition. exact (partition_fold T t rects []).
Qed.

Lemma classify_cases (c lo hi : Q) :
  (classify c lo hi = 0%nat /\ c < lo)
  \/ (classify c lo hi = 1%nat /\ lo <= c <= hi)
  \/ (classify c lo hi = 2%nat /\ lo <= c /\ hi < c).
Proof.
  unfold classify.
  destruct (Qlt_bool c lo) eqn:E1.
  - left. split; [reflexivity | now apply Qlt_bool_iff].
  - apply Qlt_bool_false_iff in E1.
    destruct (Qle_bool c hi) eqn:E2.
    + right; left. apply Qle_bool_iff in E2. auto.
    + right; right. apply Qle_bool_false_iff in E2. auto.
Qed.

Lemma classify_le_2 (c lo hi : Q) : (classify c lo hi <= 2)%nat.
Proof. destruct (classify_cases c lo hi) as [[-> _]|[[-> _]|[-> _]]]; lia. Qed.

Lemma placed_lt_9 (T : Rect) (t : Q) (r : Rect) (k : nat) :
  placed T t r k = true -> (k < 9)%nat.
Proof.
  unfold placed, duplicated, homeBucket, edgeAboveBelow, edgeBeside, row, column.
  pose proof (classify_le_2 (x (center r)) (left T) (right T)).
  pose proof (classify_le_2 (y (center r)) (top T) (bottom T)).
  rewrite !orb_true_iff, !andb_true_iff, !orb_true_iff, !andb_true_iff,
    !Nat.eqb_eq.
  intros [->|[_ [[-> _]|[-> _]]]]; lia.
Qed.

Lemma filter_none {A} (f : A -> bool) (l : list A) :
  (forall a, f a = false) -> filter f l = [].
Proof.
  intros H. induction l as [|a l IH]; cbn; [reflexivity|]. now rewrite H.
Qed.

Lemma bucket_partition (T : Rect) (t : Q) (rects : list Rect) (k : nat) :
  bucket (partition rects T t) k = filter (fun r => placed T t r k) rects.
Proof.
  rewrite partition_placed. unfold bucket, cells. cbn [seq map].
  do 9 (destruct k as [|k]; [reflexivity|]).
  cbn [nth]. destruct k; symmetry; apply filter_none; intros c;
    apply not_true_is_false; intros Hp; apply placed_lt_9 in Hp; lia.
Qed.

Lemma isCorner_cases (T r : Rect) :
  isCorner (homeBucket T r) = true ->
  (row T r = 0%nat \/ row T r = 2%nat) /\ (column T r = 0%nat \/ column T r = 2%nat).
Proof.
  unfold homeBucket, row, column.
  destruct (classify_cases (x (center r)) (left T) (right T))
    as [[-> _]|[[-> _]|[-> _]]];
  destruct (classify_cases (y (center r)) (top T) (bottom T))
    as [[-> _]|[[-> _]|[-> _]]];
  cbn; intros; try discriminate; auto.
Qed.

(** Where the threshold arithmetic is exact, the tests of the loop are
    the overlap rule. *)
Lemma reaches_overlap (T : Rect) (t : Q) (r : Rect) :
  exactEdges T t ->
  reachesX T t r = Qle_bool (width T * t) (overlapX T r)
  /\ reachesY T t r = Qle_bool (height T * t) (overlapY T r).
Proof.
  intros (E1 & E2 & E3 & E4). unfold reachesX, reachesY, overlapX, overlapY.
  split.
  - destruct (column T r =? 2)%nat; apply Qle_bool_ext;
      rewrite ?E1, ?E2; split; intros; lra.
  - destruct (row T r =? 2)%nat; apply Qle_bool_ext;
      rewrite ?E3, ?E4; split; intros; lra.
Qed.

(** *** Rounding is exact on binary64 values *)

Lemma pow2_pos (e : Z) : 0 < pow2 e.
Proof. apply Qpower_0_lt. reflexivity. Qed.

Lemma pow2_nonneg_Z (n : Z) : (0 <= n)%Z -> pow2 n == inject_Z (2 ^ n).
Proof. intros H. unfold pow2. now rewrite (Zpower_Qpower 2 n H). Qed.

Lemma pow2_plus (a b : Z) : pow2 (a + b) == pow2 a * pow2 b.
Proof. unfold pow2. apply Qpower_plus. discriminate. Qed.

Lemma roundEven_inject (q : Q) (z : Z) : q == inject_Z z -> roundEven q = z.
Proof.
  intros H. unfold roundEven.
  assert (Hf : Qfloor q = z) by (rewrite H; apply Qfloor_Z).
  rewrite Hf.
  assert (Hc : Qcompare (q - inject_Z z) (1 # 2) = Lt).
  { rewrite <- Qlt_alt. rewrite H. unfold Qminus. rewrite Qplus_opp_r.
    reflexivity. }
  now rewrite Hc.
Qed.

Lemma ilog2_le (q : Q) : ~ q == 0 -> pow2 (ilog2 q) <= Qabs q.
Proof.
  intros Hq. destruct q as [n d]. unfold ilog2. cbn [Qnum Qden Qabs].
  assert (Hn : (0 < Z.abs n)%Z).
  { destruct (Z.eq_dec n 0) as [->|]; [exfalso; apply Hq; reflexivity | lia]. }
  destruct (Qle_bool _ _) eqn:E; [now apply Qle_bool_iff in E|].
  clear E.
  pose proof (Z.log2_spec (Z.abs n) Hn) as [Ha _].
  pose proof (Z.log2_spec (Z.pos d) eq_refl) as [_ Hb].
  pose proof (Z.log2_nonneg (Z.abs n)) as Ha0.
  pose proof (Z.log2_nonneg (Z.pos d)) as Hb0.
  set (a := Z.log2 (Z.abs n)) in *. set (b := Z.log2 (Z.pos d)) in *.
  replace (a - b - 1)%Z with (a - Z.succ b)%Z by lia.
  unfold pow2. rewrite Qpower_minus by discriminate.
  fold (pow2 a) (pow2 (Z.succ b)).
  rewrite (pow2_nonneg_Z a), (pow2_nonneg_Z (Z.succ b)) by lia.
  apply Qle_shift_div_r.
  - change 0 with (inject_Z 0). rewrite <- Zlt_Qlt. lia.
  - unfold Qle, Qmult, inject_Z. cbn [Qnum Qden].
    rewrite !Z.mul_1_r. nia.
Qed.

(** A number with a significand of at most 53 bits and an exponent in
    range is a binary64 value: rounding returns it. *)
Lemma round64_dyadic (v : Q) (m e : Z) :
  (Z.abs m < 2 ^ 53)%Z -> (-1074 <= e)%Z ->
  v == inject_Z m * pow2 e ->
  round64 v == v.
Proof.
  intros Hm He Hv. unfold round64.
  destruct (Qeq_bool v 0) eqn:E0; [apply Qeq_bool_iff in E0; now rewrite E0|].
  apply Qeq_bool_neq in E0. cbv zeta.
  set (E := Z.max (ilog2 v - 52) (-1074)).
  assert (HE : (E <= e)%Z).
  { assert (Hlt : pow2 (ilog2 v) < pow2 (53 + e)).
    { eapply Qle_lt_trans; [apply (ilog2_le v E0)|].
      rewrite Hv, Qabs_Qmult, (Qabs_pos (pow2 e)) by (apply Qlt_le_weak, pow2_pos).
      rewrite pow2_plus.
      apply Qmult_lt_compat_r; [apply pow2_pos|].
      rewrite (pow2_nonneg_Z 53) by lia.
      change (Qabs (inject_Z m)) with (inject_Z (Z.abs m)).
      rewrite <- Zlt_Qlt. exact Hm. }
    apply Qpower_lt_compat_l_inv in Hlt; [|reflexivity].
    subst E. lia. }
  assert (Hz : v / pow2 E == inject_Z (m * 2 ^ (e - E))).
  { rewrite Hv. replace e with ((e - E) + E)%Z at 1 by lia.
    rewrite pow2_plus, inject_Z_mult, <- (pow2_nonneg_Z (e - E)) by lia.
    field. intros H0. pose proof (pow2_pos E) as H. rewrite H0 in H.
    discriminate. }
  rewrite (roundEven_inject _ _ Hz).
  rewrite inject_Z_mult, <- (pow2_nonneg_Z (e - E)) by lia.
  rewrite <- Qmult_assoc, <- pow2_plus.
  replace (e - E + E)%Z with e by lia. now rewrite Hv.
Qed.

(** With the default threshold 0.5 and a target on whole pixels the
    threshold arithmetic is exact. *)
Lemma exactEdges_half (T : Rect) : wholePixels T -> exactEdges T (1 # 2).
Proof.
  intros (l & tp & w & h & Hl & Ht & Hw & Hh & Hr & Hb & Bl & Bt & Bw & Bh).
  assert (Hmw : mul64 (width T) (1 # 2) == width T * (1 # 2)).
  { apply (round64_dyadic _ w (-1)); [lia | lia |].
    rewrite Hw. reflexivity. }
  assert (Hmh : mul64 (height T) (1 # 2) == height T * (1 # 2)).
  { apply (round64_dyadic _ h (-1)); [lia | lia |].
    rewrite Hh. reflexivity. }
  assert (Hhalf : pow2 (-1) == 1 # 2) by reflexivity.
  unfold exactEdges, sub64, add64. repeat split.
  - transitivity (right T - mul64 (width T) (1 # 2)); [|now rewrite Hmw].
    apply (round64_dyadic _ (2 * l + w) (-1)); [lia | lia |].
    rewrite Hmw, Hr, Hw, Hhalf, !inject_Z_plus, inject_Z_mult. field.
  - transitivity (left T + mul64 (width T) (1 # 2)); [|now rewrite Hmw].
    apply (round64_dyadic _ (2 * l + w) (-1)); [lia | lia |].
    rewrite Hmw, Hl, Hw, Hhalf, !inject_Z_plus, inject_Z_mult. field.
  - transitivity (bottom T - mul64 (height T) (1 # 2)); [|now rewrite Hmh].
    apply (round64_dyadic _ (2 * tp + h) (-1)); [lia | lia |].
    rewrite Hmh, Hb, Hh, Hhalf, !inject_Z_plus, inject_Z_mult. field.
  - transitivity (top T + mul64 (height T) (1 # 2)); [|now rewrite Hmh].
    apply (round64_dyadic _ (2 * tp + h) (-1)); [lia | lia |].
    rewrite Hmh, Ht, Hh, Hhalf, !inject_Z_plus, inject_Z_mult. field.
Qed.

(** C4 as stated fails: for the unit target and the threshold 0.1 (the
    binary64 value written [0.1]) the loop computes the edge
    [1 - 1 * 0.1] as the binary64 value written [0.9], which lies above
    the exact difference.  A candidate in the top right corner that
    begins there overlaps the target by less than the threshold fraction
    of its width, and is copied into the top centre bucket all the
    same. *)
Lemma partition_threshold_is_rounded :
  let T := mkRect 0 0 1 1 1 1 0%nat (mkPoint 0 0) in
  let t := 3602879701896397 # 36028797018963968 in
  let r := mkRect (8106479329266893 # 9007199254740992) (-2)
             (8782019273372467 # 2251799813685248) (-1) 3 1 1%nat
             (mkPoint (4278419646001971 # 2251799813685248) (-2)) in
  round64 (1 # 10) == t
  /\ round64 (9 # 10) == left r
  /\ homeBucket T r = Grid.TOP_RIGHT
  /\ overlapX T r < width T * t
  /\ placedByOverlap T t r Grid.TOP_CENTER = false
  /\ bucket (partition [r] T t) Grid.TOP_CENTER = [r].
Proof.
  cbv zeta. split; [|split; [|split; [|split; [|split]]]].
  - vm_compute. reflexivity.
  - vm_compute. reflexivity.
  - vm_compute. reflexivity.
  - vm_compute. reflexivity.
  - vm_compute. reflexivity.
  - vm_compute. reflexivity.
Qed.

(** C4 (amended). [partition] returns nine buckets; bucket [k] holds, in
    input order, exactly the candidates placed in [k].  Every candidate
    is placed in its home bucket, which is read off its centre alone
    (boundary ties count as "within"); every other placement is a corner
    candidate copied into an adjacent edge bucket because it reaches the
    edge the loop computes; no candidates give nine empty buckets.
    Where the threshold arithmetic is exact -- as it is for the default
    threshold 0.5 and a target on whole pixels -- the placements are
    those of the overlap rule: an overlap equal to the threshold
    fraction is copied, a smaller one is not.  (The code tests "before the span"
    first; for a target with [left T <= right T] the first premise of
    the "after the span" cases follows from the second.) *)
Theorem partition_home_bucket_and_corner_duplicates :
  forall (T : Rect) (t : Q) (rects : list Rect),
    List.length (partition rects T t) = 9%nat
    /\ (forall k, bucket (partition rects T t) k
                  = filter (fun r => placed T t r k) rects)
    /\ (forall r,
          placed T t r (homeBucket T r) = true
          /\ homeBucket T r = (row T r * 3 + column T r)%nat
          /\ (x (center r) < left T -> column T r = 0%nat)
          /\ (left T <= x (center r) <= right T -> column T r = 1%nat)
          /\ (left T <= x (center r) -> right T < x (center r) ->
              column T r = 2%nat)
          /\ (y (center r) < top T -> row T r = 0%nat)
          /\ (top T <= y (center r) <= bottom T -> row T r = 1%nat)
          /\ (top T <= y (center r) -> bottom T < y (center r) ->
              row T r = 2%nat))
    /\ (forall r k,
          placed T t r k = true -> k <> homeBucket T r ->
          isCorner (homeBucket T r) = true
          /\ ((k = edgeAboveBelow T r /\ reachesX T t r = true)
              \/ (k = edgeBeside T r /\ reachesY T t r = true)))
    /\ (exactEdges T t ->
        (forall r k, placed T t r k = placedByOverlap T t r k)
        /\ (forall r,
              isCorner (homeBucket T r) = true ->
              (overlapX T r == width T * t ->
               placed T t r (edgeAboveBelow T r) = true)
              /\ (overlapX T r < width T * t ->
                  placed T t r (edgeAboveBelow T r) = false)
              /\ (overlapY T r == height T * t ->
                  placed T t r (edgeBeside T r) = true)
              /\ (overlapY T r < height T * t ->
                  placed T t r (edgeBeside T r) = false)))
    /\ (wholePixels T -> exactEdges T (1 # 2))
    /\ partition [] T t = [[]; []; []; []; []; []; []; []; []].
Proof.
  intros T t rects. split; [|split; [|split; [|split; [|split; [|split]]]]].
  - rewrite partition_placed. reflexivity.
  - apply bucket_partition.
  - intros r. split; [|split].
    + unfold placed. now rewrite Nat.eqb_refl.
    + reflexivity.
    + unfold column, row.
      destruct (classify_cases (x (center r)) (left T) (right T))
        as [[-> Hx]|[[-> Hx]|[-> Hx]]];
      destruct (classify_cases (y (center r)) (top T) (bottom T))
        as [[-> Hy]|[[-> Hy]|[-> Hy]]];
      repeat split; intros; try reflexivity; exfalso; lra.
  - intros r k Hp Hk. unfold placed in Hp.
    apply orb_true_iff in Hp. destruct Hp as [Hp|Hp].
    + apply Nat.eqb_eq in Hp. contradiction.
    + unfold duplicated in Hp. apply andb_true_iff in Hp.
      destruct Hp as [Hc Hp]. split; [exact Hc|].
      apply orb_true_iff in Hp.
      destruct Hp as [Hp|Hp]; apply andb_true_iff in Hp; destruct Hp as [H1 H2];
        apply Nat.eqb_eq in H1; auto.
  - intros Hex.
    assert (Hsame : forall r k, placed T t r k = placedByOverlap T t r k).
    { intros r k. unfold placed, placedByOverlap, duplicated.
      destruct (reaches_overlap T t r Hex) as [-> ->]. reflexivity. }
    split; [exact Hsame|].
    intros r Hc. pose proof (isCorner_cases T r Hc) as [Hr Hcol].
    rewrite !Hsame. unfold placedByOverlap. rewrite Hc. cbn [andb].
    unfold edgeAboveBelow, edgeBeside, homeBucket.
    repeat split.
    + intros He. rewrite Nat.eqb_refl. cbn [andb].
      replace (Qle_bool (width T * t) (overlapX T r)) with true.
      * now rewrite orb_true_r.
      * symmetry. apply Qle_bool_iff. rewrite He. apply Qle_refl.
    + intros Hlt.
      replace (Qle_bool (width T * t) (overlapX T r)) with false
        by (symmetry; now apply Qle_bool_false_iff).
      rewrite andb_false_r.
      destruct Hr as [-> | ->], Hcol as [-> | ->]; reflexivity.
    + intros He. rewrite Nat.eqb_refl. cbn [andb].
      replace (Qle_bool (height T * t) (overlapY T r)) with true.
      * now rewrite !orb_true_r.
      * symmetry. apply Qle_bool_iff. rewrite He. apply Qle_refl.
    + intros Hlt.
      replace (Qle_bool (height T * t) (overlapY T r)) with false
        by (symmetry; now apply Qle_bool_false_iff).
      rewrite andb_false_r.
      destruct Hr as [-> | ->], Hcol as [-> | ->]; reflexivity.
  - apply exactEdges_half.
  - reflexivity.
Qed.

(** ** Sorting and tier selection *)

Lemma comparator_antisym (ds : list (Rect -> Q)) (a b : Rect) :
  comparator ds a b == - comparator ds b a.
Proof.
  induction ds as [|d ds IH]; cbn [comparator].
  - reflexivity.
  - destruct (Qeq_bool (d a - d b) 0) eqn:E1;
      destruct (Qeq_bool (d b - d a) 0) eqn:E2.
    + exact IH.
    + apply Qeq_bool_iff in E1. apply Qeq_bool_neq in E2. exfalso. apply E2. lra.
    + apply Qeq_bool_iff in E2. apply Qeq_bool_neq in E1. exfalso. apply E1. lra.
    + lra.
Qed.

Lemma comparator_trans (ds : list (Rect -> Q)) (a b c : Rect) :
  0 <= comparator ds a b -> 0 <= comparator ds b c -> 0 <= comparator ds a c.
Proof.
  induction ds as [|d ds IH]; cbn [comparator].
  - intros; apply Qle_refl.
  - destruct (Qeq_bool (d a - d b) 0) eqn:E1;
      destruct (Qeq_bool (d b - d c) 0) eqn:E2;
      destruct (Qeq_bool (d a - d c) 0) eqn:E3;
      intros H1 H2;
      repeat match goal with
             | E : Qeq_bool _ _ = true |- _ => apply Qeq_bool_iff in E
             | E : Qeq_bool _ _ = false |- _ => apply Qeq_bool_neq in E
             end;
      try (apply IH; assumption); try lra;
      exfalso;
      match goal with
      | E : ~ _ |- _ => apply E; lra
      end.
Qed.



Lemma insert_In (cmp : Rect -> Rect -> Q) (a r : Rect) (l : list Rect) :
  In r (insert cmp a l) <-> r = a \/ In r l.
Proof.
  induction l as [|b l IH]; cbn.
  - intuition.
  - destruct (Qlt_bool (cmp b a) 0); cbn; rewrite ?IH; intuition.
Qed.

Lemma sort_In (cmp : Rect -> Rect -> Q) (r : Rect) (l : list Rect) :
  In r (sort cmp l) <-> In r l.
Proof.
  induction l as [|a l IH]; cbn; [tauto|].
  rewrite insert_In, IH. intuition.
Qed.

Lemma Direction_eqb_eq (a b : Direction) : Direction_eqb a b = true <-> a = b.
Proof. destruct a, b; cbn; split; intros; congruence. Qed.

Lemma find_element (e : Elem) (l : list Rect) :
  (exists r, In r l /\ element r = e) ->
  option_map element (find (fun r => (element r =? e)%nat) l) = Some e.
Proof.
  intros (r & Hin & He). induction l as [|a l IH]; [contradiction|].
  cbn [find]. destruct (element a =? e)%nat eqn:Ea.
  - apply Nat.eqb_eq in Ea. cbn. now rewrite Ea.
  - destruct Hin as [->|Hin]; [|auto].
    apply Nat.eqb_neq in Ea. contradiction.
Qed.

Lemma find_element_some (e x : Elem) (l : list Rect) :
  option_map element (find (fun r => (element r =? e)%nat) l) = Some x ->
  x = e /\ exists r, In r l /\ element r = e.
Proof.
  destruct (find _ l) as [r|] eqn:Ef; cbn; [|discriminate].
  intros [= <-]. apply find_some in Ef. destruct Ef as [Hin He].
  apply Nat.eqb_eq in He. split; [assumption|]. exists r. auto.
Qed.



Lemma tiers_nil (T : Rect) (dir : Direction) (config : Config) :
  destPriority (tiers T dir [] config) = None.
Proof.
  unfold tiers. destruct (truthy (straightOnly config)), dir; reflexivity.
Qed.

Lemma destPriority_nonempty (ps : list Priority) (p : Priority) :
  destPriority ps = Some p -> group p <> [].
Proof.
  induction ps as [|q ps IH]; cbn; [discriminate|].
  destruct (group q) eqn:Eg; [exact IH|].
  intros [= <-]. congruence.
Qed.

Lemma destPriority_first (ps : list Priority) (p : Priority) :
  destPriority ps = Some p ->
  exists before after,
    ps = before ++ p :: after
    /\ (forall q, In q before -> group q = [])
    /\ group p <> [].
Proof.
  induction ps as [|q ps IH]; cbn [destPriority]; [discriminate|].
  destruct (group q) eqn:Eg.
  - intros H. destruct (IH H) as (before & after & -> & Hb & Hp).
    exists (q :: before), after. repeat split; auto.
    intros q' [<-|Hq]; auto.
  - intros [= <-]. exists [], ps. repeat split; [intros q' [] | congruence].
Qed.



Lemma navigate_via_tiers (w : World) (cur : Elem) (dir : Direction)
    (L : list Elem) (config : Config) :
  navigate w (Some cur) dir L config
  = match getRect (getBoundingClientRect w) cur with
    | None => None
    | Some T =>
        match prioritize (tiers T dir (measure w L) config) with
        | None => None
        | Some destGroup =>
            match remembered cur dir config destGroup with
            | Some dest => Some dest
            | None => option_map element (hd_error destGroup)
            end
        end
    end.
Proof.
  unfold navigate.
  destruct (getRect (getBoundingClientRect w) cur) as [T|];
    [|destruct L; reflexivity].
  destruct L as [|c cs].
  - cbn [measure flat_map]. unfold prioritize. now rewrite tiers_nil.
  - destruct (measure w (c :: cs)) eqn:Em; [|reflexivity].
    unfold prioritize. now rewrite tiers_nil.
Qed.

(** Two rectangles that one metric tells apart are ordered by the first
    metric that does. *)
Lemma comparator_first_difference (ds : list (Rect -> Q)) (a b : Rect) :
  comparator ds a b < 0 <-> precedes ds a b.
Proof.
  unfold precedes. induction ds as [|d ds IH]; cbn [comparator].
  - split; [intros H; exfalso; lra|].
    intros (before & d & after & E & _). destruct before; discriminate.
  - destruct (Qeq_bool (d a - d b) 0) eqn:E.
    + apply Qeq_bool_iff in E. rewrite IH. split.
      * intros (before & d0 & after & -> & Hb & Hd).
        exists (d :: before), d0, after. repeat split; auto.
        intros d' [<-|H]; [lra|auto].
      * intros (before & d0 & after & Heq & Hb & Hd).
        destruct before as [|d1 before]; cbn in Heq; injection Heq as -> ->.
        -- exfalso. lra.
        -- exists before, d0, after. repeat split; auto.
           intros d' H. apply Hb. now right.
    + apply Qeq_bool_neq in E. split.
      * intros H. exists [], d, ds. repeat split; [intros d' []|lra].
      * intros (before & d0 & after & Heq & Hb & Hd).
        destruct before as [|d1 before]; cbn in Heq; injection Heq as -> ->.
        -- lra.
        -- exfalso. apply E. specialize (Hb d1 (or_introl eq_refl)). lra.
Qed.


(** ** Straight-only navigation *)

Lemma filter_none_in {A} (f : A -> bool) (l : list A) :
  (forall a, In a l -> f a = false) -> filter f l = [].
Proof.
  induction l as [|a l IH]; cbn; intros H; [reflexivity|].
  rewrite (H a) by auto. apply IH. auto.
Qed.

(** A candidate placed in the centre bucket has it as its home, and is
    placed nowhere else. *)
Lemma placed_centre (T : Rect) (t : Q) (r : Rect) (k : nat) :
  placed T t r 4 = true -> placed T t r k = true -> k = 4%nat.
Proof.
  unfold placed, duplicated, homeBucket, edgeAboveBelow, edgeBeside, row, column.
  destruct (classify_cases (x (center r)) (left T) (right T))
    as [[-> _]|[[-> _]|[-> _]]];
  destruct (classify_cases (y (center r)) (top T) (bottom T))
    as [[-> _]|[[-> _]|[-> _]]];
  cbn -[Qle_bool Nat.eqb];
  rewrite ?andb_false_r, ?orb_false_r; cbn; try discriminate.
  intros _ H. now apply Nat.eqb_eq in H.
Qed.

(** The second pass partitions the centre bucket against the same
    target: all its members land in the centre bucket again, so the
    eight outer buckets of the second pass are empty. *)
Lemma internalGroups_outer_empty (T : Rect) (t : Q) (rects : list Rect) (k : nat) :
  k <> 4%nat ->
  bucket (partition (bucket (partition rects T t) 4) T t) k = [].
Proof.
  intros Hk. rewrite !bucket_partition.
  apply filter_none_in. intros r Hr.
  apply filter_In in Hr. destruct Hr as [_ H4].
  destruct (placed T t r k) eqn:E; [|reflexivity].
  exfalso. apply Hk. eapply placed_centre; eauto.
Qed.

Lemma priorities_of_strategy (dir : Direction)
    (groups internalGroups : list (list Rect)) (df : DistanceFunctions) :
  priorities_of dir groups internalGroups df
  = buildPriorities (navigationStrategies dir) groups internalGroups df.
Proof. destruct dir; reflexivity. Qed.

(** C7. With [straightOnly] set, whatever the direction, the tiers
    handed to [prioritize] are the first two of the strategy's three
    (the diagonal tier is gone); so [navigate] returns none whenever no
    measurable candidate is placed in the bucket lying straight in that
    direction -- in particular whenever every candidate is placed in
    corner buckets only. *)
Theorem straightOnly_drops_diagonal_tier :
  forall (w : World) (tgt : Elem) (dir : Direction) (candidates : list Elem)
         (config : Config),
    straightOnly config = Some true ->
    (forall T rects,
        let groups := partition rects T (thresholdOf config) in
        let internalGroups :=
          partition (bucket groups 4) T (thresholdOf config) in
        List.length (buildPriorities (navigationStrategies dir) groups
                       internalGroups (distanceBuilder T)) = 3%nat
        /\ tiers T dir rects config
           = firstn 2 (buildPriorities (navigationStrategies dir) groups
                         internalGroups (distanceBuilder T)))
    /\ (forall T,
          getRect (getBoundingClientRect w) tgt = Some T ->
          (forall r, In r (measure w candidates) ->
                     placed T (thresholdOf config) r (straightBucket dir) = false) ->
          navigate w (Some tgt) dir candidates config = None)
    /\ (forall T,
          getRect (getBoundingClientRect w) tgt = Some T ->
          (forall r k, In r (measure w candidates) ->
                       placed T (thresholdOf config) r k = true ->
                       isCorner k = true) ->
          navigate w (Some tgt) dir candidates config = None).
Proof.
  intros w tgt dir candidates config Hs.
  assert (Hcut : forall T rects,
             tiers T dir rects config
             = firstn 2 (priorities_of dir
                           (partition rects T (thresholdOf config))
                           (partition
                              (bucket (partition rects T (thresholdOf config)) 4)
                              T (thresholdOf config))
                           (distanceBuilder T))).
  { intros T rects. unfold tiers. rewrite Hs. cbn [truthy].
    destruct dir; reflexivity. }
  assert (Hnone : forall T,
             getRect (getBoundingClientRect w) tgt = Some T ->
             (forall r, In r (measure w candidates) ->
                        placed T (thresholdOf config) r (straightBucket dir) = false) ->
             navigate w (Some tgt) dir candidates config = None).
  { intros T HT Hd. unfold navigate. rewrite HT.
    destruct candidates as [|c cs]; [reflexivity|].
    destruct (measure w (c :: cs)) as [|r rs] eqn:Em; [reflexivity|].
    unfold prioritize. rewrite Hcut.
    assert (Hedge : bucket (partition (r :: rs) T (thresholdOf config))
                      (straightBucket dir) = []).
    { rewrite bucket_partition. now apply filter_none_in. }
    destruct dir; cbn [priorities_of firstn destPriority group];
      rewrite !internalGroups_outer_empty by discriminate;
      cbn [app];
      unfold straightBucket, Grid.MIDDLE_LEFT, Grid.MIDDLE_RIGHT,
        Grid.TOP_CENTER, Grid.BOTTOM_CENTER in Hedge;
      rewrite Hedge; reflexivity. }
  split; [|split].
  - intros T rects groups internalGroups. split.
    + destruct dir; reflexivity.
    + unfold groups, internalGroups. rewrite <- priorities_of_strategy.
      apply Hcut.
  - exact Hnone.
  - intros T HT Hc. apply (Hnone T); [assumption|].
    intros r Hr.
    destruct (placed T (thresholdOf config) r (straightBucket dir)) eqn:E;
      [|reflexivity].
    apply (Hc r _ Hr) in E. destruct dir; discriminate.
Qed.

(** ** The section registry *)

Section DictionaryFacts.
Context {V : Type}.
Implicit Types (obj : list (string * V)) (key : string) (v : V).

Lemma length_replace key v obj :
  List.length (replace key v obj) = List.length obj.
Proof.
  induction obj as [|[k v'] obj IH]; cbn; [reflexivity|].
  destruct (String.eqb k key); cbn; congruence.
Qed.

Lemma keys_replace key v obj : keys (replace key v obj) = keys obj.
Proof.
  unfold keys. induction obj as [|[k v'] obj IH]; cbn; [reflexivity|].
  destruct (String.eqb k key); cbn; congruence.
Qed.

Lemma length_insertIndex n key v obj :
  List.length (insertIndex n key v obj) = S (List.length obj).
Proof.
  induction obj as [|[k v'] obj IH]; cbn; [reflexivity|].
  destruct (arrayIndex k) as [m|]; [destruct (m <? n)%N|]; cbn; congruence.
Qed.

Lemma length_assign key v obj :
  List.length (assign key v obj)
  = match lookup key obj with
    | Some _ => List.length obj
    | None => S (List.length obj)
    end.
Proof.
  unfold assign. destruct (lookup key obj).
  - apply length_replace.
  - destruct (arrayIndex key).
    + apply length_insertIndex.
    + rewrite length_app. cbn. lia.
Qed.

Lemma length_delete key obj :
  lookup key obj <> None ->
  S (List.length (delete key obj)) = List.length obj.
Proof.
  induction obj as [|[k v'] obj IH]; cbn; [congruence|].
  destruct (String.eqb k key); cbn; [reflexivity|].
  intros H. now rewrite IH.
Qed.

Lemma lookup_replace key v obj :
  lookup key obj <> None -> lookup key (replace key v obj) = Some v.
Proof.
  induction obj as [|[k v'] obj IH]; cbn; [congruence|].
  destruct (String.eqb k key) eqn:E; cbn; rewrite E; auto.
Qed.

Lemma lookup_insertIndex n key v obj :
  lookup key obj = None -> lookup key (insertIndex n key v obj) = Some v.
Proof.
  induction obj as [|[k v'] obj IH]; cbn.
  - now rewrite String.eqb_refl.
  - destruct (String.eqb k key) eqn:E; [discriminate|]. intros H.
    destruct (arrayIndex k) as [m|]; [destruct (m <? n)%N|]; cbn;
      rewrite ?E, ?String.eqb_refl; auto.
Qed.

Lemma lookup_app_new key v obj :
  lookup key obj = None -> lookup key (obj ++ [(key, v)]) = Some v.
Proof.
  induction obj as [|[k v'] obj IH]; cbn.
  - now rewrite String.eqb_refl.
  - destruct (String.eqb k key); [discriminate|]. auto.
Qed.

Lemma lookup_assign key v obj : lookup key (assign key v obj) = Some v.
Proof.
  unfold assign. destruct (lookup key obj) eqn:E.
  - apply lookup_replace. congruence.
  - destruct (arrayIndex key).
    + now apply lookup_insertIndex.
    + now apply lookup_app_new.
Qed.

End DictionaryFacts.

Lemma length_updateSection (sid : string) (f : Config -> Config)
    (secs : list (string * Config)) :
  List.length (updateSection sid f secs) = List.length secs.
Proof.
  unfold updateSection. destruct (lookup sid secs); [|reflexivity].
  apply length_replace.
Qed.

Lemma keys_updateSection (sid : string) (f : Config -> Config)
    (secs : list (string * Config)) :
  keys (updateSection sid f secs) = keys secs.
Proof.
  unfold updateSection. destruct (lookup sid secs); [|reflexivity].
  apply keys_replace.
Qed.

Lemma generateId_sections (s : State) :
  _sections (engine (snd (generateId s))) = _sections (engine s)
  /\ _sectionCount (engine (snd (generateId s))) = _sectionCount (engine s).
Proof.
  unfold generateId.
  destruct (generateId_loop _ _ _ _). cbn. auto.
Qed.

(** ** Generated ids *)

Lemma append_cancel (p a b : string) : (p ++ a)%string = (p ++ b)%string -> a = b.
Proof.
  induction p as [|c p IH]; cbn; [auto|]. intros [= H]. auto.
Qed.

Lemma numbered_inj (prefix : string) (a b : nat) :
  (prefix ++ NilEmpty.string_of_uint (Nat.to_uint a))%string
  = (prefix ++ NilEmpty.string_of_uint (Nat.to_uint b))%string ->
  a = b.
Proof.
  intros H. apply append_cancel in H.
  assert (Hu : Some (Nat.to_uint a) = Some (Nat.to_uint b)).
  { rewrite <- !NilEmpty.usu. now rewrite H. }
  injection Hu as Hu.
  rewrite <- (DecimalNat.Unsigned.of_to a), <- (DecimalNat.Unsigned.of_to b).
  now rewrite Hu.
Qed.

Lemma lookup_In_keys {V} (key : string) (obj : list (string * V)) :
  lookup key obj <> None <-> In key (keys obj).
Proof.
  unfold keys. induction obj as [|[k v] obj IH]; cbn.
  - split; [congruence | tauto].
  - destruct (String.eqb k key) eqn:E.
    + apply String.eqb_eq in E. split; [auto | congruence].
    + apply String.eqb_neq in E. rewrite IH. split; [auto | intros [|]; tauto].
Qed.

(** The loop of [generateId] ends on an id that is not taken: the ids
    it has tried are pairwise different registered ids, and there are no
    more of those than sections. *)
Lemma generateId_loop_fresh (prefix : string) (secs : list (string * Config))
    (fuel pool : nat) (tried : list string) :
  NoDup tried ->
  incl tried (keys secs) ->
  (forall t, In t tried ->
     exists k, (k <= pool)%nat
               /\ t = (prefix ++ NilEmpty.string_of_uint (Nat.to_uint k))%string) ->
  (List.length secs <= List.length tried + fuel)%nat ->
  lookup (fst (generateId_loop fuel prefix secs pool)) secs = None.
Proof.
  revert pool tried. induction fuel as [|fuel IH]; intros pool tried Hnd Hincl Hnum Hlen.
  - cbn [generateId_loop fst].
    destruct (lookup (prefix ++ NilEmpty.string_of_uint (Nat.to_uint (S pool)))
                secs) eqn:El; [|reflexivity]. exfalso.
    assert (Hin : In (prefix ++ NilEmpty.string_of_uint (Nat.to_uint (S pool)))%string
                     (keys secs))
      by (apply lookup_In_keys; congruence).
    apply (NoDup_length_incl Hnd) in Hin.
    + destruct (Hnum _ Hin) as (k & Hk & He). apply numbered_inj in He. lia.
    + unfold keys. rewrite length_map. lia.
    + exact Hincl.
  - cbn [generateId_loop].
    destruct (lookup (prefix ++ NilEmpty.string_of_uint (Nat.to_uint (S pool)))
                secs) eqn:El; [|exact El].
    apply (IH (S pool)
              ((prefix ++ NilEmpty.string_of_uint (Nat.to_uint (S pool)))%string
               :: tried)).
    + constructor; [|assumption]. intros Hin.
      destruct (Hnum _ Hin) as (k & Hk & He). apply numbered_inj in He. lia.
    + intros t [<-|Ht]; [|auto]. apply lookup_In_keys. congruence.
    + intros t [<-|Ht].
      * exists (S pool). auto.
      * destruct (Hnum t Ht) as (k & Hk & He). exists k. split; [lia|assumption].
    + cbn [List.length]. lia.
Qed.

(** [generateId] returns an id under which no section is registered. *)
Lemma generateId_fresh (s : State) :
  lookup (fst (generateId s)) (_sections (engine s)) = None.
Proof.
  unfold generateId.
  pose proof (generateId_loop_fresh (ID_POOL_PREFIX (engine s))
                (_sections (engine s)) (List.length (_sections (engine s)))
                (_idPool (engine s)) []) as H.
  destruct (generateId_loop _ _ _ _) as [newId pool]. cbn [fst] in *.
  apply H.
  - constructor.
  - intros t [].
  - intros t [].
  - cbn. lia.
Qed.

Import SpatialNavigation.

(** [set] keeps the invariant unless it is given the id of a section
    that does not exist together with no property that [globalConfig]
    knows. *)
Lemma set_countInvariant (config : ConfigArg) (s : State) :
  (match nonEmpty (propValue (a_id config)) with
   | Some sid => lookup sid (_sections (engine s)) <> None
                 \/ hasGlobalKey config = true
   | None => True
   end) ->
  countInvariant (engine s) ->
  countInvariant (engine (snd (set config s))).
Proof.
  unfold set, countInvariant.
  destruct (nonEmpty (propValue (a_id config))) as [sid|].
  - destruct (lookup sid (_sections (engine s))) eqn:El.
    + intros _ H. cbn. rewrite length_assign, El. exact H.
    + intros [Hc|Hg]; [congruence|]. rewrite Hg. auto.
  - intros _ H. exact H.
Qed.

Lemma add_countInvariant (config : ConfigArg) (s : State) :
  countInvariant (engine s) ->
  countInvariant (engine (snd (add config s))).
Proof.
  unfold add. intros H.
  assert (Hgen : forall sid s1,
             countInvariant (engine s1) ->
             countInvariant
               (engine
                  (snd
                     (match lookup sid (_sections (engine s1)) with
                      | Some _ => (inl (AlreadyExisted sid), s1)
                      | None =>
                          match
                            set (withId sid config)
                              (onEngine
                                 (fun e =>
                                    with_sectionCount (_sectionCount e + 1)%Z
                                      (with_sections
                                         (assign sid emptyConfig (_sections e)) e))
                                 s1)
                          with
                          | (inl exn, s3) => (inl exn, s3)
                          | (inr _, s3) => (inr sid, s3)
                          end
                      end)))).
  { intros sid s1 H1. destruct (lookup sid (_sections (engine s1))) eqn:El.
    - exact H1.
    - unfold set. cbn [withId a_id propValue nonEmpty].
      destruct (String.eqb sid "") eqn:Es.
      + unfold countInvariant in *. cbn. rewrite length_assign, El.
        rewrite H1. lia.
      + cbn [onEngine engine with_sectionCount with_sections _sections].
        rewrite lookup_assign. unfold countInvariant in *. cbn.
        rewrite !length_assign, lookup_assign, El. rewrite H1. lia. }
  destruct (nonEmpty (propValue (a_id config))) as [sid|].
  - apply Hgen. exact H.
  - destruct (generateId s) as [sid s1] eqn:Eg.
    apply Hgen. pose proof (generateId_sections s) as [Hs Hc].
    rewrite Eg in Hs, Hc. cbn in Hs, Hc.
    unfold countInvariant in *. now rewrite Hs, Hc.
Qed.

Lemma remove_countInvariant (sid : option string) (s : State) :
  countInvariant (engine s) ->
  countInvariant (engine (snd (remove sid s))).
Proof.
  unfold remove, countInvariant. intros H.
  destruct (nonEmpty sid) as [i|]; [|exact H].
  destruct (lookup i (_sections (engine s))) eqn:El; [|exact H].
  cbn. assert (Hd := length_delete i (_sections (engine s))).
  rewrite El in Hd. specialize (Hd ltac:(discriminate)).
  destruct (String.eqb (_lastSectionId (engine s)) i); cbn; lia.
Qed.

Lemma clear_countInvariant (s : State) :
  countInvariant (engine (snd (clear s))).
Proof. reflexivity. Qed.

Lemma enable_disable_countInvariant (sid : string) (s : State) :
  countInvariant (engine s) ->
  countInvariant (engine (snd (enable sid s)))
  /\ countInvariant (engine (snd (disable sid s))).
Proof.
  unfold enable, disable, countInvariant. intros H.
  destruct (lookup sid (_sections (engine s))); cbn;
    rewrite ?length_updateSection; auto.
Qed.

(** What the registry operations do to the entries and to the counter:
    [add] on a fresh id adds one entry and increments, [remove] on a known
    id deletes one entry and decrements, [remove] on an unknown id changes
    nothing, [clear] empties both. *)
Lemma registry_operations (s : State) (sid : string) :
  nonEmpty (Some sid) = Some sid ->
  (lookup sid (_sections (engine s)) = None ->
   forall config, a_id config = Value sid ->
     let s' := snd (add config s) in
     List.length (_sections (engine s')) = S (List.length (_sections (engine s)))
     /\ _sectionCount (engine s') = (_sectionCount (engine s) + 1)%Z)
  /\ (lookup sid (_sections (engine s)) <> None ->
      let s' := snd (remove (Some sid) s) in
      S (List.length (_sections (engine s'))) = List.length (_sections (engine s))
      /\ _sectionCount (engine s') = (_sectionCount (engine s) - 1)%Z)
  /\ (lookup sid (_sections (engine s)) = None ->
      remove (Some sid) s = (inr false, s))
  /\ (_sections (engine (snd (clear s))) = []
      /\ _sectionCount (engine (snd (clear s))) = 0%Z).
Proof.
  intros Hne. split; [|split; [|split]].
  - intros Hnew config Hid. unfold add. rewrite Hid. cbn [propValue].
    rewrite Hne, Hnew.
    unfold set. cbn [withId a_id propValue]. rewrite Hne.
    cbn [onEngine engine with_sectionCount with_sections _sections].
    rewrite lookup_assign. cbn. rewrite !length_assign, lookup_assign, Hnew.
    split; reflexivity.
  - intros Hold. unfold remove. rewrite Hne.
    destruct (lookup sid (_sections (engine s))) eqn:El; [|congruence].
    cbn. destruct (String.eqb _ sid); cbn; (split; [|reflexivity]);
      apply length_delete; congruence.
  - intros Hnew. unfold remove. rewrite Hne, Hnew. reflexivity.
  - split; reflexivity.
Qed.

(** The counter equals the number of entries after any sequence of
    [add], [remove], [clear], [set], [enable] and [disable] in which
    every [set] that names a section is on target. *)
Lemma countInvariant_sequence (ops : list RegistryOp) (s : State) :
  allOnTarget ops s = true ->
  countInvariant (engine s) ->
  countInvariant (engine (fold_left (fun st op => runOp op st) ops s)).
Proof.
  revert s. induction ops as [|op ops IH]; intros s Hok Hinv; [exact Hinv|].
  cbn [allOnTarget] in Hok. apply andb_true_iff in Hok. destruct Hok as [Hop Hrest].
  cbn [fold_left]. apply IH; [exact Hrest|].
  destruct op as [config|sid| |config|sid|sid]; cbn [runOp].
  - now apply add_countInvariant.
  - now apply remove_countInvariant.
  - apply clear_countInvariant.
  - apply set_countInvariant; [|exact Hinv].
    cbn [onTarget] in Hop.
    destruct (nonEmpty (propValue (a_id config))) as [i|]; [|exact I].
    destruct (lookup i (_sections (engine s))); [left; discriminate | now right].
  - now apply enable_disable_countInvariant.
  - now apply enable_disable_countInvariant.
Qed.

(** C9 (defect). [set({ id: 'ghost' })] on a fresh engine returns
    normally and leaves one entry in [_sections] while [_sectionCount]
    is still 0: the counter no longer equals the number of entries. *)
Theorem set_unknown_id_creates_uncounted_section :
  let r := set (idOnly "ghost") initialState in
  countInvariant (engine initialState)
  /\ fst r = inr tt
  /\ keys (_sections (engine (snd r))) = ["ghost"%string]
  /\ _sectionCount (engine (snd r)) = 0%Z
  /\ ~ countInvariant (engine (snd r)).
Proof.
  cbn. repeat split. unfold countInvariant. cbn. discriminate.
Qed.

(** ** Section attribution *)












(** ** Focusing a section *)

(** C3 (defect). With sections 'a' (element 1) and 'b' (element 2)
    registered and nothing focused: [focus('a')] moves the focus to
    element 1 and returns false; [focus()] focuses element 1, does not
    stop there, goes on to focus element 2 of the next section of the
    range, and returns false. *)
Theorem focus_section_returns_false_and_scans_on :
  let s := registered [section "a" ".a"; section "b" ".b"] in
  activeElement s = None
  /\ (let r := focus quietPage (TargetString "a") None s in
      fst r = inr false
      /\ activeElement (snd r) = Some 1%nat
      /\ _lastSectionId (engine (snd r)) = "a"%string)
  /\ (let r := focus quietPage NoTarget None s in
      fst r = inr false
      /\ activeElement (snd r) = Some 2%nat
      /\ _lastSectionId (engine (snd r)) = "b"%string
      /\ map (fun ev => (ev_target ev, ev_name ev)) (rev (events (snd r)))
         = [(1%nat, willfocus); (1%nat, focused);
            (1%nat, willunfocus); (1%nat, unfocused);
            (2%nat, willfocus); (2%nat, focused)]).
Proof. cbn. repeat split. Qed.

(** ** Leaving a section *)

(** C2 (defect). Section 'a' holds element 1 and has
    [leaveFor = { right: '' }]; section 'b' holds element 2, to the right
    of element 1.  Moving right from element 1, geometry picks element 2
    of section 'b'; [gotoLeaveFor] answers false, not null, since the
    empty string fails the test [if (leaveFor)]; the move goes on,
    focuses element 2 and returns true, and no navigatefailed event is
    dispatched. *)
Theorem leaveFor_empty_string_does_not_block :
  let s := focusedOn 1%nat
             (registered [sectionLeaveRight "a" ".a" (SelStr ""); section "b" ".b"]) in
  searchNext quietPage (engine s) Right 1%nat "a" = Some 2%nat
  /\ getSectionId quietPage (engine s) 2%nat = Some "b"%string
  /\ fst (gotoLeaveFor quietPage "a" Right s) = Some false
  /\ (let r := move quietPage Right None s in
      fst r = inr true
      /\ activeElement (snd r) = Some 2%nat
      /\ existsb (fun ev => match ev_name ev with
                            | navigatefailed => true
                            | _ => false
                            end) (events (snd r)) = false).
Proof. vm_compute. repeat split. Qed.

(** The other half of C2 on the same document: with
    [leaveFor = { right: '.c' }], the move from element 1 discards
    geometry's pick (element 2) and focuses element 3. *)
Lemma leaveFor_selector_wins_example :
  let s := focusedOn 1%nat
             (registered [sectionLeaveRight "a" ".a" (SelStr ".c");
                          section "b" ".b"; section "c" ".c"]) in
  searchNext quietPage (engine s) Right 1%nat "a" = Some 2%nat
  /\ (let r := move quietPage Right None s in
      fst r = inr true /\ activeElement (snd r) = Some 3%nat).
Proof. vm_compute. repeat split. Qed.

(** With [leaveFor = { right: '@c' }] the section reference is resolved
    by [focusSection], which focuses element 3 but answers false; the
    move therefore goes on and ends on geometry's pick, element 2. *)
Lemma leaveFor_section_reference_example :
  let s := focusedOn 1%nat
             (registered [sectionLeaveRight "a" ".a" (SelStr "@c");
                          section "b" ".b"; section "c" ".c"]) in
  let r := move quietPage Right None s in
  fst r = inr true
  /\ activeElement (snd r) = Some 2%nat
  /\ map (fun ev => (ev_target ev, ev_name ev)) (rev (events (snd r)))
     = [(1%nat, willmove);
        (1%nat, willunfocus); (1%nat, unfocused);
        (3%nat, willfocus); (3%nat, focused);
        (3%nat, willunfocus); (3%nat, unfocused);
        (2%nat, willfocus); (2%nat, focused)].
Proof. vm_compute. repeat split. Qed.

(** ** Restrict modes *)

Lemma existsb_eqb_In (x : Elem) (l : list Elem) :
  existsb (Nat.eqb x) l = true <-> In x l.
Proof.
  rewrite existsb_exists. split.
  - intros (y & Hy & He). apply Nat.eqb_eq in He. now subst.
  - intros H. exists x. split; [assumption | apply Nat.eqb_refl].
Qed.

Lemma exclude_In (x : Elem) (l excluded : list Elem) :
  In x (exclude l excluded) <-> In x l /\ ~ In x excluded.
Proof.
  unfold exclude. rewrite filter_In, negb_true_iff, <- not_true_iff_false,
    existsb_eqb_In. tauto.
Qed.

Lemma exclude_app (l1 l2 excluded : list Elem) :
  exclude (l1 ++ l2) excluded = exclude l1 excluded ++ exclude l2 excluded.
Proof. unfold exclude. apply filter_app. Qed.

Lemma exclude_all (l excluded : list Elem) :
  (forall x, In x l -> In x excluded) -> exclude l excluded = [].
Proof.
  intros H. unfold exclude. apply filter_none_in. intros x Hx.
  apply negb_false_iff. apply existsb_eqb_In. auto.
Qed.

(** Dropping the current section from the enumeration does not change
    what is left once its navigable elements are excluded. *)
Lemma exclude_other_sections (w : World) (e : Engine) (sid : string)
    (ids : list string) :
  exclude (flat_map (getSectionNavigableElements w e) ids)
          (getSectionNavigableElements w e sid)
  = exclude (flat_map (getSectionNavigableElements w e)
               (filter (fun i => negb (String.eqb i sid)) ids))
            (getSectionNavigableElements w e sid).
Proof.
  induction ids as [|i ids IH]; [reflexivity|].
  cbn [flat_map filter]. rewrite exclude_app, IH.
  destruct (String.eqb i sid) eqn:E; cbn [negb].
  - apply String.eqb_eq in E. subst i.
    rewrite exclude_all by auto. reflexivity.
  - cbn [flat_map]. now rewrite exclude_app.
Qed.

Lemma allNavigable_In (w : World) (e : Engine) (x : Elem) :
  In x (allNavigableElements w e)
  <-> exists i, In i (keys (_sections e))
                /\ In x (getSectionNavigableElements w e i).
Proof. unfold allNavigableElements. apply in_flat_map. Qed.

Lemma restrict_mode_eqb (config : Config) (m : string) :
  restrict config = Some m ->
  forall m',
    match restrict config with Some r => String.eqb r m' | None => false end
    = String.eqb m m'.
Proof. intros -> m'. reflexivity. Qed.

(** ** The search depends on the candidates through the active buckets *)

(** The tiers, written with the placement rule. *)
Lemma tiers_placed (T : Rect) (dir : Direction) (rects : list Rect)
    (config : Config) :
  let t := thresholdOf config in
  let at_ k := filter (fun r => placed T t r k) rects in
  let df := distanceBuilder T in
  tiers T dir rects config
  = (if truthy (straightOnly config) then pop else fun l => l)
      (match dir with
       | Left =>
           [ mkPriority [] [nearPlumbLineIsBetter df; topIsBetter df];
             mkPriority (at_ 3%nat) [nearPlumbLineIsBetter df; topIsBetter df];
             mkPriority (at_ 0%nat ++ at_ 6%nat)
               [nearHorizonIsBetter df; rightIsBetter df; nearTargetTopIsBetter df] ]
       | Right =>
           [ mkPriority [] [nearPlumbLineIsBetter df; topIsBetter df];
             mkPriority (at_ 5%nat) [nearPlumbLineIsBetter df; topIsBetter df];
             mkPriority (at_ 2%nat ++ at_ 8%nat)
               [nearHorizonIsBetter df; leftIsBetter df; nearTargetTopIsBetter df] ]
       | Up =>
           [ mkPriority [] [nearHorizonIsBetter df; leftIsBetter df];
             mkPriority (at_ 1%nat) [nearHorizonIsBetter df; leftIsBetter df];
             mkPriority (at_ 0%nat ++ at_ 2%nat)
               [nearPlumbLineIsBetter df; bottomIsBetter df;
                nearTargetLeftIsBetter df] ]
       | Down =>
           [ mkPriority [] [nearHorizonIsBetter df; leftIsBetter df];
             mkPriority (at_ 7%nat) [nearHorizonIsBetter df; leftIsBetter df];
             mkPriority (at_ 6%nat ++ at_ 8%nat)
               [nearPlumbLineIsBetter df; topIsBetter df;
                nearTargetLeftIsBetter df] ]
       end).
Proof.
  intros t at_ df. unfold tiers. fold t. fold df.
  assert (Hin : forall k, k <> 4%nat ->
            bucket (partition (bucket (partition rects T t) 4) T t) k = [])
    by (intros; now apply internalGroups_outer_empty).
  assert (Hout : forall k, bucket (partition rects T t) k = at_ k)
    by (intros; apply bucket_partition).
  destruct (truthy (straightOnly config)), dir; cbn [priorities_of];
    rewrite !Hin by discriminate; rewrite !Hout; reflexivity.
Qed.

(** Two candidate lists that fill the active buckets alike give the same
    tiers. *)
Lemma tiers_ext (T : Rect) (dir : Direction) (rects rects' : list Rect)
    (config : Config) :
  (forall k, In k (activeBuckets dir config) ->
             filter (fun r => placed T (thresholdOf config) r k) rects
             = filter (fun r => placed T (thresholdOf config) r k) rects') ->
  tiers T dir rects config = tiers T dir rects' config.
Proof.
  intros H. rewrite !tiers_placed. unfold activeBuckets in H.
  destruct (truthy (straightOnly config)), dir;
    cbn [cornerBuckets straightBucket] in H; cbn [pop removelast];
    repeat match goal with
           | |- context [filter (fun r => placed T ?t r ?k) rects] =>
               rewrite (H k) by (cbn; tauto)
           end; reflexivity.
Qed.

Lemma destPriority_none (ps : list Priority) :
  destPriority ps = None -> Forall (fun p => group p = []) ps.
Proof.
  induction ps as [|p ps IH]; cbn [destPriority]; [constructor|].
  destruct (group p) eqn:Eg; [|discriminate].
  intros H. constructor; auto.
Qed.

(** When the search finds nothing, no candidate is placed in an active
    bucket. *)
Lemma tiers_none (T : Rect) (dir : Direction) (rects : list Rect)
    (config : Config) :
  prioritize (tiers T dir rects config) = None ->
  forall k r, In k (activeBuckets dir config) -> In r rects ->
              placed T (thresholdOf config) r k = false.
Proof.
  intros H k r Hk Hr.
  assert (Hnone : destPriority (tiers T dir rects config) = None).
  { unfold prioritize in H. now destruct (destPriority _). }
  clear H. apply destPriority_none in Hnone. rewrite tiers_placed in Hnone.
  destruct (placed T (thresholdOf config) r k) eqn:Ep; [|reflexivity].
  exfalso.
  assert (Hin : In r (filter (fun r => placed T (thresholdOf config) r k) rects))
    by (apply filter_In; auto).
  unfold activeBuckets, straightBucket, cornerBuckets, Grid.TOP_LEFT,
    Grid.TOP_RIGHT, Grid.BOTTOM_LEFT, Grid.BOTTOM_RIGHT, Grid.TOP_CENTER,
    Grid.BOTTOM_CENTER, Grid.MIDDLE_LEFT, Grid.MIDDLE_RIGHT in Hk.
  destruct (truthy (straightOnly config)), dir;
    cbn [pop removelast] in Hnone;
    rewrite !Forall_cons_iff in Hnone; cbn [group] in Hnone;
    cbn [In] in Hk.
  all: try (destruct Hnone as (_ & H2 & H3 & _);
            apply app_eq_nil in H3; destruct H3 as [H3a H3b];
            destruct Hk as [<-|[<-|[<-|[]]]];
            [rewrite H2 in Hin | rewrite H3a in Hin | rewrite H3b in Hin];
            exact Hin).
  all: destruct Hnone as (_ & H2 & _); destruct Hk as [<-|[]];
    rewrite H2 in Hin; exact Hin.
Qed.

Lemma getRect_element (bcr : Elem -> option ClientRect) (e : Elem) (r : Rect) :
  getRect bcr e = Some r -> element r = e.
Proof.
  unfold getRect. destruct (bcr e); [|discriminate]. now intros [= <-].
Qed.

Lemma measure_In (w : World) (L : list Elem) (r : Rect) :
  In r (measure w L)
  <-> exists e, In e L /\ getRect (getBoundingClientRect w) e = Some r.
Proof.
  unfold measure. rewrite in_flat_map. split.
  - intros (e & He & Hr). exists e. split; [assumption|].
    destruct (getRect (getBoundingClientRect w) e); cbn in Hr;
      [destruct Hr as [->|[]]; reflexivity | contradiction].
  - intros (e & He & Hr). exists e. split; [assumption|].
    rewrite Hr. now left.
Qed.

Lemma measure_exclude (w : World) (L excluded : list Elem) :
  measure w (exclude L excluded)
  = filter (fun r => negb (existsb (Nat.eqb (element r)) excluded))
      (measure w L).
Proof.
  induction L as [|a L IH]; [reflexivity|].
  unfold exclude in *. cbn [filter measure flat_map].
  rewrite filter_app. fold (measure w L). rewrite <- IH.
  destruct (getRect (getBoundingClientRect w) a) as [r|] eqn:Er.
  - apply getRect_element in Er as He. cbn [filter]. rewrite He.
    destruct (existsb (Nat.eqb a) excluded); cbn [negb app].
    + reflexivity.
    + cbn [measure flat_map]. rewrite Er. reflexivity.
  - cbn [filter app].
    destruct (existsb (Nat.eqb a) excluded); cbn [negb]; [reflexivity|].
    cbn [measure flat_map]. rewrite Er. reflexivity.
Qed.

Lemma filter_absorb {A} (p q : A -> bool) (l : list A) :
  (forall a, In a l -> p a = true -> q a = true) ->
  filter p (filter q l) = filter p l.
Proof.
  induction l as [|a l IH]; intros H; [reflexivity|].
  cbn [filter]. destruct (q a) eqn:Eq.
  - cbn [filter]. rewrite IH by (intros; apply H; cbn; auto). reflexivity.
  - destruct (p a) eqn:Ep.
    + rewrite H in Eq; cbn; auto. discriminate.
    + apply IH. intros; apply H; cbn; auto.
Qed.

Lemma centred_home (T : Rect) : centred T -> homeBucket T T = 4%nat.
Proof.
  intros [[H1 H2] [H3 H4]]. unfold homeBucket, row, column.
  destruct (classify_cases (x (center T)) (left T) (right T))
    as [[-> Hx]|[[-> Hx]|[-> Hx]]];
  destruct (classify_cases (y (center T)) (top T) (bottom T))
    as [[-> Hy]|[[-> Hy]|[-> Hy]]];
  try reflexivity; exfalso; lra.
Qed.

Lemma centred_placed (T : Rect) (t : Q) (k : nat) :
  centred T -> placed T t T k = true -> k = 4%nat.
Proof.
  intros Hc. apply placed_centre.
  unfold placed. rewrite (centred_home T Hc). reflexivity.
Qed.

Lemma insert_not_nil (cmp : Rect -> Rect -> Q) (a : Rect) (l : list Rect) :
  insert cmp a l <> [].
Proof.
  destruct l as [|b l]; cbn; [discriminate|].
  destruct (Qlt_bool (cmp b a) 0); discriminate.
Qed.

Lemma prioritize_not_nil (ps : list Priority) (g : list Rect) :
  prioritize ps = Some g -> g <> [].
Proof.
  unfold prioritize. destruct (destPriority ps) as [p|] eqn:Ep; [|discriminate].
  intros [= <-]. apply destPriority_nonempty in Ep.
  destruct (group p) as [|a l]; [congruence|]. cbn [sort].
  apply insert_not_nil.
Qed.

Lemma navigate_none (w : World) (cur : Elem) (dir : Direction) (L : list Elem)
    (config : Config) (T : Rect) :
  getRect (getBoundingClientRect w) cur = Some T ->
  navigate w (Some cur) dir L config = None ->
  prioritize (tiers T dir (measure w L) config) = None.
Proof.
  intros HT. rewrite navigate_via_tiers, HT.
  destruct (prioritize _) as [g|] eqn:Ep; [|reflexivity].
  apply prioritize_not_nil in Ep.
  destruct (remembered cur dir config g); [discriminate|].
  destruct g; [congruence|discriminate].
Qed.

Lemma activeBuckets_outer (dir : Direction) (config : Config) (k : nat) :
  In k (activeBuckets dir config) -> k <> 4%nat.
Proof.
  unfold activeBuckets.
  destruct (truthy (straightOnly config)), dir; cbn;
    intros H; repeat destruct H as [<-|H]; try discriminate; contradiction.
Qed.

(** Once the search among the elements [own] (the current element left
    out) has found nothing, leaving those elements out of any candidate
    list does not change the winner. *)
Lemma searched_candidates_irrelevant (w : World) (cur : Elem) (dir : Direction)
    (own L : list Elem) (config : Config) :
  match getRect (getBoundingClientRect w) cur with
  | Some T => centred T
  | None => True
  end ->
  navigate w (Some cur) dir (exclude own [cur]) config = None ->
  navigate w (Some cur) dir (exclude L own) config
  = navigate w (Some cur) dir L config.
Proof.
  intros Hc Hnone. rewrite !navigate_via_tiers.
  destruct (getRect (getBoundingClientRect w) cur) as [T|] eqn:HT;
    [|reflexivity].
  pose proof (navigate_none w cur dir _ config T HT Hnone) as Hp.
  rewrite (tiers_ext T dir (measure w (exclude L own)) (measure w L) config);
    [reflexivity|].
  intros k Hk. rewrite measure_exclude. apply filter_absorb.
  intros r Hr Hpl.
  destruct (existsb (Nat.eqb (element r)) own) eqn:Eo; [|reflexivity].
  exfalso. apply existsb_eqb_In in Eo.
  apply measure_In in Hr. destruct Hr as (e & He & Hre).
  pose proof (getRect_element _ _ _ Hre) as Hel. rewrite Hel in Eo.
  destruct (Nat.eq_dec e cur) as [->|Hne].
  - rewrite HT in Hre. injection Hre as <-.
    apply centred_placed in Hpl; [|assumption].
    now apply (activeBuckets_outer dir config k).
  - assert (Hin : In r (measure w (exclude own [cur]))).
    { apply measure_In. exists e. split; [|assumption].
      apply exclude_In. split; [assumption|].
      intros [Heq|[]]. congruence. }
    rewrite (tiers_none T dir _ config Hp k r Hk Hin) in Hpl. discriminate.
Qed.

(** ** The approval gate *)

Lemma focusChanged_frame (w : World) (elem : Elem) (sid : option string)
    (s : State) :
  let s' := snd (focusChanged w elem sid s) in
  _pause (engine s') = _pause (engine s)
  /\ _duringFocusChange (engine s') = _duringFocusChange (engine s)
  /\ events s' = events s
  /\ activeElement s' = activeElement s.
Proof.
  unfold focusChanged.
  destruct (nonEmpty match nonEmpty sid with
                     | Some i => Some i
                     | None => getSectionId w (engine s) elem
                     end); cbn; auto.
Qed.

Lemma noFocusCommitted_nil : noFocusCommitted [].
Proof. intros ev []. Qed.

Lemma noFocusCommitted_app (a b : list Event) :
  noFocusCommitted (a ++ b) <-> noFocusCommitted a /\ noFocusCommitted b.
Proof.
  unfold noFocusCommitted. split.
  - intros H. split; intros ev Hev; apply H, in_or_app; auto.
  - intros [Ha Hb] ev Hev. apply in_app_or in Hev. destruct Hev; auto.
Qed.

Lemma settled_refl (s : State) (failed : Prop) :
  _pause (engine s) = false -> _duringFocusChange (engine s) = false ->
  failed -> settled failed s s.
Proof.
  intros Hp Hd Hf. repeat split; auto. exists []. auto.
Qed.

Lemma settled_trans (F1 F2 : Prop) (s1 s2 s3 : State) :
  settled F1 s1 s2 -> settled F2 s2 s3 -> settled (F1 /\ F2) s1 s3.
Proof.
  intros (_ & _ & evs1 & He1 & H1) (Hp & Hd & evs2 & He2 & H2).
  repeat split; auto. exists (evs2 ++ evs1). split.
  - now rewrite He2, He1, app_assoc.
  - intros Hn. apply noFocusCommitted_app in Hn. destruct Hn as [Hn2 Hn1].
    destruct (H1 Hn1) as [Hf1 <-]. destruct (H2 Hn2) as [Hf2 <-]. auto.
Qed.

Lemma settled_weaken (F G : Prop) (s s' : State) :
  (F -> G) -> settled F s s' -> settled G s s'.
Proof.
  intros HFG (Hp & Hd & evs & He & H). repeat split; auto.
  exists evs. split; [assumption|]. intros Hn. destruct (H Hn). auto.
Qed.

Lemma settled_event (s : State) (ev : Event) :
  _pause (engine s) = false -> _duringFocusChange (engine s) = false ->
  settled True s (mkState (engine s) (activeElement s) (ev :: events s)).
Proof.
  intros Hp Hd. repeat split; auto. exists [ev]. auto.
Qed.

(** [focusElement], neither paused nor inside a focus change: it returns
    true exactly when the gate approves; a veto at either stage leaves
    the engine variables as they were; an approval is reported by a
    [focused] event. *)
Lemma focusElement_gate (w : World) (elem : Elem) (sid : option string)
    (dir : option Direction) (s : State) :
  _pause (engine s) = false -> _duringFocusChange (engine s) = false ->
  let r := focusElement w (Some elem) sid dir s in
  fst r = gateApproves w s elem sid dir
  /\ (fst r = false -> engine (snd r) = engine s)
  /\ settled (fst r = false) s (snd r).
Proof.
  intros Hp Hd. unfold gateApproves, focusElement.
  unfold bind, gets, ret, getCurrentFocusedElement, setDuringFocusChange,
    modifyEngine, dispatch, blur, focus_.
  cbn -[focusChanged]. rewrite Hd. cbn -[focusChanged]. rewrite Hp.
  assert (Hsame : with_duringFocusChange false
                    (with_duringFocusChange true (engine s)) = engine s).
  { destruct (engine s); cbn in *; subst; reflexivity. }
  destruct (activeElement s) as [cur|] eqn:Ea.
  - cbn -[focusChanged].
    destruct (dispatchEvent w cur willunfocus _) eqn:E1; cbn -[focusChanged].
    + destruct (dispatchEvent w elem willfocus _) eqn:E2; cbn -[focusChanged].
      * match goal with
        | |- context [focusChanged w elem sid ?s0] =>
            pose proof (focusChanged_frame w elem sid s0) as (F1 & F2 & F3 & F4);
            destruct (focusChanged w elem sid s0) as [u s'] eqn:Ef
        end.
        cbn in *. split; [reflexivity|]. split; [discriminate|].
        repeat split; try congruence.
        eexists [_; _; _; _]. split; [rewrite F3; reflexivity|].
        intros Hn. exfalso. eapply (Hn _ (or_introl eq_refl)). reflexivity.
      * split; [reflexivity|]. split; [intros _; exact Hsame|].
        repeat split; cbn; auto.
        eexists [_; _; _]. split; [reflexivity|]. auto.
    + split; [reflexivity|]. split; [intros _; exact Hsame|].
      repeat split; cbn; auto.
      eexists [_]. split; [reflexivity|]. auto.
  - cbn -[focusChanged].
    destruct (dispatchEvent w elem willfocus _) eqn:E2; cbn -[focusChanged].
    + match goal with
      | |- context [focusChanged w elem sid ?s0] =>
          pose proof (focusChanged_frame w elem sid s0) as (F1 & F2 & F3 & F4);
          destruct (focusChanged w elem sid s0) as [u s'] eqn:Ef
      end.
      cbn in *. split; [reflexivity|]. split; [discriminate|].
      repeat split; try congruence.
      eexists [_; _]. split; [rewrite F3; reflexivity|].
      intros Hn. exfalso. eapply (Hn _ (or_introl eq_refl)). reflexivity.
    + split; [reflexivity|]. split; [intros _; exact Hsame|].
      repeat split; cbn; auto.
      eexists [_]. split; [reflexivity|]. auto.
Qed.

Lemma focusElement_settled (w : World) (elem : option Elem) (sid : option string)
    (dir : option Direction) (s : State) :
  _pause (engine s) = false -> _duringFocusChange (engine s) = false ->
  settled (fst (focusElement w elem sid dir s) = false) s
    (snd (focusElement w elem sid dir s)).
Proof.
  intros Hp Hd. destruct elem as [elem|].
  - now apply focusElement_gate.
  - now apply settled_refl.
Qed.

Lemma forEach_settled {A B} (body : A -> M B) (l : list A) :
  (forall a s, _pause (engine s) = false ->
               _duringFocusChange (engine s) = false ->
               settled True s (snd (body a s))) ->
  forall s, _pause (engine s) = false ->
            _duringFocusChange (engine s) = false ->
            settled True s (snd (forEach l body s)).
Proof.
  intros Hbody. induction l as [|a l IH]; intros s Hp Hd.
  - now apply settled_refl.
  - cbn [forEach]. unfold bind.
    pose proof (Hbody a s Hp Hd) as H1.
    destruct (body a s) as [b s1]. cbn [snd] in H1.
    pose proof H1 as (Hp1 & Hd1 & _).
    eapply settled_weaken; [|eapply settled_trans; [exact H1 | exact (IH s1 Hp1 Hd1)]].
    auto.
Qed.

(** The range of sections [focusSection] walks through. *)
Lemma focusSection_forEach (w : World) (sid : option string) (s : State) :
  exists range,
    focusSection w sid s
    = (false,
       snd (forEach range
              (fun sec =>
                 e <- gets engine ;;
                 match entryElement w e sec with
                 | Some next => focusElement w (Some next) (Some sec) None
                 | None => ret false
                 end) s)).
Proof.
  unfold focusSection. unfold bind at 1 2. unfold gets at 1.
  match goal with
  | |- context [forEach ?range ?body s] =>
      exists range; destruct (forEach range body s) as [u s']
  end.
  reflexivity.
Qed.

Lemma focusSection_settled (w : World) (sid : option string) (s : State) :
  _pause (engine s) = false -> _duringFocusChange (engine s) = false ->
  fst (focusSection w sid s) = false
  /\ settled True s (snd (focusSection w sid s)).
Proof.
  intros Hp Hd. destruct (focusSection_forEach w sid s) as [range ->].
  cbn [fst snd]. split; [reflexivity|].
  apply forEach_settled; auto.
  intros sec s0 Hp0 Hd0. unfold bind, gets.
  destruct (entryElement w (engine s0) sec).
  - eapply settled_weaken; [|apply focusElement_settled; auto]. auto.
  - now apply settled_refl.
Qed.

Lemma focusExtendedSelector_settled (w : World) (sel : string)
    (dir : option Direction) (s : State) :
  _pause (engine s) = false -> _duringFocusChange (engine s) = false ->
  settled (fst (focusExtendedSelector w sel dir s) = false) s
    (snd (focusExtendedSelector w sel dir s)).
Proof.
  intros Hp Hd.
  assert (Hplain :
    settled
      (fst (match hd_error (parseSelector w (Some (SelStr sel))) with
            | Some next =>
                e <- gets engine ;;
                (let nextSectionId := getSectionId w e next in
                 if isNavigable w e (Some next) nextSectionId false
                 then focusElement w (Some next) nextSectionId dir
                 else ret false)
            | None => ret false
            end s) = false) s
      (snd (match hd_error (parseSelector w (Some (SelStr sel))) with
            | Some next =>
                e <- gets engine ;;
                (let nextSectionId := getSectionId w e next in
                 if isNavigable w e (Some next) nextSectionId false
                 then focusElement w (Some next) nextSectionId dir
                 else ret false)
            | None => ret false
            end s))).
  { destruct (hd_error (parseSelector w (Some (SelStr sel)))) as [next|].
    - unfold bind, gets.
      destruct (isNavigable w (engine s) (Some next)
                  (getSectionId w (engine s) next) false).
      + now apply focusElement_settled.
      + now apply settled_refl.
    - now apply settled_refl. }
  assert (Hsec : forall o,
             settled (fst (focusSection w o s) = false) s
               (snd (focusSection w o s))).
  { intros o. destruct (focusSection_settled w o s Hp Hd) as [Hf Hs].
    eapply settled_weaken; [|exact Hs]. auto. }
  unfold focusExtendedSelector.
  destruct sel as [|c rest]; [exact Hplain|].
  destruct c as [[] [] [] [] [] [] [] []]; try exact Hplain.
  destruct rest; apply Hsec.
Qed.

Lemma gotoLeaveFor_settled (w : World) (sid : string) (dir : Direction)
    (s : State) :
  _pause (engine s) = false -> _duringFocusChange (engine s) = false ->
  settled (fst (gotoLeaveFor w sid dir s) <> Some true) s
    (snd (gotoLeaveFor w sid dir s)).
Proof.
  intros Hp Hd. unfold gotoLeaveFor, bind, gets, ret.
  destruct (truthySel (leaveForEntry (engine s) sid dir));
    [|apply settled_refl; cbn; auto; discriminate].
  destruct (leaveForEntry (engine s) sid dir) as [[str|el]|].
  - destruct (String.eqb str "").
    + apply settled_refl; cbn; auto; discriminate.
    + pose proof (focusExtendedSelector_settled w str (Some dir) s Hp Hd) as H.
      destruct (focusExtendedSelector w str (Some dir) s) as [b s']. cbn in *.
      eapply settled_weaken; [|exact H]. intros ->. discriminate.
  - destruct (isNavigable w (engine s) (Some el)
                (getSectionId w (engine s) el) false).
    + pose proof (focusElement_settled w (Some el)
                    (getSectionId w (engine s) el) (Some dir) s Hp Hd) as H.
      destruct (focusElement w (Some el) _ (Some dir) s) as [b s']. cbn in *.
      eapply settled_weaken; [|exact H]. intros ->. discriminate.
    + apply settled_refl; cbn; auto; discriminate.
  - apply settled_refl; cbn; auto; discriminate.
Qed.

Lemma settled_then_event (F : Prop) (s0 s : State) (ev : Event) :
  settled F s0 s ->
  settled F s0 (mkState (engine s) (activeElement s) (ev :: events s)).
Proof.
  intros H. pose proof H as (Hp & Hd & _).
  eapply settled_weaken;
    [|eapply settled_trans; [exact H | apply (settled_event s ev Hp Hd)]].
  tauto.
Qed.

Lemma fire_then_false (w : World) (cur : Elem) (dir : Direction) (s : State) :
  (fireNavigateFailed w cur dir ;;; ret false) s
  = (false, snd (fireNavigateFailed w cur dir s)).
Proof.
  unfold bind, ret. destruct (fireNavigateFailed w cur dir s). reflexivity.
Qed.

(** [focusNext], neither paused nor inside a focus change: unless some
    gate approves a focus change, the move fails and the engine
    variables are those of the start, with the [previous] record of the
    current section already written when geometry found a winner. *)
Lemma focusNext_run (w : World) (dir : Direction) (cur : Elem)
    (sid : string) (s : State) (b : bool) (s' : State) :
  _pause (engine s) = false -> _duringFocusChange (engine s) = false ->
  focusNext w dir cur sid s = (b, s') ->
  let e0 :=
    match getAttribute_data_sn w cur dir, searchNext w (engine s) dir cur sid with
    | None, Some next => recordPrevious (engine s) sid cur next dir
    | _, _ => engine s
    end in
  settled (b = false) (mkState e0 (activeElement s) (events s)) s'.
Proof.
  intros Hp Hd Hrun. unfold focusNext in Hrun.
  assert (Hs : mkState (engine s) (activeElement s) (events s) = s)
    by (destruct s; reflexivity).
  destruct (getAttribute_data_sn w cur dir) as [ext|].
  - cbn zeta. rewrite Hs.
    destruct (String.eqb ext "").
    + rewrite fire_then_false in Hrun. injection Hrun as <- <-.
      apply settled_then_event. now apply settled_refl.
    + unfold bind at 1 in Hrun.
      pose proof (focusExtendedSelector_settled w ext (Some dir) s Hp Hd) as H.
      destruct (focusExtendedSelector w ext (Some dir) s) as [ok s1].
      cbn [fst snd] in H. destruct ok.
      * injection Hrun as <- <-. eapply settled_weaken; [|exact H]. auto.
      * rewrite fire_then_false in Hrun. injection Hrun as <- <-.
        apply settled_then_event. exact H.
  - unfold bind at 1 in Hrun. unfold gets at 1 in Hrun.
    destruct (searchNext w (engine s) dir cur sid) as [next|].
    + cbn zeta. unfold bind at 1 in Hrun. unfold modifyEngine at 1 in Hrun.
      fold (recordPrevious (engine s) sid cur next dir) in Hrun.
      set (s1 := mkState (recordPrevious (engine s) sid cur next dir)
                   (activeElement s) (events s)) in *.
      assert (Hp1 : _pause (engine s1) = false) by exact Hp.
      assert (Hd1 : _duringFocusChange (engine s1) = false) by exact Hd.
      unfold bind at 1 in Hrun. unfold gets at 1 in Hrun.
      destruct (negb (optStringEqb sid (getSectionId w (engine s1) next))).
      * unfold bind at 1 in Hrun.
        pose proof (gotoLeaveFor_settled w sid dir s1 Hp1 Hd1) as H.
        destruct (gotoLeaveFor w sid dir s1) as [result s2].
        cbn [fst snd] in H. pose proof H as (Hp2 & Hd2 & _).
        destruct result as [[|]|].
        -- injection Hrun as <- <-. eapply settled_weaken; [|exact H].
           congruence.
        -- unfold bind at 1 in Hrun. unfold gets at 1 in Hrun.
           match type of Hrun with
           | focusElement w ?el ?i ?d s2 = _ =>
               pose proof (focusElement_settled w el i d s2 Hp2 Hd2) as H2
           end.
           rewrite Hrun in H2. cbn [fst snd] in H2.
           eapply settled_weaken; [|eapply settled_trans; [exact H | exact H2]].
           tauto.
        -- rewrite fire_then_false in Hrun. injection Hrun as <- <-.
           apply settled_then_event.
           eapply settled_weaken; [|exact H]. auto.
      * pose proof (focusElement_settled w (Some next)
                      (getSectionId w (engine s1) next) (Some dir) s1 Hp1 Hd1)
          as H2.
        rewrite Hrun in H2. exact H2.
    + cbn zeta. rewrite Hs. unfold bind at 1 in Hrun.
      pose proof (gotoLeaveFor_settled w sid dir s Hp Hd) as H.
      destruct (gotoLeaveFor w sid dir s) as [result s2].
      cbn [fst snd] in H.
      destruct result as [[|]|].
      * injection Hrun as <- <-. eapply settled_weaken; [|exact H]. congruence.
      * rewrite fire_then_false in Hrun. injection Hrun as <- <-.
        apply settled_then_event.
        eapply settled_weaken; [|exact H]. auto.
      * rewrite fire_then_false in Hrun. injection Hrun as <- <-.
        apply settled_then_event.
        eapply settled_weaken; [|exact H]. auto.
Qed.

(** C1 as stated fails: element 1 of section 'main' is focused and a
    listener cancels [willfocus] on element 2.  Moving right, geometry
    picks element 2; [willunfocus] is accepted, [willfocus] is vetoed and
    the move returns false; yet the [previous] record of 'main', absent
    before the move, now holds (1, 2, left): the engine state is not
    what it was. *)
Lemma veto_still_rewrites_previous :
  let s := focusedOn 1%nat (registered [section "main" ".f"]) in
  let r := focusNext vetoPage Right 1%nat "main" s in
  _pause (engine s) = false
  /\ _duringFocusChange (engine s) = false
  /\ fst r = false
  /\ map (fun ev => (ev_target ev, ev_name ev)) (rev (events (snd r)))
     = [(1%nat, willunfocus); (1%nat, unfocused); (2%nat, willfocus)]
  /\ option_map previous (lookup "main" (_sections (engine s))) = Some None
  /\ option_map previous (lookup "main" (_sections (engine (snd r))))
     = Some (Some {| target := 1%nat; destination := 2%nat; reverse := Left |})
  /\ _lastSectionId (engine (snd r)) = _lastSectionId (engine s)
  /\ engine (snd r) <> engine s.
Proof.
  cbv zeta. repeat split; try reflexivity.
  intros H.
  apply (f_equal (fun e => option_map previous (lookup "main" (_sections e)))) in H.
  vm_compute in H. discriminate.
Qed.

(** C1 (amended). Neither paused nor inside a focus change: the gate of
    [focusElement] (willunfocus, then willfocus) decides its result, and
    a veto at either stage leaves the engine variables as they were, so
    the focus bookkeeping ([lastFocusedElement], [lastSectionId]) is only
    written after both approvals.  For a directional move from an
    element of a registered section: unless some
    gate approves a focus change, the move returns false and the engine
    variables are exactly those of the start, except that the current
    section's [previous] record has been overwritten when geometry found
    a winner -- it is written before the gate runs and is not rolled
    back. *)
Theorem veto_keeps_engine_state_except_previous :
  forall (w : World) (s : State),
    _pause (engine s) = false ->
    _duringFocusChange (engine s) = false ->
    (forall elem sid dir,
        let r := focusElement w (Some elem) sid dir s in
        fst r = gateApproves w s elem sid dir
        /\ (fst r = false -> engine (snd r) = engine s))
    /\ (forall dir cur sid,
          lookup sid (_sections (engine s)) <> None ->
          let r := focusNext w dir cur sid s in
          exists evs,
            events (snd r) = evs ++ events s
            /\ (noFocusCommitted evs ->
                fst r = false
                /\ engine (snd r)
                   = match getAttribute_data_sn w cur dir,
                           searchNext w (engine s) dir cur sid with
                     | None, Some next =>
                         recordPrevious (engine s) sid cur next dir
                     | _, _ => engine s
                     end)).
Proof.
  intros w s Hp Hd. split.
  - intros elem sid dir r.
    destruct (focusElement_gate w elem sid dir s Hp Hd) as (H1 & H2 & _).
    auto.
  - intros dir cur sid _ r.
    destruct (focusNext w dir cur sid s) as [b s'] eqn:Hrun.
    destruct (focusNext_run w dir cur sid s b s' Hp Hd Hrun)
      as (_ & _ & evs & He & H).
    exists evs. subst r. cbn [fst snd] in *. auto.
Qed.

(** ** Instances on the example document *)

Lemma near_metrics_witness :
  nearPlumbLineIsBetter (distanceBuilder rect1) rect3 == 0
  /\ nearTargetLeftIsBetter (distanceBuilder rect1) rect3 == 0.
Proof.
  destruct (near_metrics_nonneg_zero_when_covering rect1 rect3)
    as (_ & Hplumb & _ & Hleft & _).
  split; [apply Hplumb | apply Hleft]; unfold Qle; simpl; lia.
Defined.


Lemma straightOnly_witness :
  navigate quietPage (Some 1%nat) Right [4]%nat defaultGlobalConfig = Some 4%nat
  /\ navigate quietPage (Some 1%nat) Right [4]%nat straightConfig = None.
Proof.
  split; [reflexivity|].
  destruct (straightOnly_drops_diagonal_tier quietPage 1%nat Right [4]%nat
              straightConfig eq_refl) as (_ & _ & Hcorner).
  apply (Hcorner rect1); [reflexivity|].
  intros r k [<-|[]].
  do 9 (destruct k as [|k]; [vm_compute; congruence|]).
  vm_compute. congruence.
Defined.

Lemma veto_keeps_engine_state_witness :
  let s := focusedOn 1%nat (registered [section "main" ".f"]) in
  engine (snd (focusElement vetoPage (Some 2%nat) (Some "main"%string)
                 (Some Right) s)) = engine s
  /\ engine (snd (focusNext vetoPage Right 1%nat "main" s))
     = recordPrevious (engine s) "main" 1%nat 2%nat Right.
Proof.
  cbv zeta.
  destruct (veto_keeps_engine_state_except_previous vetoPage
              (focusedOn 1%nat (registered [section "main" ".f"]))
              eq_refl eq_refl) as [Hgate Hmove].
  split.
  - apply (Hgate 2%nat (Some "main"%string) (Some Right)). reflexivity.
  - destruct (Hmove Right 1%nat "main"%string) as (evs & He & H);
      [discriminate|].
    rewrite app_nil_r in He.
    apply H. intros ev Hin. rewrite <- He in Hin.
    destruct Hin as [<-|[<-|[<-|[]]]]; discriminate.
Defined.


(* ================================================================== *)
(** * Further properties of the resolver (geometry.ts, core.ts,
      strategies.ts) *)

(** ** [getRect] *)

Lemma Qfloor_half_bounds (v : Q) :
  0 <= v ->
  0 <= inject_Z (Qfloor (v / 2)) /\ inject_Z (Qfloor (v / 2)) <= v / 2
  /\ v / 2 - 1 < inject_Z (Qfloor (v / 2)).
Proof.
  intros Hv.
  assert (H0 : 0 <= v / 2) by (apply Qle_shift_div_l; lra).
  pose proof (Qfloor_le (v / 2)) as Hle.
  pose proof (Qlt_floor (v / 2)) as Hlt.
  assert (Hz : (0 <= Qfloor (v / 2))%Z).
  { change 0%Z with (Qfloor 0). now apply Qfloor_resp_le. }
  repeat split.
  - change 0 with (inject_Z 0). now rewrite <- Zle_Qle.
  - exact Hle.
  - rewrite inject_Z_plus in Hlt. change (inject_Z 1) with 1 in Hlt. lra.
Qed.


Lemma getRect_centre_inside_box_aux (bcr : Elem -> option ClientRect)
    (elem : Elem) (cr : ClientRect) :
  bcr elem = Some cr -> wellFormed cr ->
  exists r, getRect bcr elem = Some r /\ centred r.
Proof.
  intros Hcr (Hw & Hh & Hr & Hb).
  unfold getRect. rewrite Hcr. eexists. split; [reflexivity|].
  unfold centred. cbn [left right top bottom width height center x y element].
  destruct (Qfloor_half_bounds _ Hw) as (W0 & W1 & W2).
  destruct (Qfloor_half_bounds _ Hh) as (H0 & H1 & H2).
  assert (cr_width cr / 2 <= cr_width cr).
  { apply Qle_shift_div_r; lra. }
  assert (cr_height cr / 2 <= cr_height cr).
  { apply Qle_shift_div_r; lra. }
  repeat split; lra.
Qed.

(** An element without a bounding box cannot be measured. *)
Lemma getRect_none (bcr : Elem -> option ClientRect) (elem : Elem) :
  bcr elem = None <-> getRect bcr elem = None.
Proof.
  unfold getRect. destruct (bcr elem); split; congruence.
Qed.

(** ** The winner of [navigate] *)

Lemma tiers_member (T : Rect) (dir : Direction) (rects : list Rect)
    (config : Config) (p : Priority) (r : Rect) :
  In p (tiers T dir rects config) -> In r (group p) ->
  In r rects
  /\ exists k, In k (activeBuckets dir config)
               /\ placed T (thresholdOf config) r k = true.
Proof.
  rewrite tiers_placed.
  unfold activeBuckets, straightBucket, cornerBuckets, Grid.TOP_LEFT,
    Grid.TOP_RIGHT, Grid.BOTTOM_LEFT, Grid.BOTTOM_RIGHT, Grid.TOP_CENTER,
    Grid.BOTTOM_CENTER, Grid.MIDDLE_LEFT, Grid.MIDDLE_RIGHT.
  destruct (truthy (straightOnly config)), dir; cbn [pop removelast In];
    intros Hp Hr;
    repeat (destruct Hp as [<-|Hp]; cbn [group] in Hr);
    try contradiction;
    rewrite ?in_app_iff, ?filter_In in Hr;
    repeat match goal with
           | H : _ \/ _ |- _ => destruct H as [H|H]
           | H : _ /\ _ |- _ => destruct H as [? ?]
           end;
    (split; [assumption|]); eexists; (split; [|eassumption]); cbn; tauto.
Qed.

Lemma destPriority_In (ps : list Priority) (p : Priority) :
  destPriority ps = Some p -> In p ps.
Proof.
  intros H. apply destPriority_first in H.
  destruct H as (before & after & -> & _). apply in_elt.
Qed.

(** The winner is the element of a measured candidate of the winning
    tier, placed in one of the buckets the direction draws from. *)
Lemma navigate_winner (w : World) (cur : Elem) (dir : Direction)
    (L : list Elem) (config : Config) (dest : Elem) :
  navigate w (Some cur) dir L config = Some dest ->
  exists T p r k,
    getRect (getBoundingClientRect w) cur = Some T
    /\ destPriority (tiers T dir (measure w L) config) = Some p
    /\ In r (group p) /\ element r = dest
    /\ In r (measure w L)
    /\ In k (activeBuckets dir config)
    /\ placed T (thresholdOf config) r k = true.
Proof.
  rewrite navigate_via_tiers.
  destruct (getRect (getBoundingClientRect w) cur) as [T|]; [|discriminate].
  unfold prioritize.
  destruct (destPriority (tiers T dir (measure w L) config)) as [p|] eqn:Ep;
    [|discriminate].
  intros H.
  assert (Hr : exists r, In r (group p) /\ element r = dest).
  { destruct (remembered cur dir config _) as [d|] eqn:Erem.
    - injection H as ->. unfold remembered in Erem.
      destruct (previous config) as [prev|]; [|discriminate].
      destruct (truthy (rememberSource config) && _ && _); [|discriminate].
      apply find_element_some in Erem. destruct Erem as (-> & r & Hin & He).
      exists r. split; [now apply (sort_In (comparator (distance p)))|assumption].
    - destruct (sort (comparator (distance p)) (group p)) as [|h l] eqn:Es;
        [discriminate|].
      cbn in H. injection H as <-. exists h. split; [|reflexivity].
      apply (sort_In (comparator (distance p))). rewrite Es. now left. }
  destruct Hr as (r & Hin & He).
  destruct (tiers_member T dir (measure w L) config p r
              (destPriority_In _ _ Ep) Hin) as (Hm & k & Hk & Hp).
  exists T, p, r, k. auto 10.
Qed.

(** X2: whatever [navigate] returns is one of the candidates it was
    given, and one that could be measured; without a target, without
    candidates or without a measurable target it returns nothing. *)
Theorem navigate_returns_measured_candidate :
  forall (w : World) (tgt : option Elem) (dir : Direction)
         (candidates : list Elem) (config : Config),
    match navigate w tgt dir candidates config with
    | Some dest =>
        In dest candidates
        /\ getRect (getBoundingClientRect w) dest <> None
        /\ exists t, tgt = Some t /\ getRect (getBoundingClientRect w) t <> None
    | None => True
    end
    /\ navigate w None dir candidates config = None
    /\ navigate w tgt dir [] config = None
    /\ (forall t, getBoundingClientRect w t = None ->
                  navigate w (Some t) dir candidates config = None).
Proof.
  intros w tgt dir candidates config. repeat split.
  - destruct (navigate w tgt dir candidates config) as [dest|] eqn:En; [|exact I].
    destruct tgt as [cur|]; [|discriminate].
    apply navigate_winner in En.
    destruct En as (T & p & r & k & HT & _ & _ & He & Hm & _).
    apply measure_In in Hm. destruct Hm as (e & Hin & Hr).
    pose proof (getRect_element _ _ _ Hr) as He'. rewrite He in He'. subst e.
    repeat split; [assumption | congruence |].
    exists cur. split; [reflexivity | congruence].
  - destruct tgt; reflexivity.
  - intros t Ht. unfold navigate. destruct candidates; [reflexivity|].
    unfold getRect. now rewrite Ht.
Qed.

Lemma placed_onSide (T : Rect) (t : Q) (r : Rect) (dir : Direction)
    (config : Config) (k : nat) :
  In k (activeBuckets dir config) -> placed T t r k = true -> onSide dir T r.
Proof.
  unfold activeBuckets, straightBucket, cornerBuckets, Grid.TOP_LEFT,
    Grid.TOP_RIGHT, Grid.BOTTOM_LEFT, Grid.BOTTOM_RIGHT, Grid.TOP_CENTER,
    Grid.BOTTOM_CENTER, Grid.MIDDLE_LEFT, Grid.MIDDLE_RIGHT.
  unfold placed, duplicated, homeBucket, edgeAboveBelow, edgeBeside, row,
    column, onSide.
  destruct (classify_cases (x (center r)) (left T) (right T))
    as [[-> Hx]|[[-> Hx]|[-> Hx]]];
  destruct (classify_cases (y (center r)) (top T) (bottom T))
    as [[-> Hy]|[[-> Hy]|[-> Hy]]];
  destruct (truthy (straightOnly config)), dir; cbn [In];
    intros Hk; repeat destruct Hk as [<-|Hk]; try contradiction;
    cbn -[Qle_bool]; rewrite ?andb_false_r, ?orb_false_r;
    intros Hp; try discriminate; tauto.
Qed.

(** X3: the winner lies in the requested direction: its centre is
    strictly beyond the edge of the target's box that faces the
    direction. *)
Theorem navigate_winner_lies_in_direction :
  forall (w : World) (tgt : Elem) (dir : Direction) (candidates : list Elem)
         (config : Config),
    match navigate w (Some tgt) dir candidates config with
    | Some dest =>
        exists T r,
          getRect (getBoundingClientRect w) tgt = Some T
          /\ getRect (getBoundingClientRect w) dest = Some r
          /\ onSide dir T r
    | None => True
    end.
Proof.
  intros w tgt dir candidates config.
  destruct (navigate w (Some tgt) dir candidates config) as [dest|] eqn:En;
    [|exact I].
  apply navigate_winner in En.
  destruct En as (T & p & r & k & HT & _ & _ & He & Hm & Hk & Hp).
  apply measure_In in Hm. destruct Hm as (e & _ & Hr).
  pose proof (getRect_element _ _ _ Hr) as He'. rewrite He in He'. subst e.
  exists T, r. repeat split; try assumption.
  eapply placed_onSide; eassumption.
Qed.

Lemma onSide_not_centred (dir : Direction) (T : Rect) :
  centred T -> ~ onSide dir T T.
Proof.
  intros [[H1 H2] [H3 H4]]. destruct dir; cbn; lra.
Qed.

(** X4: [navigate] never answers with the element it starts from, even
    when that element is among the candidates (its box being what a
    layout engine produces). *)
Theorem navigate_never_returns_origin :
  forall (w : World) (tgt : Elem) (dir : Direction) (candidates : list Elem)
         (config : Config),
    (forall cr, getBoundingClientRect w tgt = Some cr -> wellFormed cr) ->
    navigate w (Some tgt) dir candidates config <> Some tgt.
Proof.
  intros w tgt dir candidates config Hwf En.
  apply navigate_winner in En.
  destruct En as (T & p & r & k & HT & _ & _ & He & Hm & Hk & Hp).
  apply measure_In in Hm. destruct Hm as (e & _ & Hr).
  pose proof (getRect_element _ _ _ Hr) as He'. rewrite He in He'. subst e.
  assert (r = T) by congruence. subst r.
  destruct (getBoundingClientRect w tgt) as [cr|] eqn:Ecr.
  - destruct (getRect_centre_inside_box_aux (getBoundingClientRect w) tgt cr Ecr
                (Hwf cr eq_refl)) as (r' & Hr' & Hc).
    assert (r' = T) by congruence. subst r'.
    eapply onSide_not_centred; [exact Hc|].
    eapply placed_onSide; eassumption.
  - unfold getRect in HT. rewrite Ecr in HT. discriminate.
Qed.

(** ** Tiers, comparator and sort *)

Lemma tiers_straight (T : Rect) (dir : Direction) (rects : list Rect)
    (config : Config) :
  filter (fun r => placed T (thresholdOf config) r (straightBucket dir)) rects
    <> [] ->
  exists p,
    destPriority (tiers T dir rects config) = Some p
    /\ group p
       = filter (fun r => placed T (thresholdOf config) r (straightBucket dir))
           rects.
Proof.
  rewrite tiers_placed.
  unfold straightBucket, Grid.TOP_CENTER, Grid.BOTTOM_CENTER, Grid.MIDDLE_LEFT,
    Grid.MIDDLE_RIGHT.
  destruct (truthy (straightOnly config)), dir;
    cbn [pop removelast destPriority group];
    intros Hne;
    match goal with
    | |- context [match ?l with [] => _ | _ :: _ => _ end] =>
        destruct l eqn:El; [congruence|]
    end;
    eexists; (split; [reflexivity|]); reflexivity.
Qed.

(** X5: a candidate placed in the bucket that lies straight in the
    direction keeps every candidate that is only diagonal from winning:
    the winner is then placed in the straight bucket. *)
Theorem straight_candidates_beat_diagonal :
  forall (w : World) (tgt : Elem) (dir : Direction) (candidates : list Elem)
         (config : Config) (T r : Rect),
    getRect (getBoundingClientRect w) tgt = Some T ->
    In r (measure w candidates) ->
    placed T (thresholdOf config) r (straightBucket dir) = true ->
    exists dest r',
      navigate w (Some tgt) dir candidates config = Some dest
      /\ In r' (measure w candidates)
      /\ element r' = dest
      /\ placed T (thresholdOf config) r' (straightBucket dir) = true.
Proof.
  intros w tgt dir candidates config T r HT Hr Hp.
  destruct (tiers_straight T dir (measure w candidates) config) as (p & Ep & Eg).
  { intros Hnil.
    assert (Hin : In r (filter (fun r => placed T (thresholdOf config) r
                                           (straightBucket dir))
                          (measure w candidates)))
      by (apply filter_In; auto).
    rewrite Hnil in Hin. exact Hin. }
  rewrite navigate_via_tiers, HT. unfold prioritize. rewrite Ep.
  assert (Hmem : forall r', In r' (sort (comparator (distance p)) (group p)) ->
            In r' (measure w candidates)
            /\ placed T (thresholdOf config) r' (straightBucket dir) = true).
  { intros r' H. apply sort_In in H. rewrite Eg in H. now apply filter_In in H. }
  destruct (remembered tgt dir config _) as [d|] eqn:Erem.
  - unfold remembered in Erem.
    destruct (previous config) as [prev|]; [|discriminate].
    destruct (truthy (rememberSource config) && _ && _); [|discriminate].
    apply find_element_some in Erem. destruct Erem as (-> & r' & Hin & He).
    exists (target prev), r'. destruct (Hmem r' Hin). auto.
  - destruct (sort (comparator (distance p)) (group p)) as [|h l] eqn:Es.
    + exfalso. apply destPriority_nonempty in Ep.
      destruct (group p) as [|a g]; [congruence|].
      cbn [sort] in Es. now apply insert_not_nil in Es.
    + exists (element h), h. destruct (Hmem h (or_introl eq_refl)). auto.
Qed.

(** X6: the first tier, built from a second partition of the centre
    bucket against the same target, never holds a candidate: the eight
    outer buckets of that second partition are always empty. *)
Theorem interior_tier_always_empty :
  forall (T : Rect) (dir : Direction) (rects : list Rect) (config : Config),
    (forall k, k <> Grid.MIDDLE_CENTER ->
       bucket (partition
                 (bucket (partition rects T (thresholdOf config))
                    Grid.MIDDLE_CENTER)
                 T (thresholdOf config)) k = [])
    /\ exists p rest,
         tiers T dir rects config = p :: rest /\ group p = [].
Proof.
  intros T dir rects config. split.
  - intros k Hk. now apply internalGroups_outer_empty.
  - rewrite tiers_placed.
    destruct (truthy (straightOnly config)), dir; cbn [pop removelast];
      eexists; eexists; split; reflexivity.
Qed.

Lemma comparator_refl (ds : list (Rect -> Q)) (a : Rect) :
  comparator ds a a == 0.
Proof.
  pose proof (comparator_antisym ds a a). lra.
Qed.

Lemma comparator_trans_le (ds : list (Rect -> Q)) (a b c : Rect) :
  comparator ds a b <= 0 -> comparator ds b c <= 0 -> comparator ds a c <= 0.
Proof.
  intros H1 H2.
  pose proof (comparator_antisym ds a b).
  pose proof (comparator_antisym ds b c).
  pose proof (comparator_antisym ds a c).
  assert (0 <= comparator ds c a) by (apply (comparator_trans ds c b a); lra).
  lra.
Qed.

(** X7: the comparator handed to [sort] is a consistent comparison: it is
    zero on equal arguments, antisymmetric and transitive, and it orders
    two rectangles by the first metric of the tier that tells them
    apart. *)
Theorem comparator_is_consistent :
  forall (destDistance : list (Rect -> Q)) (a b c : Rect),
    comparator destDistance a a == 0
    /\ comparator destDistance a b == - comparator destDistance b a
    /\ (comparator destDistance a b <= 0 -> comparator destDistance b c <= 0 ->
        comparator destDistance a c <= 0)
    /\ (comparator destDistance a b < 0 <->
        exists before d after,
          destDistance = before ++ d :: after
          /\ (forall d', In d' before -> d' a == d' b)
          /\ d a < d b).
Proof.
  intros ds a b c. repeat split.
  - apply comparator_refl.
  - apply comparator_antisym.
  - apply comparator_trans_le.
  - apply (comparator_first_difference ds a b).
  - apply (comparator_first_difference ds a b).
Qed.

Lemma insert_perm (cmp : Rect -> Rect -> Q) (a : Rect) (l : list Rect) :
  Permutation (a :: l) (insert cmp a l).
Proof.
  induction l as [|b l IH]; cbn [insert]; [reflexivity|].
  destruct (Qlt_bool (cmp b a) 0); [|reflexivity].
  rewrite perm_swap. now constructor.
Qed.

Lemma sort_perm (cmp : Rect -> Rect -> Q) (l : list Rect) :
  Permutation l (sort cmp l).
Proof.
  induction l as [|a l IH]; cbn [sort]; [constructor|].
  rewrite <- insert_perm. now constructor.
Qed.

Lemma insert_ordered (ds : list (Rect -> Q)) (a : Rect) (l : list Rect) :
  ordered (comparator ds) l -> ordered (comparator ds) (insert (comparator ds) a l).
Proof.
  unfold ordered. induction l as [|b l IH]; intros Hs; cbn [insert].
  - repeat constructor.
  - apply Sorted.StronglySorted_inv in Hs. destruct Hs as [Hs Hb].
    destruct (Qlt_bool (comparator ds b a) 0) eqn:E.
    + apply Qlt_bool_iff in E. constructor; [auto|].
      rewrite Forall_forall in *. intros r Hr.
      apply insert_In in Hr. destruct Hr as [->|Hr]; [lra|auto].
    + apply Qlt_bool_false_iff in E.
      assert (Hab : comparator ds a b <= 0)
        by (pose proof (comparator_antisym ds a b); lra).
      constructor; [now constructor|].
      constructor; [assumption|].
      rewrite Forall_forall in *. intros r Hr.
      eapply comparator_trans_le; eauto.
Qed.

Lemma sort_ordered (ds : list (Rect -> Q)) (l : list Rect) :
  ordered (comparator ds) (sort (comparator ds) l).
Proof.
  induction l as [|a l IH]; cbn [sort].
  - constructor.
  - now apply insert_ordered.
Qed.

(** X8: [prioritize] answers with the first group that is not empty,
    rearranged in the order of that tier's comparator, and with nothing
    when every group is empty; what it returns is never empty. *)
Theorem prioritize_sorts_first_nonempty_group :
  forall (priorities : list Priority),
    match prioritize priorities with
    | Some destGroup =>
        exists before p after,
          priorities = before ++ p :: after
          /\ (forall q, In q before -> group q = [])
          /\ group p <> []
          /\ Permutation (group p) destGroup
          /\ ordered (comparator (distance p)) destGroup
          /\ destGroup <> []
    | None => forall q, In q priorities -> group q = []
    end.
Proof.
  intros ps. unfold prioritize.
  destruct (destPriority ps) as [p|] eqn:Ep.
  - pose proof (prioritize_not_nil ps (sort (comparator (distance p)) (group p)))
      as Hne.
    unfold prioritize in Hne. rewrite Ep in Hne. specialize (Hne eq_refl).
    apply destPriority_first in Ep.
    destruct Ep as (before & after & -> & Hb & Hp).
    exists before, p, after. repeat split; auto.
    + apply sort_perm.
    + apply sort_ordered.
  - apply destPriority_none in Ep. rewrite Forall_forall in Ep. exact Ep.
Qed.

(** ** [extend] *)

Lemma orElse_assoc {A} (a b c : option A) :
  orElse c (orElse b a) = orElse (orElse c b) a.
Proof. destruct c, b, a; reflexivity. Qed.

Lemma orElse_None_r {A} (a : option A) : orElse a None = a.
Proof. destruct a; reflexivity. Qed.

Lemma orElse_idem {A} (a : option A) : orElse a a = a.
Proof. destruct a; reflexivity. Qed.

Lemma extend_laterWins {A} (field : Config -> option A) (a b : Config) :
  field (extend a b) = orElse (field b) (field a) -> laterWins field a b.
Proof.
  intros H. unfold laterWins. rewrite H. split.
  - now intros v ->.
  - now intros ->.
Qed.

(** X9: merging configurations whose properties are undefined or hold a
    value is associative, the empty object is neutral on both sides,
    and merging a configuration with itself changes nothing; every
    property that the later source defines wins, and every property it
    leaves undefined is taken from the earlier source. *)
Theorem extend_is_a_monoid :
  forall (a b c : Config),
    extend (extend a b) c = extend a (extend b c)
    /\ extend emptyConfig a = a
    /\ extend a emptyConfig = a
    /\ extend a a = a
    /\ laterWins id a b
    /\ laterWins selector a b
    /\ laterWins straightOnly a b
    /\ laterWins straightOverlapThreshold a b
    /\ laterWins rememberSource a b
    /\ laterWins disabled a b
    /\ laterWins defaultElement a b
    /\ laterWins enterTo a b
    /\ laterWins leaveFor a b
    /\ laterWins restrict a b
    /\ laterWins tabIndexIgnoreList a b
    /\ laterWins navigableFilter a b
    /\ laterWins sectionPrefix a b
    /\ laterWins eventPrefix a b
    /\ laterWins lastFocusedElement a b
    /\ laterWins previous a b.
Proof.
  intros a b c.
  split; [unfold extend; cbn; now rewrite !orElse_assoc|].
  split; [destruct a; unfold extend; cbn; now rewrite !orElse_None_r|].
  split; [destruct a; reflexivity|].
  split; [destruct a; unfold extend; cbn; now rewrite !orElse_idem|].
  repeat split; apply extend_laterWins; reflexivity.
Qed.

(** ** The overlap threshold *)

Lemma navigate_threshold (w : World) (tgt : option Elem) (dir : Direction)
    (candidates : list Elem) (c : Config) (t t' : option Q) :
  thresholdOf (with_threshold t c) = thresholdOf (with_threshold t' c) ->
  navigate w tgt dir candidates (with_threshold t c)
  = navigate w tgt dir candidates (with_threshold t' c).
Proof.
  intros H. unfold navigate, tiers, remembered. rewrite H. reflexivity.
Qed.

(** X10: a [straightOverlapThreshold] of zero cannot be configured:
    [navigate] treats it as the default of one half, as it treats a
    missing threshold. *)
Theorem zero_threshold_is_the_default :
  forall (w : World) (tgt : option Elem) (dir : Direction)
         (candidates : list Elem) (config : Config),
    thresholdOf (with_threshold (Some 0) config) = 1 # 2
    /\ navigate w tgt dir candidates (with_threshold (Some 0) config)
       = navigate w tgt dir candidates (with_threshold (Some (1 # 2)) config)
    /\ navigate w tgt dir candidates (with_threshold None config)
       = navigate w tgt dir candidates (with_threshold (Some (1 # 2)) config).
Proof.
  intros. repeat split; try reflexivity; now apply navigate_threshold.
Qed.

(** ** strategies.ts *)

(** X11: the strategy objects of strategies.ts build, for every direction,
    the tiers that the [switch] of [navigate] builds; each strategy is
    filed under its own direction and every direction has one. *)
Theorem strategies_agree_with_navigate :
  forall (dir : Direction) (groups internalGroups : list (list Rect))
         (df : DistanceFunctions),
    buildPrioritiesForDirection dir groups internalGroups df
    = Some (priorities_of dir groups internalGroups df)
    /\ (exists strategy,
          getStrategy dir = Some strategy /\ direction strategy = dir)
    /\ List.length (priorities_of dir groups internalGroups df) = 3%nat.
Proof.
  intros dir groups internalGroups df. repeat split.
  - unfold buildPrioritiesForDirection, getStrategy.
    now rewrite priorities_of_strategy.
  - exists (navigationStrategies dir). split; [reflexivity|].
    destruct dir; reflexivity.
  - destruct dir; reflexivity.
Qed.

(* ================================================================== *)
(** * What the focus state machine preserves *)

(** ** The shape of [focusElement] *)

Lemma with_during_id (e : Engine) (b : bool) :
  _duringFocusChange e = b -> with_duringFocusChange b e = e.
Proof. destruct e; cbn; intros <-; reflexivity. Qed.

Lemma state_eta (s : State) :
  mkState (engine s) (activeElement s) (events s) = s.
Proof. destruct s; reflexivity. Qed.

Lemma focusChanged_pair (w : World) (elem : Elem) (sid : option string)
    (s : State) :
  focusChanged w elem sid s = (tt, snd (focusChanged w elem sid s)).
Proof.
  destruct (focusChanged w elem sid s) as [[] s']. reflexivity.
Qed.

Lemma focusChanged_during (w : World) (elem : Elem) (sid : option string)
    (e : Engine) (a : option Elem) (evs : list Event) (b : bool) :
  snd (focusChanged w elem sid (mkState (with_duringFocusChange b e) a evs))
  = onEngine (with_duringFocusChange b)
      (snd (focusChanged w elem sid (mkState e a evs))).
Proof.
  unfold focusChanged, getSectionId. cbn.
  destruct (nonEmpty match nonEmpty sid with
                     | Some i => Some i
                     | None => firstSection w elem (_sections e)
                     end); reflexivity.
Qed.

(** [focusElement] either carries the focus change out -- silently when
    the engine is paused or inside a focus change -- or, neither paused
    nor inside a focus change, gives it up after a veto, the engine
    variables being what they were. *)
Lemma focusElement_shape (w : World) (elem : Elem) (sid : option string)
    (dir : option Direction) (s : State) :
  let r := focusElement w (Some elem) sid dir s in
  exists evs,
    (_pause (engine s) = true \/ _duringFocusChange (engine s) = true ->
     evs = [])
    /\ ((fst r = true /\ snd r = afterFocus w elem sid evs s)
        \/ (fst r = false
            /\ _pause (engine s) = false
            /\ _duringFocusChange (engine s) = false
            /\ exists a, snd r = mkState (engine s) a (evs ++ events s))).
Proof.
  unfold focusElement, afterFocus.
  unfold bind, gets, ret, getCurrentFocusedElement, setDuringFocusChange,
    modifyEngine, dispatch, blur, focus_.
  cbn -[focusChanged].
  destruct (_duringFocusChange (engine s)) eqn:Hd.
  - exists []. split; [reflexivity|]. left.
    destruct (activeElement s); cbn -[focusChanged];
      rewrite (focusChanged_pair w elem sid); cbn -[focusChanged]; auto.
  - cbn -[focusChanged].
    destruct (_pause (engine s)) eqn:Hp.
    + exists []. split; [reflexivity|]. left.
      assert (Hgoal :
        forall a0,
          (let (_, s') :=
             focusChanged w elem sid
               (mkState (with_duringFocusChange true (engine s)) a0 (events s)) in
           (true,
            mkState (with_duringFocusChange false (engine s')) (activeElement s')
              (events s')))
          = (true, snd (focusChanged w elem sid (mkState (engine s) a0 (events s))))).
      { intros a0. rewrite (focusChanged_pair w elem sid).
        rewrite focusChanged_during.
        pose proof (focusChanged_frame w elem sid (mkState (engine s) a0 (events s)))
          as (_ & F2 & _).
        cbn [engine] in F2. rewrite Hd in F2.
        destruct (snd (focusChanged w elem sid (mkState (engine s) a0 (events s))))
          as [e' a' evs'].
        destruct e'. cbn in *. subst. reflexivity. }
      destruct (activeElement s); cbn -[focusChanged];
        rewrite Hgoal; cbn -[focusChanged]; auto.
    + assert (He : with_duringFocusChange false
                     (with_duringFocusChange true (engine s)) = engine s)
        by (apply (with_during_id (engine s) false Hd)).
      destruct (activeElement s) as [cur|] eqn:Ea; cbn -[focusChanged].
      * destruct (dispatchEvent w cur willunfocus _) eqn:E1; cbn -[focusChanged].
        -- destruct (dispatchEvent w elem willfocus _) eqn:E2; cbn -[focusChanged].
           ++ eexists [_; _; _; _]. split; [intros [|]; discriminate|]. left.
              rewrite He. rewrite (focusChanged_pair w elem sid).
              cbn -[focusChanged]. auto.
           ++ eexists [_; _; _]. split; [intros [|]; discriminate|]. right.
              rewrite He. repeat split. exists None. reflexivity.
        -- eexists [_]. split; [intros [|]; discriminate|]. right.
           rewrite He. repeat split. exists (Some cur). reflexivity.
      * destruct (dispatchEvent w elem willfocus _) eqn:E2; cbn -[focusChanged].
        -- eexists [_; _]. split; [intros [|]; discriminate|]. left.
           rewrite He. rewrite (focusChanged_pair w elem sid).
           cbn -[focusChanged]. auto.
        -- eexists [_]. split; [intros [|]; discriminate|]. right.
           rewrite He. repeat split. exists None. reflexivity.
Qed.

(** ** Registered section ids *)

Lemma firstSection_registered (w : World) (elem : Elem)
    (secs : list (string * Config)) (i : string) :
  firstSection w elem secs = Some i -> lookup i secs <> None.
Proof.
  intros H. apply lookup_In_keys. unfold keys.
  induction secs as [|[k c] secs IH]; cbn [firstSection map fst] in *;
    [discriminate|].
  destruct (negb (truthy (disabled c)) && matchSelector w (Some elem) (selector c)).
  - injection H as ->. now left.
  - right. auto.
Qed.

Lemma getSectionId_registered (w : World) (e : Engine) (elem : Elem) :
  registeredOrNone e (getSectionId w e elem).
Proof.
  intros i Hi. unfold nonEmpty in Hi.
  destruct (getSectionId w e elem) as [j|] eqn:Ej; [|discriminate].
  destruct (String.eqb j ""); [discriminate|]. injection Hi as ->.
  now apply (firstSection_registered w elem).
Qed.

Lemma registeredOrNone_keys (e e' : Engine) (sid : option string) :
  keys (_sections e') = keys (_sections e) ->
  registeredOrNone e sid -> registeredOrNone e' sid.
Proof.
  intros Hk H i Hi. apply lookup_In_keys. rewrite Hk.
  apply lookup_In_keys. auto.
Qed.

Lemma registeredOrNone_Some (e : Engine) (i : string) :
  lookup i (_sections e) <> None -> registeredOrNone e (Some i).
Proof.
  intros H j Hj. unfold nonEmpty in Hj.
  destruct (String.eqb i ""); [discriminate|]. now injection Hj as <-.
Qed.

Lemma addRange_registered (e : Engine) (range : list string) (sid : string) :
  Forall (fun i => lookup i (_sections e) <> None) range ->
  Forall (fun i => lookup i (_sections e) <> None) (addRange e range sid).
Proof.
  intros H. unfold addRange.
  destruct (nonEmpty (Some sid)); [|assumption].
  destruct (existsb (String.eqb sid) range); [assumption|].
  destruct (lookup sid (_sections e)) as [sec|] eqn:El; [|assumption].
  destruct (truthy (disabled sec)); [assumption|].
  apply Forall_app. split; [assumption|]. constructor; [congruence|constructor].
Qed.

Lemma fold_addRange_registered (e : Engine) (ids range : list string) :
  Forall (fun i => lookup i (_sections e) <> None) range ->
  Forall (fun i => lookup i (_sections e) <> None)
    (fold_left (addRange e) ids range).
Proof.
  revert range. induction ids as [|i ids IH]; intros range H; cbn; [assumption|].
  apply IH. now apply addRange_registered.
Qed.

(** The range [focusSection] walks through holds registered ids only. *)
Lemma focusSection_range (w : World) (sid : option string) (s : State) :
  exists range,
    Forall (fun i => lookup i (_sections (engine s)) <> None) range
    /\ focusSection w sid s
       = (false,
          snd (forEach range
                 (fun sec =>
                    e <- gets engine ;;
                    match entryElement w e sec with
                    | Some next => focusElement w (Some next) (Some sec) None
                    | None => ret false
                    end) s)).
Proof.
  unfold focusSection. unfold bind at 1 2. unfold gets at 1.
  match goal with
  | |- context [forEach ?range ?body s] =>
      exists range; destruct (forEach range body s) as [u s']
  end.
  split; [|reflexivity].
  destruct (nonEmpty sid).
  - apply addRange_registered. constructor.
  - apply fold_addRange_registered.
    do 2 apply addRange_registered. constructor.
Qed.

Lemma isNavigable_registered (w : World) (e : Engine) (elem : option Elem)
    (sid : option string) (v : bool) :
  isNavigable w e elem sid v = true -> registeredOrNone e sid.
Proof.
  unfold isNavigable. intros H i Hi. rewrite Hi in H.
  destruct elem; [|discriminate].
  destruct (lookup i (_sections e)); [discriminate|discriminate].
Qed.

(** ** A relation kept by [focusElement] is kept by all that is built
       on it *)

Section Preservation.

Variable w : World.
Variable R : State -> State -> Prop.

Hypothesis R_refl : forall s, R s s.
Hypothesis R_trans : forall s1 s2 s3, R s1 s2 -> R s2 s3 -> R s1 s3.
Hypothesis R_keys :
  forall s s', R s s' ->
    keys (_sections (engine s')) = keys (_sections (engine s)).
Hypothesis R_focus :
  forall elem sid dir s,
    registeredOrNone (engine s) sid ->
    R s (snd (focusElement w (Some elem) sid dir s)).

Lemma preserved_focusElement (elem : option Elem) (sid : option string)
    (dir : option Direction) (s : State) :
  registeredOrNone (engine s) sid ->
  R s (snd (focusElement w elem sid dir s)).
Proof.
  destruct elem; [apply R_focus | intros; apply R_refl].
Qed.

Lemma preserved_forEach {A B} (body : A -> M B) (l : list A) (s0 : State) :
  (forall a s, In a l -> R s0 s -> R s0 (snd (body a s))) ->
  forall s, R s0 s -> R s0 (snd (forEach l body s)).
Proof.
  induction l as [|a l IH]; intros Hbody s Hs; [exact Hs|].
  cbn [forEach]. unfold bind.
  pose proof (Hbody a s (or_introl eq_refl) Hs) as H1.
  destruct (body a s) as [b s1]. cbn [snd] in H1.
  apply IH; [|exact H1].
  intros a' s' Ha'. apply Hbody. now right.
Qed.

Lemma preserved_focusSection (sid : option string) (s : State) :
  R s (snd (focusSection w sid s)).
Proof.
  destruct (focusSection_range w sid s) as (range & Hreg & ->).
  cbn [snd]. apply preserved_forEach; [|apply R_refl].
  intros sec s1 Hin Hs1. unfold bind, gets.
  destruct (entryElement w (engine s1) sec) as [next|]; [|exact Hs1].
  eapply R_trans; [exact Hs1|]. apply R_focus.
  apply registeredOrNone_Some.
  rewrite Forall_forall in Hreg. specialize (Hreg sec Hin).
  apply lookup_In_keys. rewrite (R_keys _ _ Hs1). now apply lookup_In_keys.
Qed.

Lemma preserved_focusExtendedSelector (sel : string) (dir : option Direction)
    (s : State) :
  R s (snd (focusExtendedSelector w sel dir s)).
Proof.
  assert (Hplain :
    R s
      (snd (match hd_error (parseSelector w (Some (SelStr sel))) with
            | Some next =>
                e <- gets engine ;;
                (let nextSectionId := getSectionId w e next in
                 if isNavigable w e (Some next) nextSectionId false
                 then focusElement w (Some next) nextSectionId dir
                 else ret false)
            | None => ret false
            end s))).
  { destruct (hd_error (parseSelector w (Some (SelStr sel)))) as [next|];
      [|apply R_refl].
    unfold bind, gets.
    destruct (isNavigable w (engine s) (Some next)
                (getSectionId w (engine s) next) false) eqn:En; [|apply R_refl].
    apply R_focus. apply getSectionId_registered. }
  unfold focusExtendedSelector.
  destruct sel as [|c rest]; [exact Hplain|].
  destruct c as [[] [] [] [] [] [] [] []]; try exact Hplain.
  destruct rest; apply preserved_focusSection.
Qed.

Lemma preserved_gotoLeaveFor (sid : string) (dir : Direction) (s : State) :
  R s (snd (gotoLeaveFor w sid dir s)).
Proof.
  unfold gotoLeaveFor, bind, gets, ret.
  destruct (truthySel (leaveForEntry (engine s) sid dir)); [|apply R_refl].
  destruct (leaveForEntry (engine s) sid dir) as [[str|el]|]; [| |apply R_refl].
  - destruct (String.eqb str ""); [apply R_refl|].
    pose proof (preserved_focusExtendedSelector str (Some dir) s) as H.
    destruct (focusExtendedSelector w str (Some dir) s) as [b s']. exact H.
  - destruct (isNavigable w (engine s) (Some el)
                (getSectionId w (engine s) el) false); [|apply R_refl].
    pose proof (R_focus el (getSectionId w (engine s) el) (Some dir) s
                  (getSectionId_registered w (engine s) el)) as H.
    destruct (focusElement w (Some el) _ (Some dir) s) as [b s']. exact H.
Qed.

(** The dispatch on the first argument of [focus]. *)
Lemma preserved_focus_target (elem : FocusTarget) (s1 : State) :
  R s1
    (snd (match elem with
          | NoTarget => focusSection w None s1
          | TargetString str =>
              if String.eqb str "" then focusSection w None s1
              else match lookup str (_sections (engine s1)) with
                   | Some _ => focusSection w (Some str) s1
                   | None => focusExtendedSelector w str None s1
                   end
          | TargetElement el =>
              let nextSectionId := getSectionId w (engine s1) el in
              if isNavigable w (engine s1) (Some el) nextSectionId false
              then focusElement w (Some el) nextSectionId None s1
              else (false, s1)
          end)).
Proof.
  destruct elem as [|str|el].
  - apply preserved_focusSection.
  - destruct (String.eqb str ""); [apply preserved_focusSection|].
    destruct (lookup str (_sections (engine s1)));
      [apply preserved_focusSection | apply preserved_focusExtendedSelector].
  - cbn zeta.
    destruct (isNavigable w (engine s1) (Some el)
                (getSectionId w (engine s1) el) false); [|apply R_refl].
    apply R_focus. apply getSectionId_registered.
Qed.

Hypothesis R_event : forall s ev, R s (addEvent ev s).

Lemma preserved_fireNavigateFailed (elem : Elem) (dir : Direction) (s : State) :
  R s (snd (fireNavigateFailed w elem dir s)).
Proof. apply (R_event s). Qed.

(** [focusNext], from the state in which it has recorded its geometric
    winner. *)
Lemma preserved_focusNext_recorded (dir : Direction) (cur : Elem) (sid : string)
    (s : State) :
  R (match getAttribute_data_sn w cur dir,
           searchNext w (engine s) dir cur sid with
     | None, Some next =>
         mkState (recordPrevious (engine s) sid cur next dir)
           (activeElement s) (events s)
     | _, _ => s
     end)
    (snd (focusNext w dir cur sid s)).
Proof.
  destruct (focusNext w dir cur sid s) as [b s'] eqn:Hrun. cbn [snd].
  unfold focusNext in Hrun.
  destruct (getAttribute_data_sn w cur dir) as [ext|].
  - destruct (String.eqb ext "").
    + rewrite fire_then_false in Hrun. injection Hrun as <- <-.
      apply preserved_fireNavigateFailed.
    + unfold bind at 1 in Hrun.
      pose proof (preserved_focusExtendedSelector ext (Some dir) s) as H.
      destruct (focusExtendedSelector w ext (Some dir) s) as [ok s1].
      cbn [snd] in H. destruct ok.
      * injection Hrun as <- <-. exact H.
      * rewrite fire_then_false in Hrun. injection Hrun as <- <-.
        eapply R_trans; [exact H|]. apply preserved_fireNavigateFailed.
  - unfold bind at 1 in Hrun. unfold gets at 1 in Hrun.
    destruct (searchNext w (engine s) dir cur sid) as [next|].
    + unfold bind at 1 in Hrun. unfold modifyEngine at 1 in Hrun.
      fold (recordPrevious (engine s) sid cur next dir) in Hrun.
      set (s1 := mkState (recordPrevious (engine s) sid cur next dir)
                   (activeElement s) (events s)) in *.
      unfold bind at 1 in Hrun. unfold gets at 1 in Hrun.
      destruct (negb (optStringEqb sid (getSectionId w (engine s1) next))).
      * unfold bind at 1 in Hrun.
        pose proof (preserved_gotoLeaveFor sid dir s1) as H.
        destruct (gotoLeaveFor w sid dir s1) as [result s2].
        cbn [snd] in H.
        destruct result as [[|]|].
        -- injection Hrun as <- <-. exact H.
        -- unfold bind at 1 in Hrun. unfold gets at 1 in Hrun.
           match type of Hrun with
           | focusElement w ?el ?i ?d s2 = _ =>
               pose proof (preserved_focusElement el i d s2) as H2
           end.
           rewrite Hrun in H2. cbn [snd] in H2.
           eapply R_trans; [exact H|].
           apply H2.
           eapply registeredOrNone_keys; [|apply getSectionId_registered].
           exact (R_keys _ _ H).
        -- rewrite fire_then_false in Hrun. injection Hrun as <- <-.
           eapply R_trans; [exact H|].
           apply preserved_fireNavigateFailed.
      * pose proof (preserved_focusElement (Some next)
                      (getSectionId w (engine s1) next) (Some dir) s1
                      (getSectionId_registered w (engine s1) next)) as H2.
        rewrite Hrun in H2. exact H2.
    + unfold bind at 1 in Hrun.
      pose proof (preserved_gotoLeaveFor sid dir s) as H.
      destruct (gotoLeaveFor w sid dir s) as [result s2].
      cbn [snd] in H.
      destruct result as [[|]|].
      * injection Hrun as <- <-. exact H.
      * rewrite fire_then_false in Hrun. injection Hrun as <- <-.
        eapply R_trans; [exact H|]. apply preserved_fireNavigateFailed.
      * rewrite fire_then_false in Hrun. injection Hrun as <- <-.
        eapply R_trans; [exact H|]. apply preserved_fireNavigateFailed.
Qed.

Hypothesis R_previous :
  forall s sid cur next dir,
    R s (mkState (recordPrevious (engine s) sid cur next dir)
           (activeElement s) (events s)).

Lemma preserved_focusNext (dir : Direction) (cur : Elem) (sid : string)
    (s : State) :
  R s (snd (focusNext w dir cur sid s)).
Proof.
  pose proof (preserved_focusNext_recorded dir cur sid s) as H.
  destruct (getAttribute_data_sn w cur dir); [exact H|].
  destruct (searchNext w (engine s) dir cur sid) as [next|]; [|exact H].
  eapply R_trans; [apply R_previous | exact H].
Qed.

Lemma preserved_move (dir : Direction) (sel : option Sel) (s : State) :
  R s (snd (move w dir sel s)).
Proof.
  unfold move.
  destruct (if truthySel sel then hd_error (parseSelector w sel)
            else activeElement s) as [elem|]; [|apply R_refl].
  destruct (nonEmpty (getSectionId w (engine s) elem)) as [sectionId|];
    [|apply R_refl].
  unfold dispatch.
  match goal with
  | |- context [mkEvent elem willmove ?d] =>
      pose proof (R_event s (mkEvent elem willmove d)) as H0;
      set (s1 := mkState (engine s) (activeElement s)
                   (mkEvent elem willmove d :: events s)) in *
  end.
  destruct (dispatchEvent w elem willmove _); [|exact H0].
  pose proof (preserved_focusNext dir elem sectionId s1) as H.
  destruct (focusNext w dir elem sectionId s1) as [b s2]. cbn [snd] in *.
  eapply R_trans; eassumption.
Qed.

Lemma preserved_onKeyDown (evt : KeyboardEvent) (s : State) :
  R s (snd (onKeyDown w evt s)).
Proof.
  unfold onKeyDown. unfold bind at 1. unfold gets at 1.
  destruct ((_sectionCount (engine s) =? 0)%Z || _pause (engine s)
            || altKey evt || ctrlKey evt || metaKey evt || shiftKey evt);
    [apply R_refl|].
  destruct (KEYMAPPING (keyCode evt)) as [direction|].
  - unfold bind at 1. unfold getCurrentFocusedElement, gets at 1.
    destruct (match activeElement s with
              | Some cur => Some cur
              | None =>
                  match nonEmpty (Some (_lastSectionId (engine s))) with
                  | Some lastSectionId =>
                      getSectionLastFocusedElement w (engine s) lastSectionId
                  | None => None
                  end
              end) as [cur|].
    + destruct (nonEmpty (getSectionId w (engine s) cur)) as [sid|];
        [|apply R_refl].
      unfold bind at 1. unfold dispatch at 1.
      match goal with
      | |- context [mkEvent cur willmove ?d] =>
          pose proof (R_event s (mkEvent cur willmove d)) as H0;
          set (s1 := mkState (engine s) (activeElement s)
                       (mkEvent cur willmove d :: events s)) in *
      end.
      destruct (dispatchEvent w cur willmove _).
      * unfold bind, ret.
        pose proof (preserved_focusNext direction cur sid s1) as H.
        destruct (focusNext w direction cur sid s1) as [b s2]. cbn [snd] in *.
        eapply R_trans; eassumption.
      * exact H0.
    + unfold bind, ret.
      pose proof (preserved_focusSection None s) as H.
      destruct (focusSection w None s) as [b s2]. exact H.
  - destruct (keyCode evt =? 13)%Z; [|apply R_refl].
    unfold bind at 1. unfold getCurrentFocusedElement, gets at 1.
    destruct (activeElement s) as [cur|]; [|apply R_refl].
    destruct (nonEmpty (getSectionId w (engine s) cur)); [|apply R_refl].
    unfold bind, dispatch, ret.
    destruct (dispatchEvent w cur enter_down noDetail); apply (R_event s).
Qed.

Lemma preserved_onKeyUp (evt : KeyboardEvent) (s : State) :
  R s (snd (onKeyUp w evt s)).
Proof.
  unfold onKeyUp.
  destruct (altKey evt || ctrlKey evt || metaKey evt || shiftKey evt);
    [apply R_refl|].
  unfold bind at 1. unfold gets at 1.
  destruct (negb (_pause (engine s)) && negb (_sectionCount (engine s) =? 0)%Z
            && (keyCode evt =? 13)%Z); [|apply R_refl].
  unfold bind at 1. unfold getCurrentFocusedElement, gets at 1.
  destruct (activeElement s) as [cur|]; [|apply R_refl].
  destruct (nonEmpty (getSectionId w (engine s) cur)); [|apply R_refl].
  unfold bind, dispatch, ret.
  destruct (dispatchEvent w cur enter_up noDetail); apply (R_event s).
Qed.

End Preservation.

(* ================================================================== *)
(** * Navigation and the registry *)

(** ** More facts about dictionaries *)

Section DictionaryFacts2.
Context {V : Type}.
Implicit Types (obj : list (string * V)) (key k : string) (v : V).

Lemma lookup_replace_other key k v obj :
  k <> key -> lookup k (replace key v obj) = lookup k obj.
Proof.
  intros Hk. induction obj as [|[k' v'] obj IH]; cbn; [reflexivity|].
  destruct (String.eqb k' key) eqn:E; cbn.
  - apply String.eqb_eq in E. subst k'.
    destruct (String.eqb key k) eqn:E'; [|reflexivity].
    apply String.eqb_eq in E'. congruence.
  - now rewrite IH.
Qed.

Lemma lookup_insertIndex_other n key k v obj :
  k <> key -> lookup k (insertIndex n key v obj) = lookup k obj.
Proof.
  intros Hk.
  assert (Hne : String.eqb key k = false)
    by (apply String.eqb_neq; congruence).
  induction obj as [|[k' v'] obj IH]; cbn.
  - now rewrite Hne.
  - destruct (arrayIndex k') as [m|]; [destruct (m <? n)%N|]; cbn;
      rewrite ?Hne, ?IH; reflexivity.
Qed.

Lemma lookup_app_other key k v obj :
  k <> key -> lookup k (obj ++ [(key, v)]) = lookup k obj.
Proof.
  intros Hk.
  assert (Hne : String.eqb key k = false)
    by (apply String.eqb_neq; congruence).
  induction obj as [|[k' v'] obj IH]; cbn.
  - now rewrite Hne.
  - now rewrite IH.
Qed.

Lemma lookup_assign_other key k v obj :
  k <> key -> lookup k (assign key v obj) = lookup k obj.
Proof.
  intros Hk. unfold assign. destruct (lookup key obj).
  - now apply lookup_replace_other.
  - destruct (arrayIndex key).
    + now apply lookup_insertIndex_other.
    + now apply lookup_app_other.
Qed.

Lemma lookup_delete_other key k obj :
  k <> key -> lookup k (delete key obj) = lookup k obj.
Proof.
  intros Hk. induction obj as [|[k' v'] obj IH]; cbn; [reflexivity|].
  destruct (String.eqb k' key) eqn:E; cbn.
  - apply String.eqb_eq in E. subst k'.
    destruct (String.eqb key k) eqn:E'; [|reflexivity].
    apply String.eqb_eq in E'. congruence.
  - now rewrite IH.
Qed.

Lemma delete_insertIndex n key v obj :
  lookup key obj = None -> delete key (insertIndex n key v obj) = obj.
Proof.
  induction obj as [|[k' v'] obj IH]; cbn.
  - now rewrite String.eqb_refl.
  - destruct (String.eqb k' key) eqn:E; [discriminate|]. intros H.
    destruct (arrayIndex k') as [m|]; [destruct (m <? n)%N|]; cbn;
      rewrite ?E, ?String.eqb_refl, ?IH; auto.
Qed.

Lemma delete_app_new key v obj :
  lookup key obj = None -> delete key (obj ++ [(key, v)]) = obj.
Proof.
  induction obj as [|[k' v'] obj IH]; cbn.
  - now rewrite String.eqb_refl.
  - destruct (String.eqb k' key); [discriminate|]. intros H. now rewrite IH.
Qed.

Lemma delete_assign_new key v obj :
  lookup key obj = None -> delete key (assign key v obj) = obj.
Proof.
  intros H. unfold assign. rewrite H.
  destruct (arrayIndex key);
    [now apply delete_insertIndex | now apply delete_app_new].
Qed.

Lemma delete_replace key v obj :
  delete key (replace key v obj) = delete key obj.
Proof.
  induction obj as [|[k' v'] obj IH]; cbn; [reflexivity|].
  destruct (String.eqb k' key) eqn:E; cbn; rewrite E; [reflexivity|].
  now rewrite IH.
Qed.

End DictionaryFacts2.

Lemma lookup_updateSection_registered (sid i : string) (f : Config -> Config)
    (secs : list (string * Config)) :
  lookup i secs <> None -> lookup i (updateSection sid f secs) <> None.
Proof.
  intros H. apply lookup_In_keys. rewrite keys_updateSection.
  now apply lookup_In_keys.
Qed.

(** ** [sameRegistry] and [flagsKept] *)

Lemma configured_updateSection (sid : string) (f : Config -> Config)
    (secs : list (string * Config)) :
  (forall c, configured (f c) = configured c) ->
  map (fun kv => (fst kv, configured (snd kv))) (updateSection sid f secs)
  = map (fun kv => (fst kv, configured (snd kv))) secs.
Proof.
  intros Hf. unfold updateSection.
  destruct (lookup sid secs) as [sec|] eqn:El; [|reflexivity].
  revert El. induction secs as [|[k c] secs IH]; cbn [lookup replace map fst snd];
    [reflexivity|].
  destruct (String.eqb k sid) eqn:E.
  - intros [= ->]. cbn [map fst snd]. now rewrite Hf.
  - intros El. cbn [map fst snd]. f_equal. auto.
Qed.

Lemma sameRegistry_refl (e : Engine) : sameRegistry e e.
Proof. unfold sameRegistry. tauto. Qed.

Lemma sameRegistry_trans (e1 e2 e3 : Engine) :
  sameRegistry e1 e2 -> sameRegistry e2 e3 -> sameRegistry e1 e3.
Proof.
  unfold sameRegistry. intros H1 H2.
  destruct H1 as (A1 & A2 & A3 & A4 & A5 & A6 & A7 & A8).
  destruct H2 as (B1 & B2 & B3 & B4 & B5 & B6 & B7 & B8).
  repeat split; congruence.
Qed.

Lemma sameRegistry_keys (e e' : Engine) :
  sameRegistry e e' -> keys (_sections e') = keys (_sections e).
Proof.
  intros (_ & _ & _ & _ & _ & _ & _ & H). unfold keys.
  apply (f_equal (map fst)) in H. rewrite !map_map in H. exact H.
Qed.

Lemma sameRegistry_lookup (e e' : Engine) (sid : string) :
  sameRegistry e e' ->
  option_map configured (lookup sid (_sections e'))
  = option_map configured (lookup sid (_sections e)).
Proof.
  intros (_ & _ & _ & _ & _ & _ & _ & H).
  revert H. generalize (_sections e). generalize (_sections e').
  induction l as [|[k c] l IH]; intros [|[k' c'] l'];
    cbn [map fst snd lookup]; try discriminate; [reflexivity|].
  intros H.
  assert (Hk : k = k')
    by exact (f_equal (fun m => match m with x :: _ => fst x | [] => k end) H).
  assert (Hc : configured c = configured c')
    by exact (f_equal (fun m => match m with
                                | x :: _ => snd x
                                | [] => configured c
                                end) H).
  assert (Hl : map (fun kv => (fst kv, configured (snd kv))) l
               = map (fun kv => (fst kv, configured (snd kv))) l')
    by exact (f_equal (@tl _) H).
  subst k'. destruct (String.eqb k sid); cbn [option_map]; [now rewrite Hc|auto].
Qed.

Lemma focusChanged_sameRegistry (w : World) (elem : Elem) (sid : option string)
    (s : State) :
  sameRegistry (engine s) (engine (snd (focusChanged w elem sid s))).
Proof.
  unfold focusChanged.
  destruct (nonEmpty match nonEmpty sid with
                     | Some i => Some i
                     | None => getSectionId w (engine s) elem
                     end); [|apply sameRegistry_refl].
  unfold sameRegistry. cbn. repeat split.
  apply configured_updateSection. reflexivity.
Qed.


(** ** What navigation keeps *)

Lemma focusChanged_last (w : World) (elem : Elem) (sid : option string)
    (s : State) :
  registeredOrNone (engine s) sid ->
  lastSectionRegistered (engine s) ->
  lastSectionRegistered (engine (snd (focusChanged w elem sid s))).
Proof.
  intros Hreg Hlast. unfold focusChanged.
  destruct (nonEmpty match nonEmpty sid with
                     | Some i => Some i
                     | None => getSectionId w (engine s) elem
                     end) as [j|] eqn:Ej; [|exact Hlast].
  assert (Hj : lookup j (_sections (engine s)) <> None).
  { destruct (nonEmpty sid) as [i|] eqn:Ei.
    - assert (j = i).
      { unfold nonEmpty in Ej. destruct (String.eqb i ""); congruence. }
      subst j. now apply Hreg.
    - now apply (getSectionId_registered w (engine s) elem). }
  right. cbn. now apply lookup_updateSection_registered.
Qed.

Lemma navKept_engine (s s' : State) : engine s' = engine s -> navKept s s'.
Proof.
  intros H. unfold navKept. rewrite H.
  split; [apply sameRegistry_refl|]. split; [split; reflexivity|auto].
Qed.

Lemma navKept_refl (s : State) : navKept s s.
Proof. now apply navKept_engine. Qed.

Lemma navKept_trans (s1 s2 s3 : State) :
  navKept s1 s2 -> navKept s2 s3 -> navKept s1 s3.
Proof.
  intros (A & [A1 A2] & A3) (B & [B1 B2] & B3).
  split; [eapply sameRegistry_trans; eauto|].
  split; [split; congruence | auto].
Qed.

Lemma navKept_keys (s s' : State) :
  navKept s s' -> keys (_sections (engine s')) = keys (_sections (engine s)).
Proof. intros [H _]. now apply sameRegistry_keys. Qed.

Lemma navKept_focus (w : World) (elem : Elem) (sid : option string)
    (dir : option Direction) (s : State) :
  registeredOrNone (engine s) sid ->
  navKept s (snd (focusElement w (Some elem) sid dir s)).
Proof.
  intros Hreg.
  destruct (focusElement_shape w elem sid dir s) as (evs & _ & [[_ ->]|H]).
  - unfold afterFocus.
    set (st := mkState (engine s) (Some elem) (evs ++ events s)).
    split; [|split].
    + apply (focusChanged_sameRegistry w elem sid st).
    + pose proof (focusChanged_frame w elem sid st) as (F1 & F2 & _).
      split; assumption.
    + apply (focusChanged_last w elem sid st). exact Hreg.
  - destruct H as (_ & _ & _ & a & ->). now apply navKept_engine.
Qed.

Lemma navKept_event (s : State) (ev : Event) : navKept s (addEvent ev s).
Proof. now apply navKept_engine. Qed.

Lemma navKept_previous (s : State) (sid : string) (cur next : Elem)
    (dir : Direction) :
  navKept s (mkState (recordPrevious (engine s) sid cur next dir)
               (activeElement s) (events s)).
Proof.
  split; [|split; [split; reflexivity|]].
  - unfold sameRegistry, recordPrevious. cbn. repeat split.
    apply configured_updateSection. reflexivity.
  - unfold lastSectionRegistered, recordPrevious. cbn.
    intros [H|H]; [now left|right].
    now apply lookup_updateSection_registered.
Qed.

Ltac navKept_side :=
  first [ exact navKept_refl | exact navKept_trans | exact navKept_keys
        | exact (navKept_focus _) | exact navKept_event
        | exact navKept_previous ].

Lemma move_navKept (w : World) (dir : Direction) (sel : option Sel) (s : State) :
  navKept s (snd (move w dir sel s)).
Proof. apply (preserved_move w navKept); navKept_side. Qed.

Lemma onKeyDown_navKept (w : World) (evt : KeyboardEvent) (s : State) :
  navKept s (snd (onKeyDown w evt s)).
Proof. apply (preserved_onKeyDown w navKept); navKept_side. Qed.

Lemma onKeyUp_navKept (w : World) (evt : KeyboardEvent) (s : State) :
  navKept s (snd (onKeyUp w evt s)).
Proof. apply (preserved_onKeyUp w navKept); navKept_side. Qed.

Lemma focus_navKept (w : World) (target : FocusTarget) (silent : option bool)
    (s : State) :
  navKept s (snd (focus w target silent s)).
Proof.
  unfold focus.
  set (autoPause := negb (_pause (engine s)) && truthy silent).
  set (s1 := if autoPause then snd (pause s) else s).
  assert (H := preserved_focus_target w navKept).
  do 4 (match type of H with
        | ?A -> _ => assert (HA : A) by navKept_side;
                     specialize (H HA); clear HA
        end).
  specialize (H target s1).
  match type of H with
  | navKept _ (snd ?m) => destruct m as [result s2]
  end.
  cbn [snd] in *. destruct H as (Hreg & [Hp Hd] & Hlast).
  destruct autoPause eqn:Ea; subst s1; cbn [snd resume onEngine pause engine] in *.
  - subst autoPause. apply andb_true_iff in Ea. destruct Ea as [Ea _].
    apply negb_true_iff in Ea.
    split; [|split].
    + eapply sameRegistry_trans; [|eapply sameRegistry_trans; [exact Hreg|]];
        unfold sameRegistry; cbn; tauto.
    + split; cbn in *; congruence.
    + intros H. unfold lastSectionRegistered in *. cbn in *. auto.
  - split; [assumption|]. split; [split; assumption|assumption].
Qed.

(** X12: navigation cannot reach the registry.  Whatever [focus], [move]
    and the key handlers do, they leave the sections, their order and
    their configured properties, the section counter, the global
    configuration, the prefixes, the id pool and the default section as
    they were -- all they write is the focus bookkeeping -- and they
    hand back the two mode flags as they found them. *)
Theorem navigation_leaves_registry_alone :
  forall (w : World) (s : State),
    (forall target silent,
        let s' := snd (focus w target silent s) in
        sameRegistry (engine s) (engine s') /\ flagsKept (engine s) (engine s'))
    /\ (forall dir sel,
          let s' := snd (move w dir sel s) in
          sameRegistry (engine s) (engine s') /\ flagsKept (engine s) (engine s'))
    /\ (forall evt,
          let s' := snd (onKeyDown w evt s) in
          sameRegistry (engine s) (engine s') /\ flagsKept (engine s) (engine s'))
    /\ (forall evt,
          let s' := snd (onKeyUp w evt s) in
          sameRegistry (engine s) (engine s') /\ flagsKept (engine s) (engine s')).
Proof.
  intros w s. repeat apply conj.
  - intros target silent. destruct (focus_navKept w target silent s) as (A & B & _).
    now split.
  - intros dir sel. destruct (move_navKept w dir sel s) as (A & B & _). now split.
  - intros evt. destruct (onKeyDown_navKept w evt s) as (A & B & _). now split.
  - intros evt. destruct (onKeyUp_navKept w evt s) as (A & B & _). now split.
Qed.

(** ** Invariants of the engine *)

Lemma navKept_invariant (s s' : State) :
  navKept s s' -> engineInvariant (engine s) -> engineInvariant (engine s').
Proof.
  intros (_ & [_ Hd] & Hl) [I1 I2]. split; [auto | congruence].
Qed.

Lemma lookup_assign_registered {V} (key k : string) (v : V)
    (obj : list (string * V)) :
  lookup k obj <> None -> lookup k (assign key v obj) <> None.
Proof.
  intros H. destruct (String.eqb k key) eqn:E.
  - apply String.eqb_eq in E. subst k. rewrite lookup_assign. discriminate.
  - apply String.eqb_neq in E. now rewrite lookup_assign_other.
Qed.

Lemma set_invariant (config : ConfigArg) (s : State) :
  engineInvariant (engine s) -> engineInvariant (engine (snd (set config s))).
Proof.
  intros [I1 I2]. unfold set.
  destruct (nonEmpty (propValue (a_id config))) as [sid|].
  - destruct (lookup sid (_sections (engine s))) as [sec|] eqn:El.
    + split; [|exact I2]. unfold lastSectionRegistered in *. cbn.
      destruct I1 as [I1|I1]; [now left|right].
      now apply lookup_assign_registered.
    + destruct (hasGlobalKey config); [now split|].
      split; [|exact I2]. unfold lastSectionRegistered in *. cbn.
      destruct I1 as [I1|I1]; [now left|right].
      now apply lookup_assign_registered.
  - split; [|exact I2]. exact I1.
Qed.

Lemma generateId_engine (s : State) :
  _sections (engine (snd (generateId s))) = _sections (engine s)
  /\ _lastSectionId (engine (snd (generateId s))) = _lastSectionId (engine s)
  /\ _duringFocusChange (engine (snd (generateId s)))
     = _duringFocusChange (engine s).
Proof.
  unfold generateId. destruct (generateId_loop _ _ _ _). cbn. auto.
Qed.

Lemma add_invariant (config : ConfigArg) (s : State) :
  engineInvariant (engine s) -> engineInvariant (engine (snd (add config s))).
Proof.
  intros Hinv. unfold add.
  assert (H1 : engineInvariant
                 (engine (snd (match nonEmpty (propValue (a_id config)) with
                               | Some sid => (sid, s)
                               | None => generateId s
                               end)))).
  { destruct (nonEmpty (propValue (a_id config))); [exact Hinv|].
    destruct Hinv as [I1 I2].
    destruct (generateId_engine s) as (G1 & G2 & G3).
    split; [|congruence]. unfold lastSectionRegistered. rewrite G1, G2. exact I1. }
  destruct (match nonEmpty (propValue (a_id config)) with
            | Some sid => (sid, s)
            | None => generateId s
            end) as [sid s1].
  cbn [snd] in H1.
  destruct (lookup sid (_sections (engine s1))); [exact H1|].
  match goal with
  | |- context [set ?c ?s2] =>
      pose proof (set_invariant c s2) as Hs; destruct (set c s2) as [[exn|u] s3]
  end; cbn [snd] in *; apply Hs;
    (destruct H1 as [I1 I2]; split; [|exact I2];
     unfold lastSectionRegistered in *; cbn;
     destruct I1 as [I1|I1]; [now left|right];
     now apply lookup_assign_registered).
Qed.

Lemma remove_invariant (sid : option string) (s : State) :
  engineInvariant (engine s) -> engineInvariant (engine (snd (remove sid s))).
Proof.
  intros [I1 I2]. unfold remove.
  destruct (nonEmpty sid) as [i|]; [|now split].
  destruct (lookup i (_sections (engine s))); [|now split].
  cbn [snd onEngine engine].
  cbn [_lastSectionId with_sectionCount with_sections].
  destruct (String.eqb (_lastSectionId (engine s)) i) eqn:E.
  - split; [now left | exact I2].
  - split; [|exact I2]. apply String.eqb_neq in E.
    unfold lastSectionRegistered in *. cbn.
    destruct I1 as [I1|I1]; [now left|right].
    now rewrite lookup_delete_other.
Qed.

Lemma able_invariant (sid : string) (b : bool) (s : State) :
  engineInvariant (engine s) ->
  engineInvariant
    (with_sections (updateSection sid (with_disabled b) (_sections (engine s)))
       (engine s)).
Proof.
  intros [I1 I2]. split; [|exact I2].
  unfold lastSectionRegistered in *. cbn.
  destruct I1 as [I1|I1]; [now left|right].
  now apply lookup_updateSection_registered.
Qed.

Lemma runCall_invariant (wc : World * Call) (s : State) :
  engineInvariant (engine s) -> engineInvariant (engine (runCall wc s)).
Proof.
  intros Hinv. destruct wc as [w c]. unfold runCall. cbn [fst snd].
  destruct c.
  - exact Hinv.
  - split; [now left | reflexivity].
  - split; [now left | reflexivity].
  - now apply set_invariant.
  - now apply add_invariant.
  - now apply remove_invariant.
  - unfold disable. destruct (lookup sid (_sections (engine s))); [|exact Hinv].
    now apply able_invariant.
  - unfold enable. destruct (lookup sid (_sections (engine s))); [|exact Hinv].
    now apply able_invariant.
  - exact Hinv.
  - exact Hinv.
  - eapply navKept_invariant; [apply focus_navKept | exact Hinv].
  - eapply navKept_invariant; [apply move_navKept | exact Hinv].
  - unfold setDefaultSection. destruct (nonEmpty sid) as [i|]; [|exact Hinv].
    destruct (lookup i (_sections (engine s))); exact Hinv.
  - eapply navKept_invariant; [apply onKeyDown_navKept | exact Hinv].
  - eapply navKept_invariant; [apply onKeyUp_navKept | exact Hinv].
  - exact Hinv.
Qed.

Lemma runCalls_invariant (calls : list (World * Call)) (s : State) :
  engineInvariant (engine s) -> engineInvariant (engine (runCalls calls s)).
Proof.
  revert s. induction calls as [|wc calls IH]; intros s H; [exact H|].
  cbn [runCalls fold_left]. apply IH. now apply runCall_invariant.
Qed.

(** X13: in every state the engine can reach from its initial state,
    through any history of calls of the public functions and key events,
    whatever the document is at each of them, [_lastSectionId] is empty
    or the id of a registered section: the section that [onKeyDown]
    looks up under that id exists.  (The histories are those of [Call]:
    listeners answer without calling the engine themselves, and the
    handlers [onFocus] and [onBlur] are not among the calls.) *)
Theorem last_section_is_always_registered :
  forall (calls : list (World * Call)),
    lastSectionRegistered (engine (runCalls calls initialState)).
Proof.
  intros calls.
  apply (runCalls_invariant calls initialState). split; [now left|reflexivity].
Qed.


(* ================================================================== *)
(** * The focus state machine *)

(** ** The protocol of [focusElement] *)

(** X15: neither paused nor inside a focus change, [focusElement] asks the
    focused element, if there is one, with [willunfocus]; a veto ends
    the attempt with nothing changed but the event log.  Otherwise that
    element is blurred and told [unfocused], and the target is asked
    with [willfocus]; a veto now ends the attempt with the engine
    variables as they were, but with no element focused any more.
    Otherwise the target is focused, told [focused], and the bookkeeping
    of [focusChanged] is done. *)
Theorem focusElement_event_protocol :
  forall (w : World) (elem : Elem) (sid : option string)
         (dir : option Direction) (s : State),
    _pause (engine s) = false ->
    _duringFocusChange (engine s) = false ->
    let fd := focusDetail (activeElement s) sid dir in
    let ud := unfocusDetail elem sid dir in
    let gain :=
      if dispatchEvent w elem willfocus fd
      then (true,
            afterFocus w elem sid
              (mkEvent elem focused fd :: mkEvent elem willfocus fd
               :: leaveEvents s elem sid dir) s)
      else (false,
            mkState (engine s) None
              (mkEvent elem willfocus fd :: leaveEvents s elem sid dir
               ++ events s)) in
    focusElement w (Some elem) sid dir s
    = match activeElement s with
      | Some cur =>
          if dispatchEvent w cur willunfocus ud
          then gain
          else (false, addEvent (mkEvent cur willunfocus ud) s)
      | None => gain
      end.
Proof.
  intros w elem sid dir s Hp Hd.
  unfold focusElement, afterFocus, leaveEvents, focusDetail, unfocusDetail,
    addEvent.
  unfold bind, gets, ret, getCurrentFocusedElement, setDuringFocusChange,
    modifyEngine, dispatch, blur, focus_.
  cbn -[focusChanged]. rewrite Hd. cbn -[focusChanged]. rewrite Hp.
  assert (He : with_duringFocusChange false
                 (with_duringFocusChange true (engine s)) = engine s)
    by (apply (with_during_id (engine s) false Hd)).
  destruct (activeElement s) as [cur|] eqn:Ea; cbn -[focusChanged].
  - destruct (dispatchEvent w cur willunfocus _); cbn -[focusChanged].
    + destruct (dispatchEvent w elem willfocus _); cbn -[focusChanged];
        rewrite He; [|reflexivity].
      rewrite (focusChanged_pair w elem sid). reflexivity.
    + now rewrite He.
  - destruct (dispatchEvent w elem willfocus _); cbn -[focusChanged];
      rewrite He; [|reflexivity].
    rewrite (focusChanged_pair w elem sid). reflexivity.
Qed.

(** ** Silent focus *)

Lemma silentKept_refl (s : State) : silentKept s s.
Proof. split; auto. Qed.

Lemma silentKept_trans (s1 s2 s3 : State) :
  silentKept s1 s2 -> silentKept s2 s3 -> silentKept s1 s3.
Proof.
  intros [A1 A2] [B1 B2]. split; [congruence|].
  intros Hp. destruct (A2 Hp) as [Hp2 He2]. destruct (B2 Hp2) as [Hp3 He3].
  split; congruence.
Qed.

Lemma silentKept_keys (s s' : State) :
  silentKept s s' -> keys (_sections (engine s')) = keys (_sections (engine s)).
Proof. now intros [H _]. Qed.

Lemma silentKept_focus (w : World) (elem : Elem) (sid : option string)
    (dir : option Direction) (s : State) :
  registeredOrNone (engine s) sid ->
  silentKept s (snd (focusElement w (Some elem) sid dir s)).
Proof.
  intros _.
  destruct (focusElement_shape w elem sid dir s) as (evs & Hevs & [[_ ->]|H]).
  - unfold afterFocus.
    set (st := mkState (engine s) (Some elem) (evs ++ events s)).
    pose proof (focusChanged_frame w elem sid st) as (F1 & _ & F3 & _).
    split.
    + apply (sameRegistry_keys (engine st)).
      apply (focusChanged_sameRegistry w elem sid st).
    + intros Hp. split; [now rewrite F1|].
      rewrite F3. subst st. cbn. now rewrite (Hevs (or_introl Hp)).
  - destruct H as (_ & Hp & _ & a & ->). split; [reflexivity|].
    intros Hp'. cbn in Hp'. congruence.
Qed.

Ltac silentKept_side :=
  first [ exact silentKept_refl | exact silentKept_trans | exact silentKept_keys
        | exact (silentKept_focus _) ].

Lemma focus_target_silent (w : World) (target : FocusTarget) (s1 : State) :
  silentKept s1
    (snd (match target with
          | NoTarget => focusSection w None s1
          | TargetString str =>
              if String.eqb str "" then focusSection w None s1
              else match lookup str (_sections (engine s1)) with
                   | Some _ => focusSection w (Some str) s1
                   | None => focusExtendedSelector w str None s1
                   end
          | TargetElement el =>
              let nextSectionId := getSectionId w (engine s1) el in
              if isNavigable w (engine s1) (Some el) nextSectionId false
              then focusElement w (Some el) nextSectionId None s1
              else (false, s1)
          end)).
Proof.
  apply (preserved_focus_target w silentKept); silentKept_side.
Qed.

Lemma focusElement_paused (w : World) (elem : Elem) (sid : option string)
    (dir : option Direction) (s : State) :
  _pause (engine s) = true ->
  fst (focusElement w (Some elem) sid dir s) = true
  /\ activeElement (snd (focusElement w (Some elem) sid dir s)) = Some elem.
Proof.
  intros Hp.
  destruct (focusElement_shape w elem sid dir s) as (evs & _ & [[Hf Hs]|H]).
  - split; [exact Hf|]. rewrite Hs. unfold afterFocus.
    now destruct (focusChanged_frame w elem sid
                    (mkState (engine s) (Some elem) (evs ++ events s)))
      as (_ & _ & _ & ->).
  - destruct H as (_ & Hp' & _). congruence.
Qed.

(** X16: a silent [focus] -- one asked with [silent] set, or made while
    the engine is paused -- dispatches no event at all and leaves the
    pause flag as it found it; aimed at a navigable element it cannot be
    vetoed: it returns true with the element focused. *)
Theorem silent_focus_dispatches_nothing :
  forall (w : World) (target : FocusTarget) (silent : option bool) (s : State),
    _pause (engine s) = true \/ silent = Some true ->
    let r := focus w target silent s in
    events (snd r) = events s
    /\ _pause (engine (snd r)) = _pause (engine s)
    /\ (forall el,
          target = TargetElement el ->
          isNavigable w (engine s) (Some el) (getSectionId w (engine s) el) false
            = true ->
          fst r = inr true /\ activeElement (snd r) = Some el).
Proof.
  intros w target silent s Hsilent. cbn zeta. unfold focus.
  set (autoPause := negb (_pause (engine s)) && truthy silent).
  set (s1 := if autoPause then snd (pause s) else s).
  assert (Hp1 : _pause (engine s1) = true).
  { subst s1 autoPause. destruct (_pause (engine s)) eqn:Hp; cbn; [exact Hp|].
    destruct Hsilent as [H | ->]; [discriminate|reflexivity]. }
  assert (He1 : events s1 = events s)
    by (subst s1; destruct autoPause; reflexivity).
  assert (Hn1 : forall el,
            isNavigable w (engine s1) (Some el) (getSectionId w (engine s1) el) false
            = isNavigable w (engine s) (Some el) (getSectionId w (engine s) el) false)
    by (intros el; subst s1; destruct autoPause; reflexivity).
  pose proof (focus_target_silent w target s1) as [_ H].
  specialize (H Hp1).
  assert (Hel : forall el, target = TargetElement el ->
            isNavigable w (engine s) (Some el) (getSectionId w (engine s) el) false
              = true ->
            fst (focusElement w (Some el) (getSectionId w (engine s1) el) None s1)
              = true
            /\ activeElement
                 (snd (focusElement w (Some el) (getSectionId w (engine s1) el)
                         None s1)) = Some el)
    by (intros el _ _; now apply focusElement_paused).
  destruct target as [|str|el].
  - destruct (focusSection w None s1) as [result s2].
    cbn [snd] in H. destruct H as [Hp2 He2].
    destruct autoPause eqn:Ea; cbn [snd fst resume onEngine engine events].
    + repeat split; try congruence; try discriminate.
      subst autoPause. apply andb_true_iff in Ea. destruct Ea as [Ea _].
      apply negb_true_iff in Ea. cbn. congruence.
    + subst s1. repeat split; try congruence; discriminate.
  - match type of H with
    | context [snd ?m] => destruct m as [result s2]
    end.
    cbn [snd] in H. destruct H as [Hp2 He2].
    destruct autoPause eqn:Ea; cbn [snd fst resume onEngine engine events].
    + repeat split; try congruence; try discriminate.
      subst autoPause. apply andb_true_iff in Ea. destruct Ea as [Ea _].
      apply negb_true_iff in Ea. cbn. congruence.
    + subst s1. repeat split; try congruence; discriminate.
  - cbn zeta in *. specialize (Hel el eq_refl). rewrite Hn1 in *.
    destruct (isNavigable w (engine s) (Some el) (getSectionId w (engine s) el)
                false) eqn:En.
    + specialize (Hel eq_refl).
      destruct (focusElement w (Some el) (getSectionId w (engine s1) el) None s1)
        as [result s2].
      cbn [snd fst] in *. destruct H as [Hp2 He2]. destruct Hel as [-> Ha].
      destruct autoPause eqn:Ea; cbn [snd fst resume onEngine engine events
                                        activeElement].
      * repeat split; try congruence.
        subst autoPause. apply andb_true_iff in Ea. destruct Ea as [Ea _].
        apply negb_true_iff in Ea. cbn. congruence.
      * subst s1. repeat split; congruence.
    + cbn [snd fst] in *. destruct H as [Hp2 He2].
      destruct autoPause eqn:Ea; cbn [snd fst resume onEngine engine events].
      * repeat split; try congruence; try discriminate.
        subst autoPause. apply andb_true_iff in Ea. destruct Ea as [Ea _].
        apply negb_true_iff in Ea. cbn. congruence.
      * subst s1. repeat split; try congruence; discriminate.
Qed.

(* ================================================================== *)
(** * Directional moves *)

(** ** A move without an origin *)

(** [move] by cases: without an origin, or with one that belongs to no
    enabled section, it returns false and nothing has happened; when a
    listener cancels [willmove], that event is all that has happened;
    otherwise it goes on as [focusNext]. *)
Lemma move_cases :
  forall (w : World) (dir : Direction) (sel : option Sel) (s : State),
    let origin := if truthySel sel then hd_error (parseSelector w sel)
                  else activeElement s in
    match origin with
    | None => move w dir sel s = (inr false, s)
    | Some elem =>
        match nonEmpty (getSectionId w (engine s) elem) with
        | None => move w dir sel s = (inr false, s)
        | Some sid =>
            let ev := mkEvent elem willmove (willMoveDetail dir sid "api") in
            if dispatchEvent w elem willmove (willMoveDetail dir sid "api")
            then move w dir sel s
                 = (inr (fst (focusNext w dir elem sid (addEvent ev s))),
                    snd (focusNext w dir elem sid (addEvent ev s)))
            else move w dir sel s = (inr false, addEvent ev s)
        end
    end.
Proof.
  intros w dir sel s. cbn zeta. unfold move, willMoveDetail, dispatch, addEvent.
  destruct (if truthySel sel then hd_error (parseSelector w sel)
            else activeElement s) as [elem|]; [|reflexivity].
  destruct (nonEmpty (getSectionId w (engine s) elem)) as [sid|]; [|reflexivity].
  destruct (dispatchEvent w elem willmove _); [|reflexivity].
  now destruct (focusNext w dir elem sid _).
Qed.

(** ** The [previous] records *)

Lemma lookup_updateSection (sid i : string) (f : Config -> Config)
    (secs : list (string * Config)) :
  lookup i (updateSection sid f secs)
  = if String.eqb i sid then option_map f (lookup i secs) else lookup i secs.
Proof.
  unfold updateSection.
  destruct (String.eqb i sid) eqn:E.
  - apply String.eqb_eq in E. subst i.
    destruct (lookup sid secs) as [sec|] eqn:El; [|now rewrite El].
    rewrite lookup_replace by congruence. reflexivity.
  - apply String.eqb_neq in E.
    destruct (lookup sid secs); [|reflexivity].
    now apply lookup_replace_other.
Qed.

Lemma previousFrame_engine (s s' : State) :
  engine s' = engine s -> previousFrame s s'.
Proof. intros H. unfold previousFrame, previousKept. rewrite H. auto. Qed.

Lemma previousFrame_refl (s : State) : previousFrame s s.
Proof. now apply previousFrame_engine. Qed.

Lemma previousFrame_trans (s1 s2 s3 : State) :
  previousFrame s1 s2 -> previousFrame s2 s3 -> previousFrame s1 s3.
Proof.
  intros [A1 A2] [B1 B2]. split; [congruence|].
  intros i. now rewrite B2, A2.
Qed.

Lemma previousFrame_keys (s s' : State) :
  previousFrame s s' ->
  keys (_sections (engine s')) = keys (_sections (engine s)).
Proof. now intros [H _]. Qed.

Lemma focusChanged_previousKept (w : World) (elem : Elem) (sid : option string)
    (s : State) :
  previousKept (engine s) (engine (snd (focusChanged w elem sid s))).
Proof.
  unfold focusChanged, previousKept.
  destruct (nonEmpty match nonEmpty sid with
                     | Some i => Some i
                     | None => getSectionId w (engine s) elem
                     end) as [j|]; [|reflexivity].
  intros i. cbn. rewrite lookup_updateSection.
  destruct (String.eqb i j); [|reflexivity].
  now destruct (lookup i (_sections (engine s))).
Qed.

Lemma previousFrame_focus (w : World) (elem : Elem) (sid : option string)
    (dir : option Direction) (s : State) :
  registeredOrNone (engine s) sid ->
  previousFrame s (snd (focusElement w (Some elem) sid dir s)).
Proof.
  intros _.
  destruct (focusElement_shape w elem sid dir s) as (evs & _ & [[_ ->]|H]).
  - unfold afterFocus.
    set (st := mkState (engine s) (Some elem) (evs ++ events s)).
    split.
    + apply (sameRegistry_keys (engine st)).
      apply (focusChanged_sameRegistry w elem sid st).
    + apply (focusChanged_previousKept w elem sid st).
  - destruct H as (_ & _ & _ & a & ->). now apply previousFrame_engine.
Qed.

Lemma previousFrame_event (s : State) (ev : Event) :
  previousFrame s (addEvent ev s).
Proof. now apply previousFrame_engine. Qed.

Ltac previousFrame_side :=
  first [ exact previousFrame_refl | exact previousFrame_trans
        | exact previousFrame_keys | exact (previousFrame_focus _)
        | exact previousFrame_event ].

Lemma focusNext_previousFrame (w : World) (dir : Direction) (cur : Elem)
    (sid : string) (s : State) :
  previousFrame
    (match getAttribute_data_sn w cur dir,
           searchNext w (engine s) dir cur sid with
     | None, Some next =>
         mkState (recordPrevious (engine s) sid cur next dir)
           (activeElement s) (events s)
     | _, _ => s
     end)
    (snd (focusNext w dir cur sid s)).
Proof.
  apply (preserved_focusNext_recorded w previousFrame); previousFrame_side.
Qed.

(** X17: a [data-sn-<direction>] attribute on the current element takes
    the place of the geometric search: no [previous] record is written,
    whatever becomes of the move.  Set to the empty string it blocks the
    move, which fails with a [navigatefailed] event and nothing else;
    otherwise the move is the attempt to focus the extended selector,
    followed by a [navigatefailed] event when that attempt fails. *)
Theorem override_attribute_replaces_the_search :
  forall (w : World) (dir : Direction) (cur : Elem) (sid : string) (s : State)
         (ext : string),
    getAttribute_data_sn w cur dir = Some ext ->
    let r := focusNext w dir cur sid s in
    let failed := mkEvent cur navigatefailed (failedDetail dir) in
    let tried := focusExtendedSelector w ext (Some dir) s in
    previousKept (engine s) (engine (snd r))
    /\ r = (if String.eqb ext "" then (false, addEvent failed s)
            else if fst tried then (true, snd tried)
                 else (false, addEvent failed (snd tried))).
Proof.
  intros w dir cur sid s ext Hext. cbn zeta. split.
  - pose proof (focusNext_previousFrame w dir cur sid s) as [_ H].
    now rewrite Hext in H.
  - unfold focusNext. rewrite Hext.
    destruct (String.eqb ext "").
    + rewrite fire_then_false. reflexivity.
    + unfold bind at 1.
      destruct (focusExtendedSelector w ext (Some dir) s) as [[|] s1];
        cbn [fst snd]; [reflexivity|].
      rewrite fire_then_false. reflexivity.
Qed.

(** ** The winner of the search belongs to a section *)

Lemma parseSelector_matches (w : World) (x : Elem) (sel : option Sel) :
  In x (parseSelector w sel) -> matchSelector w (Some x) sel = true.
Proof.
  unfold parseSelector, matchSelector, matches.
  destruct sel as [[str|el]|]; [| |contradiction].
  - destruct (String.eqb str ""); [contradiction|].
    now apply existsb_eqb_In.
  - intros [->|[]]. apply Nat.eqb_refl.
Qed.

Lemma navigable_attributable (w : World) (e : Engine) (x : Elem) (i : string) :
  In x (getSectionNavigableElements w e i) ->
  exists sec,
    lookup i (_sections e) = Some sec /\ attributable w x sec = true.
Proof.
  unfold getSectionNavigableElements.
  destruct (lookup i (_sections e)) as [sec|] eqn:El; [|contradiction].
  intros H. apply filter_In in H. destruct H as [Hin Hnav].
  exists sec. split; [reflexivity|]. unfold attributable.
  rewrite (parseSelector_matches w x _ Hin), andb_true_r.
  unfold isNavigable in Hnav.
  destruct (nonEmpty (Some i)) as [j|] eqn:Ej; [|discriminate].
  assert (j = i)
    by (unfold nonEmpty in Ej; destruct (String.eqb i ""); congruence).
  subst j. rewrite El in Hnav.
  destruct (truthy (disabled sec)); [discriminate|reflexivity].
Qed.

Lemma lookup_In {V} (key : string) (v : V) (obj : list (string * V)) :
  lookup key obj = Some v -> In (key, v) obj.
Proof.
  induction obj as [|[k v'] obj IH]; cbn; [discriminate|].
  destruct (String.eqb k key) eqn:E.
  - apply String.eqb_eq in E. intros [= ->]. left. now subst.
  - intros H. right. auto.
Qed.

Lemma firstSection_some (w : World) (x : Elem) (secs : list (string * Config))
    (i : string) (sec : Config) :
  In (i, sec) secs -> attributable w x sec = true ->
  exists j, firstSection w x secs = Some j.
Proof.
  unfold attributable.
  induction secs as [|[k c] secs IH]; cbn [firstSection In]; [contradiction|].
  intros [H|H] Ha.
  - injection H as -> ->. rewrite Ha. eauto.
  - destruct (negb (truthy (disabled c)) && matchSelector w (Some x) (selector c));
      eauto.
Qed.

Lemma searchNext_candidate (w : World) (e : Engine) (dir : Direction)
    (cur : Elem) (sid : string) (next : Elem) :
  searchNext w e dir cur sid = Some next ->
  exists i, In next (getSectionNavigableElements w e i).
Proof.
  unfold searchNext.
  set (config := effectiveConfig e sid).
  assert (Hown : forall ex l,
            navigate w (Some cur) dir
              (exclude (getSectionNavigableElements w e sid) ex) config = Some l ->
            exists i, In l (getSectionNavigableElements w e i)).
  { intros ex l H. apply navigate_winner in H.
    destruct H as (T & p & r & k & _ & _ & _ & He & Hm & _).
    apply measure_In in Hm. destruct Hm as (x & Hin & Hr).
    apply getRect_element in Hr. rewrite He in Hr. subst x.
    apply exclude_In in Hin. exists sid. tauto. }
  assert (Hall : forall ex l,
            navigate w (Some cur) dir (exclude (allNavigableElements w e) ex)
              config = Some l ->
            exists i, In l (getSectionNavigableElements w e i)).
  { intros ex l H. apply navigate_winner in H.
    destruct H as (T & p & r & k & _ & _ & _ & He & Hm & _).
    apply measure_In in Hm. destruct Hm as (x & Hin & Hr).
    apply getRect_element in Hr. rewrite He in Hr. subst x.
    apply exclude_In in Hin. destruct Hin as [Hin _].
    apply allNavigable_In in Hin. destruct Hin as (i & _ & Hi). eauto. }
  destruct (_ || _).
  - destruct (navigate w (Some cur) dir
                (exclude (getSectionNavigableElements w e sid) [cur]) config)
      as [l|] eqn:E1.
    + intros [= <-]. eauto.
    + destruct (match restrict config with
                | Some r => String.eqb r "self-first"
                | None => false
                end); [|discriminate].
      intros H. eauto.
  - intros H. eauto.
Qed.

(** X18: the element the geometric search of [focusNext] settles on is a
    navigable element of a registered section that is not disabled and
    whose selector matches it, so [getSectionId] attributes it to a
    registered section: the section looked up for it exists. *)
Theorem search_winner_belongs_to_a_registered_section :
  forall (w : World) (e : Engine) (dir : Direction) (cur : Elem)
         (sid : string) (next : Elem),
    searchNext w e dir cur sid = Some next ->
    (exists i sec,
        lookup i (_sections e) = Some sec
        /\ In next (getSectionNavigableElements w e i)
        /\ attributable w next sec = true)
    /\ exists nid,
         getSectionId w e next = Some nid
         /\ lookup nid (_sections e) <> None.
Proof.
  intros w e dir cur sid next H.
  apply searchNext_candidate in H. destruct H as (i & Hin).
  destruct (navigable_attributable w e next i Hin) as (sec & El & Ha).
  split; [exists i, sec; auto|].
  destruct (firstSection_some w next (_sections e) i sec (lookup_In _ _ _ El) Ha)
    as (j & Hj).
  exists j. split; [exact Hj|]. now apply (firstSection_registered w next).
Qed.

(** ** The remembered source *)

Lemma recordPrevious_lookup (e : Engine) (sid : string) (cur next : Elem)
    (dir : Direction) :
  lookup sid (_sections e) <> None ->
  option_map previous (lookup sid (_sections (recordPrevious e sid cur next dir)))
  = Some (Some {| target := cur; destination := next; reverse := REVERSE dir |}).
Proof.
  intros H. unfold recordPrevious. cbn. rewrite lookup_updateSection.
  rewrite String.eqb_refl.
  destruct (lookup sid (_sections e)); [reflexivity|congruence].
Qed.

Lemma firstSection_replace_previous (w : World) (elem : Elem) (sid : string)
    (p : PreviousFocus) (secs : list (string * Config)) (sec : Config) :
  lookup sid secs = Some sec ->
  firstSection w elem (replace sid (with_previous p sec) secs)
  = firstSection w elem secs.
Proof.
  induction secs as [|[k v] secs IH]; cbn [lookup replace firstSection];
    [discriminate|].
  destruct (String.eqb k sid).
  - intros [= ->]. reflexivity.
  - intros H. cbn [firstSection]. now rewrite (IH H).
Qed.

Lemma getSectionId_recordPrevious (w : World) (e : Engine) (sid : string)
    (cur next : Elem) (dir : Direction) (elem : Elem) :
  getSectionId w (recordPrevious e sid cur next dir) elem = getSectionId w e elem.
Proof.
  unfold getSectionId, recordPrevious, updateSection. cbn.
  destruct (lookup sid (_sections e)) as [sec|] eqn:El; [|reflexivity].
  now apply firstSection_replace_previous.
Qed.

(** [focusNext] shows the search that [searchNext] makes. *)
Lemma focusNext_searched (w : World) (dir : Direction) (cur : Elem)
    (sid : string) (s : State) :
  lookup sid (_sections (engine s)) <> None ->
  getAttribute_data_sn w cur dir = None ->
  searched w dir cur sid s (searchNext w (engine s) dir cur sid).
Proof.
  intros Hreg Hattr. unfold searched. cbv zeta.
  pose proof (focusNext_previousFrame w dir cur sid s) as [_ Hprev].
  rewrite Hattr in Hprev.
  destruct (searchNext w (engine s) dir cur sid) as [next|] eqn:Hs.
  - split.
    + specialize (Hprev sid). cbn [engine] in Hprev.
      now rewrite recordPrevious_lookup in Hprev by exact Hreg.
    + intros Hsec. unfold focusNext. rewrite Hattr.
      unfold bind at 1. unfold gets at 1. rewrite Hs.
      unfold bind at 1. unfold modifyEngine at 1.
      fold (recordPrevious (engine s) sid cur next dir).
      unfold bind at 1. unfold gets at 1. cbn [engine].
      rewrite getSectionId_recordPrevious, Hsec.
      unfold optStringEqb. rewrite String.eqb_refl. reflexivity.
  - split; [exact Hprev|].
    intros Hleave. unfold focusNext. rewrite Hattr.
    unfold bind, gets. rewrite Hs.
    unfold gotoLeaveFor, bind, gets. rewrite Hleave. reflexivity.
Qed.

Lemma navigate_remembered (w : World) (b : Elem) (dir : Direction)
    (L : list Elem) (config : Config) (Tb ra : Rect) (prev : PreviousFocus) :
  getRect (getBoundingClientRect w) b = Some Tb ->
  rememberSource config = Some true ->
  previous config = Some prev ->
  destination prev = b ->
  reverse prev = dir ->
  In ra (measure w L) ->
  element ra = target prev ->
  placed Tb (thresholdOf config) ra (straightBucket dir) = true ->
  navigate w (Some b) dir L config = Some (target prev).
Proof.
  intros HT Hrs Hprev Hd Hrev Hin He Hp.
  destruct (tiers_straight Tb dir (measure w L) config) as (p & Ep & Eg).
  { intros Hnil.
    assert (H : In ra (filter (fun r => placed Tb (thresholdOf config) r
                                          (straightBucket dir)) (measure w L)))
      by (apply filter_In; auto).
    rewrite Hnil in H. exact H. }
  rewrite navigate_via_tiers, HT. unfold prioritize. rewrite Ep.
  unfold remembered. rewrite Hprev, Hrs. cbn [truthy].
  rewrite (proj2 (Nat.eqb_eq _ _) Hd), (proj2 (Direction_eqb_eq _ _) Hrev).
  cbn [andb].
  rewrite find_element; [reflexivity|].
  exists ra. split; [|exact He].
  apply sort_In. rewrite Eg. apply filter_In. auto.
Qed.

(** X19: with [rememberSource] in force for the section, a move that
    geometry resolved from [a] to [b] can be taken back from within the
    section: whatever became of the move, the section has recorded it,
    and the opposite move from [b], as an element of the same section
    and without an override attribute, settles on [a] as soon as [a] is
    a navigable element of the section that is measured and placed
    straight in that direction -- however the other candidates compare
    and in every restrict mode.  That move is recorded in turn, and when
    [a] is attributed to the section it is the attempt to focus [a]. *)
Theorem remembered_source_is_taken_back :
  forall (w : World) (s : State) (dir : Direction) (a b : Elem) (sid : string)
         (Tb ra : Rect),
    lookup sid (_sections (engine s)) <> None ->
    getAttribute_data_sn w a dir = None ->
    searchNext w (engine s) dir a sid = Some b ->
    let s' := snd (focusNext w dir a sid s) in
    let config' := effectiveConfig (engine s') sid in
    getSectionId w (engine s') b = Some sid ->
    getAttribute_data_sn w b (REVERSE dir) = None ->
    rememberSource config' = Some true ->
    a <> b ->
    In a (getSectionNavigableElements w (engine s') sid) ->
    getRect (getBoundingClientRect w) b = Some Tb ->
    getRect (getBoundingClientRect w) a = Some ra ->
    placed Tb (thresholdOf config') ra (straightBucket (REVERSE dir)) = true ->
    previous config'
    = Some {| target := a; destination := b; reverse := REVERSE dir |}
    /\ searched w (REVERSE dir) b sid s' (Some a).
Proof.
  intros w s dir a b sid Tb ra Hreg Hattr Hsearch s' config' _ Hattr' Hrs Hab
    Hown HTb HTa Hp.
  assert (Hprev : previous config'
                  = Some {| target := a; destination := b;
                            reverse := REVERSE dir |}).
  { pose proof (focusNext_previousFrame w dir a sid s) as [_ H].
    rewrite Hattr, Hsearch in H. specialize (H sid). cbn [engine] in H.
    rewrite recordPrevious_lookup in H by exact Hreg.
    subst config'. unfold effectiveConfig. fold s'.
    fold s' in H.
    destruct (lookup sid (_sections (engine s'))) as [sec'|]; [|discriminate].
    cbn in H. injection H as H. cbn. now rewrite H. }
  split; [exact Hprev|].
  assert (Hreg' : lookup sid (_sections (engine s')) <> None).
  { intros Hn. unfold getSectionNavigableElements in Hown.
    now rewrite Hn in Hown. }
  assert (Hnav : forall L, In a L ->
            navigate w (Some b) (REVERSE dir) L config' = Some a).
  { intros L HL.
    apply (navigate_remembered w b (REVERSE dir) L config' Tb ra
             {| target := a; destination := b; reverse := REVERSE dir |});
      auto.
    - apply measure_In. exists a. auto.
    - now apply getRect_element in HTa. }
  assert (Hs : searchNext w (engine s') (REVERSE dir) b sid = Some a).
  { unfold searchNext. fold config'. cbv zeta.
    destruct (_ || _).
    - rewrite Hnav; [reflexivity|].
      apply exclude_In. split; [exact Hown|].
      intros [H|[]]. congruence.
    - apply Hnav. apply exclude_In. split.
      + apply allNavigable_In. exists sid. split; [|exact Hown].
        now apply lookup_In_keys.
      + intros [H|[]]. congruence. }
  rewrite <- Hs. now apply focusNext_searched.
Qed.

(* ================================================================== *)
(** * The range of [focusSection] *)

Lemma visitableb_spec (e : Engine) (sid : string) :
  visitableb e sid = true <-> visitable e sid.
Proof.
  unfold visitableb, visitable. rewrite andb_true_iff, negb_true_iff.
  split.
  - intros [H1 H2]. apply String.eqb_neq in H1. split; [assumption|].
    destruct (lookup sid (_sections e)) as [sec|]; [|discriminate].
    exists sec. split; [reflexivity|]. now apply negb_true_iff.
  - intros [H1 (sec & -> & H2)]. split; [now apply String.eqb_neq|].
    now rewrite H2.
Qed.

Lemma addRange_spec (e : Engine) (range : list string) (sid : string) :
  addRange e range sid
  = if visitableb e sid && negb (existsb (String.eqb sid) range)
    then range ++ [sid] else range.
Proof.
  unfold addRange, visitableb, nonEmpty.
  destruct (String.eqb sid ""); cbn [negb andb]; [reflexivity|].
  destruct (existsb (String.eqb sid) range); cbn [negb];
    [now rewrite andb_false_r|].
  rewrite andb_true_r.
  destruct (lookup sid (_sections e)) as [sec|]; [|reflexivity].
  now destruct (truthy (disabled sec)).
Qed.

Lemma existsb_string_In (x : string) (l : list string) :
  existsb (String.eqb x) l = true <-> In x l.
Proof.
  rewrite existsb_exists. split.
  - intros (y & Hy & He). apply String.eqb_eq in He. now subst.
  - intros H. exists x. split; [assumption | apply String.eqb_refl].
Qed.

Lemma addRange_In (e : Engine) (range : list string) (sid j : string) :
  In j (addRange e range sid) <-> In j range \/ (j = sid /\ visitable e sid).
Proof.
  rewrite addRange_spec.
  destruct (visitableb e sid) eqn:Ev; cbn [andb].
  - apply visitableb_spec in Ev.
    destruct (existsb (String.eqb sid) range) eqn:Ex; cbn [negb].
    + apply existsb_string_In in Ex. split; [auto|].
      intros [H|[-> _]]; assumption.
    + rewrite in_app_iff. cbn. split.
      * intros [H|[<-|[]]]; auto.
      * intros [H|[-> _]]; auto.
  - split; [auto|]. intros [H|[_ H]]; [assumption|].
    apply visitableb_spec in H. congruence.
Qed.

Lemma addRange_NoDup (e : Engine) (range : list string) (sid : string) :
  NoDup range -> NoDup (addRange e range sid).
Proof.
  intros H. rewrite addRange_spec.
  destruct (visitableb e sid); cbn [andb]; [|assumption].
  destruct (existsb (String.eqb sid) range) eqn:Ex; cbn [negb]; [assumption|].
  apply NoDup_app; [assumption | repeat constructor; intros [] |].
  intros x Hx [<-|[]].
  apply existsb_string_In in Hx. congruence.
Qed.

Lemma addRange_prefix (e : Engine) (range : list string) (sid : string) :
  exists tail, addRange e range sid = range ++ tail.
Proof.
  rewrite addRange_spec.
  destruct (_ && _); [eauto | exists []; now rewrite app_nil_r].
Qed.

Lemma fold_addRange_In (e : Engine) (ids range : list string) (j : string) :
  In j (fold_left (addRange e) ids range)
  <-> In j range \/ (In j ids /\ visitable e j).
Proof.
  revert range. induction ids as [|i ids IH]; intros range; cbn [fold_left In].
  - tauto.
  - rewrite IH, addRange_In. split.
    + intros [[H|[-> H]]|[H1 H2]]; auto.
    + intros [H|[[->|H1] H2]]; auto.
Qed.

Lemma fold_addRange_NoDup (e : Engine) (ids range : list string) :
  NoDup range -> NoDup (fold_left (addRange e) ids range).
Proof.
  revert range. induction ids as [|i ids IH]; intros range H; cbn; [assumption|].
  apply IH. now apply addRange_NoDup.
Qed.

Lemma fold_addRange_prefix (e : Engine) (ids range : list string) :
  exists tail, fold_left (addRange e) ids range = range ++ tail.
Proof.
  revert range. induction ids as [|i ids IH]; intros range; cbn.
  - exists []. now rewrite app_nil_r.
  - destruct (addRange_prefix e range i) as [t1 ->].
    destruct (IH (range ++ t1)) as [t2 ->].
    exists (t1 ++ t2). now rewrite app_assoc.
Qed.

Lemma existsb_app_other (k k' : string) (r : list string) :
  k' <> k ->
  existsb (String.eqb k') (r ++ [k]) = existsb (String.eqb k') r.
Proof.
  intros H. rewrite existsb_app. cbn.
  apply String.eqb_neq in H. rewrite H. now rewrite !orb_false_r.
Qed.

Lemma fold_addRange_filter (e : Engine) (ids range : list string) :
  NoDup ids ->
  fold_left (addRange e) ids range
  = range
    ++ filter (fun k => visitableb e k && negb (existsb (String.eqb k) range))
         ids.
Proof.
  revert range. induction ids as [|k ids IH]; intros range Hnd;
    cbn [fold_left filter].
  - now rewrite app_nil_r.
  - apply NoDup_cons_iff in Hnd. destruct Hnd as [Hk Hnd].
    rewrite IH by assumption. rewrite addRange_spec.
    destruct (visitableb e k && negb (existsb (String.eqb k) range)) eqn:Ek.
    + rewrite <- app_assoc. cbn [app]. f_equal. f_equal.
      apply filter_ext_in. intros k' Hk'.
      rewrite existsb_app_other; [reflexivity|]. intros ->. contradiction.
    + reflexivity.
Qed.

Lemma focusSection_sectionRange (w : World) (sid : option string) (s : State) :
  focusSection w sid s
  = (false, snd (forEach (sectionRange (engine s) sid) (visitSection w) s)).
Proof.
  unfold focusSection, sectionRange, visitSection.
  unfold bind at 1 2. unfold gets at 1.
  match goal with
  | |- context [forEach ?range ?body s] =>
      destruct (forEach range body s) as [u s']
  end.
  reflexivity.
Qed.

(** X20: [focusSection] goes through a range of section ids in which no
    id occurs twice and every id names a registered section that is not
    disabled.  Given an id, the range is that section alone; given none,
    it holds every such section: the default section first, then the
    section focused last, then the others as the registry enumerates
    them. *)
Theorem focus_section_range :
  forall (w : World) (sid : option string) (s : State),
    let e := engine s in
    let range := sectionRange e sid in
    focusSection w sid s = (false, snd (forEach range (visitSection w) s))
    /\ NoDup range
    /\ (forall i, In i range -> visitable e i)
    /\ (forall i, nonEmpty sid = Some i ->
          range = if visitableb e i then [i] else [])
    /\ (nonEmpty sid = None ->
        (forall i, visitable e i -> In i range)
        /\ (visitable e (_defaultSectionId e) ->
            hd_error range = Some (_defaultSectionId e))
        /\ (~ visitable e (_defaultSectionId e) ->
            visitable e (_lastSectionId e) ->
            hd_error range = Some (_lastSectionId e))
        /\ (NoDup (keys (_sections e)) ->
            let first :=
              addRange e (addRange e [] (_defaultSectionId e))
                (_lastSectionId e) in
            range
            = first
              ++ filter (fun k => visitableb e k
                                  && negb (existsb (String.eqb k) first))
                   (keys (_sections e)))).
Proof.
  intros w sid s e range. split; [apply focusSection_sectionRange|].
  subst range. unfold sectionRange.
  destruct (nonEmpty sid) as [i|] eqn:Es.
  - split; [apply addRange_NoDup; constructor|].
    split.
    { intros j Hj. apply addRange_In in Hj. destruct Hj as [[]|[-> H]].
      exact H. }
    split; [|discriminate].
    intros j [= <-]. rewrite addRange_spec. cbn [existsb negb].
    now rewrite andb_true_r.
  - set (r0 := addRange e (addRange e [] (_defaultSectionId e)) (_lastSectionId e)).
    assert (Hnd0 : NoDup r0)
      by (subst r0; do 2 apply addRange_NoDup; constructor).
    split; [now apply fold_addRange_NoDup|].
    split.
    { intros j Hj. apply fold_addRange_In in Hj.
      destruct Hj as [Hj|[_ Hj]]; [|exact Hj].
      subst r0. apply addRange_In in Hj. destruct Hj as [Hj|[-> Hj]]; [|exact Hj].
      apply addRange_In in Hj. destruct Hj as [[]|[-> Hj]]. exact Hj. }
    split; [discriminate|].
    intros _. split; [|split; [|split]].
    + intros j Hj. apply fold_addRange_In. right. split; [|exact Hj].
      destruct Hj as [_ (sec & El & _)]. apply lookup_In_keys. congruence.
    + intros Hd. destruct (fold_addRange_prefix e (keys (_sections e)) r0)
        as [tail ->].
      subst r0. apply visitableb_spec in Hd.
      rewrite (addRange_spec e [] (_defaultSectionId e)), Hd. cbn.
      destruct (addRange_prefix e [_defaultSectionId e] (_lastSectionId e))
        as [t ->].
      reflexivity.
    + intros Hd Hl. destruct (fold_addRange_prefix e (keys (_sections e)) r0)
        as [tail ->].
      subst r0.
      assert (Hdb : visitableb e (_defaultSectionId e) = false).
      { destruct (visitableb e (_defaultSectionId e)) eqn:E; [|reflexivity].
        apply visitableb_spec in E. contradiction. }
      apply visitableb_spec in Hl.
      rewrite (addRange_spec e [] (_defaultSectionId e)), Hdb. cbn [andb].
      rewrite addRange_spec, Hl. reflexivity.
    + intros Hnd. now apply fold_addRange_filter.
Qed.

(* ================================================================== *)
(** * The restrict modes *)

(** C6. For a move from an element of a registered section that carries
    no override attribute for the direction, [focusNext] makes the
    search of the section's restrict mode ([searched]: it records the
    winner as the section's [previous] and goes on to focus it, or,
    without a winner and without a [leaveFor] entry for the direction,
    fails with a navigatefailed event and nothing else).  Under
    [self-only] that search is the in-section search alone, whatever
    the other sections hold.  Under [self-first] the same in-section
    search runs first and only when it finds nothing are the navigable
    elements of the other sections searched: the code leaves out those
    that are also navigable elements of the current section, which (for
    a current element whose centre lies within its own box) does not
    change the winner.  Under [none] all navigable elements but the
    current one are searched directly. *)
Theorem restrict_modes :
  forall (w : World) (s : State) (dir : Direction) (cur : Elem) (sid : string),
    lookup sid (_sections (engine s)) <> None ->
    getAttribute_data_sn w cur dir = None ->
    let e := engine s in
    let config := effectiveConfig e sid in
    let own := getSectionNavigableElements w e sid in
    let others :=
      flat_map (getSectionNavigableElements w e)
        (filter (fun i => negb (String.eqb i sid)) (keys (_sections e))) in
    let inSection := navigate w (Some cur) dir (exclude own [cur]) config in
    (restrict config = Some "self-only"%string ->
       searched w dir cur sid s inSection)
    /\ (restrict config = Some "self-first"%string ->
          searched w dir cur sid s
            (match inSection with
             | Some next => Some next
             | None =>
                 navigate w (Some cur) dir
                   (exclude (allNavigableElements w e) own) config
             end)
          /\ exclude (allNavigableElements w e) own = exclude others own
          /\ (forall x,
                In x (exclude (allNavigableElements w e) own)
                <-> (exists i, In i (keys (_sections e)) /\ i <> sid
                               /\ In x (getSectionNavigableElements w e i))
                    /\ ~ In x own)
          /\ (match getRect (getBoundingClientRect w) cur with
              | Some T => centred T
              | None => True
              end ->
              inSection = None ->
              searched w dir cur sid s
                (navigate w (Some cur) dir others config)))
    /\ (restrict config = Some "none"%string ->
          searched w dir cur sid s
            (navigate w (Some cur) dir
               (exclude (allNavigableElements w e) [cur]) config)
          /\ (forall x,
                In x (exclude (allNavigableElements w e) [cur])
                <-> (exists i, In i (keys (_sections e))
                               /\ In x (getSectionNavigableElements w e i))
                    /\ x <> cur)).
Proof.
  intros w s dir cur sid Hreg Hattr e config own others inSection.
  pose proof (focusNext_searched w dir cur sid s Hreg Hattr) as Hrun.
  fold e in Hrun.
  split; [|split].
  - intros Hr.
    assert (Hs : searchNext w e dir cur sid = inSection).
    { unfold searchNext. fold config. rewrite !(restrict_mode_eqb _ _ Hr).
      simpl (String.eqb _ _). cbn [orb]. fold own. fold inSection.
      now destruct inSection. }
    now rewrite Hs in Hrun.
  - intros Hr.
    assert (Hs : searchNext w e dir cur sid
                 = match inSection with
                   | Some next => Some next
                   | None =>
                       navigate w (Some cur) dir
                         (exclude (allNavigableElements w e) own) config
                   end).
    { unfold searchNext. fold config. rewrite !(restrict_mode_eqb _ _ Hr).
      simpl (String.eqb _ _). cbn [orb]. fold own. fold inSection.
      reflexivity. }
    split; [now rewrite Hs in Hrun|]. split; [|split].
    + apply exclude_other_sections.
    + intros x. rewrite exclude_In, allNavigable_In. split.
      * intros [(i & Hi & Hx) Hn]. split; [|assumption].
        exists i. repeat split; auto. intros ->. contradiction.
      * intros [(i & Hi & _ & Hx) Hn]. split; [|assumption]. eauto.
    + intros Hc Hnone.
      assert (Hs' : searchNext w e dir cur sid
                    = navigate w (Some cur) dir others config).
      { rewrite Hs, Hnone.
        unfold allNavigableElements, own. rewrite exclude_other_sections.
        apply searched_candidates_irrelevant; assumption. }
      now rewrite Hs' in Hrun.
  - intros Hr. split.
    + assert (Hs : searchNext w e dir cur sid
                   = navigate w (Some cur) dir
                       (exclude (allNavigableElements w e) [cur]) config).
      { unfold searchNext. fold config. rewrite !(restrict_mode_eqb _ _ Hr).
        reflexivity. }
      now rewrite Hs in Hrun.
    + intros x. rewrite exclude_In, allNavigable_In. cbn [In]. intuition.
Qed.

(** On the example document, from element 1 to the right: section "a"
    holds element 1 alone and section "b" element 2.  Under [self-only]
    the move fails; under [self-first] and under [none] section "a"
    records the move to element 2. *)
Lemma restrict_modes_witness :
  (let s := focusedOn 1%nat
              (registered [sectionRestrict "a" ".a" "self-only"; section "b" ".b"]) in
   In 2%nat (allNavigableElements quietPage (engine s))
   /\ focusNext quietPage Right 1%nat "a" s
      = (false,
         addEvent (mkEvent 1%nat navigatefailed (failedDetail Right)) s))
  /\ (let s := focusedOn 1%nat (registered [section "a" ".a"; section "b" ".b"]) in
      option_map previous
        (lookup "a"%string
           (_sections (engine (snd (focusNext quietPage Right 1%nat "a" s)))))
      = Some (Some {| target := 1%nat; destination := 2%nat; reverse := Left |}))
  /\ (let s := focusedOn 1%nat
                 (registered [sectionRestrict "a" ".a" "none"; section "b" ".b"]) in
      option_map previous
        (lookup "a"%string
           (_sections (engine (snd (focusNext quietPage Right 1%nat "a" s)))))
      = Some (Some {| target := 1%nat; destination := 2%nat; reverse := Left |})).
Proof.
  cbv zeta. split; [|split].
  - destruct (restrict_modes quietPage
                (focusedOn 1%nat
                   (registered [sectionRestrict "a" ".a" "self-only";
                                section "b" ".b"]))
                Right 1%nat "a") as (Honly & _ & _);
      [discriminate | reflexivity |].
    specialize (Honly eq_refl).
    split; [right; left; reflexivity|].
    exact (proj2 Honly eq_refl).
  - destruct (restrict_modes quietPage
                (focusedOn 1%nat (registered [section "a" ".a"; section "b" ".b"]))
                Right 1%nat "a") as (_ & Hfirst & _);
      [discriminate | reflexivity |].
    destruct (Hfirst eq_refl) as (Hrun & _).
    exact (proj1 Hrun).
  - destruct (restrict_modes quietPage
                (focusedOn 1%nat
                   (registered [sectionRestrict "a" ".a" "none"; section "b" ".b"]))
                Right 1%nat "a") as (_ & _ & Hnone);
      [discriminate | reflexivity |].
    destruct (Hnone eq_refl) as (Hrun & _).
    exact (proj1 Hrun).
Defined.

(* ================================================================== *)
(** * The registry through the public functions *)

(** ** Generated ids *)

Lemma numbered_nonempty (prefix : string) (n : nat) :
  (prefix ++ NilEmpty.string_of_uint (Nat.to_uint (S n)))%string <> ""%string.
Proof.
  intros H.
  assert (Hd : NilEmpty.string_of_uint (Nat.to_uint (S n)) = ""%string).
  { destruct prefix; [exact H | discriminate]. }
  pose proof (NilEmpty.usu (Nat.to_uint (S n))) as Hu. rewrite Hd in Hu.
  pose proof (DecimalNat.Unsigned.of_to (S n)) as Hn.
  remember (Nat.to_uint (S n)) as d eqn:Ed. clear Ed.
  change (NilEmpty.uint_of_string "") with (Some Decimal.Nil) in Hu.
  injection Hu as <-. discriminate.
Qed.

Lemma generateId_loop_shape (fuel : nat) (prefix : string)
    (secs : list (string * Config)) (pool : nat) :
  fst (generateId_loop fuel prefix secs pool)
  = (prefix
     ++ NilEmpty.string_of_uint
          (Nat.to_uint (snd (generateId_loop fuel prefix secs pool))))%string
  /\ (pool < snd (generateId_loop fuel prefix secs pool))%nat.
Proof.
  revert pool. induction fuel as [|fuel IH]; intros pool; cbn [generateId_loop].
  - cbn. split; [reflexivity | lia].
  - destruct (lookup _ secs).
    + destruct (IH (S pool)) as [H1 H2]. split; [exact H1 | lia].
    + cbn. split; [reflexivity | lia].
Qed.

Lemma generateId_shape (s : State) :
  let sid := fst (generateId s) in
  let e1 := engine (snd (generateId s)) in
  sid = (ID_POOL_PREFIX (engine s)
         ++ NilEmpty.string_of_uint (Nat.to_uint (_idPool e1)))%string
  /\ (_idPool (engine s) < _idPool e1)%nat
  /\ e1 = with_idPool (_idPool e1) (engine s)
  /\ activeElement (snd (generateId s)) = activeElement s
  /\ events (snd (generateId s)) = events s.
Proof.
  unfold generateId.
  pose proof (generateId_loop_shape (List.length (_sections (engine s)))
                (ID_POOL_PREFIX (engine s)) (_sections (engine s))
                (_idPool (engine s))) as [H1 H2].
  destruct (generateId_loop _ _ _ _) as [newId pool]. cbn in *. auto.
Qed.

Lemma nonEmpty_Some (sid : string) :
  sid <> ""%string -> nonEmpty (Some sid) = Some sid.
Proof.
  intros H. unfold nonEmpty. apply String.eqb_neq in H. now rewrite H.
Qed.

Lemma nonEmpty_inv (o : option string) (sid : string) :
  nonEmpty o = Some sid -> o = Some sid /\ sid <> ""%string.
Proof.
  unfold nonEmpty. destruct o as [i|]; [|discriminate].
  destruct (String.eqb i "") eqn:E; [discriminate|].
  intros [= ->]. split; [reflexivity | now apply String.eqb_neq].
Qed.

(** [add] under an id that is not empty and not taken. *)
Lemma add_fresh (config : ConfigArg) (s1 : State) (sid : string) :
  sid <> ""%string ->
  lookup sid (_sections (engine s1)) = None ->
  (let s2 :=
     onEngine (fun e =>
       with_sectionCount (_sectionCount e + 1)%Z
         (with_sections (assign sid emptyConfig (_sections e)) e)) s1 in
   match set (withId sid config) s2 with
   | (inl exn, s3) => (inl exn, s3)
   | (inr _, s3) => (inr sid, s3)
   end)
  = (inr sid,
     onEngine (fun e =>
       with_sectionCount (_sectionCount e + 1)%Z
         (with_sections
            (replace sid (storedSection config)
               (assign sid emptyConfig (_sections e))) e)) s1).
Proof.
  intros Hne Hnew. cbn zeta. unfold set. cbn [withId a_id propValue].
  rewrite (nonEmpty_Some sid Hne).
  cbn [onEngine engine with_sectionCount with_sections _sections].
  rewrite lookup_assign. unfold assign at 1. rewrite lookup_assign.
  reflexivity.
Qed.

Lemma lookup_replace_assign {V} (key k : string) (v v0 : V)
    (obj : list (string * V)) :
  lookup k (replace key v (assign key v0 obj))
  = if String.eqb k key then Some v else lookup k obj.
Proof.
  destruct (String.eqb k key) eqn:E.
  - apply String.eqb_eq in E. subst k. apply lookup_replace.
    rewrite lookup_assign. discriminate.
  - apply String.eqb_neq in E.
    rewrite lookup_replace_other, lookup_assign_other by assumption.
    reflexivity.
Qed.

(** X21: [add] with no id of its own always succeeds: it takes the first
    id [prefix + n], [n] beyond the id pool, under which no section is
    registered, stores the section there, leaves the other sections as
    they are, counts one section more and moves the id pool to [n]. *)
Theorem add_without_id_takes_a_fresh_id :
  forall (config : ConfigArg) (s : State),
    nonEmpty (propValue (a_id config)) = None ->
    let s' := snd (add config s) in
    exists sid n,
      fst (add config s) = inr sid
      /\ sid = (ID_POOL_PREFIX (engine s)
                ++ NilEmpty.string_of_uint (Nat.to_uint n))%string
      /\ (_idPool (engine s) < n)%nat
      /\ _idPool (engine s') = n
      /\ lookup sid (_sections (engine s)) = None
      /\ lookup sid (_sections (engine s')) = Some (storedSection config)
      /\ (forall k, k <> sid ->
            lookup k (_sections (engine s')) = lookup k (_sections (engine s)))
      /\ _sectionCount (engine s') = (_sectionCount (engine s) + 1)%Z.
Proof.
  intros config s Hid. cbn zeta. unfold add. rewrite Hid.
  pose proof (generateId_fresh s) as Hfresh.
  pose proof (generateId_shape s) as (Hs1 & Hs2 & Hs3 & _).
  destruct (generateId s) as [sid s1]. cbn [fst snd] in *.
  assert (Hsec : _sections (engine s1) = _sections (engine s))
    by (rewrite Hs3; reflexivity).
  assert (Hne : sid <> ""%string).
  { rewrite Hs1. destruct (_idPool (engine s1)); [lia|].
    apply numbered_nonempty. }
  rewrite Hsec, Hfresh. rewrite add_fresh by (rewrite ?Hsec; assumption).
  exists sid, (_idPool (engine s1)). cbn [fst snd onEngine engine
    with_sectionCount with_sections _sections _idPool _sectionCount].
  rewrite Hsec.
  repeat split; try assumption.
  - rewrite lookup_replace_assign. now rewrite String.eqb_refl.
  - intros k Hk. rewrite lookup_replace_assign.
    apply String.eqb_neq in Hk. now rewrite Hk.
  - rewrite Hs3. reflexivity.
Qed.

(** X22: [add] under a free id of the caller's choice (not the name of a
    member of [Object.prototype], under which [add] throws), then
    [remove] of that id, give back the sections and the counter as they
    were -- the
    whole engine, unless [_lastSectionId] held that very id; in between,
    a second [add] under the id throws and changes nothing; afterwards a
    second [remove] answers false and changes nothing. *)
Theorem add_then_remove_restores_the_registry :
  forall (config : ConfigArg) (s : State) (sid : string),
    nonEmpty (propValue (a_id config)) = Some sid ->
    inherited sid = false ->
    lookup sid (_sections (engine s)) = None ->
    let s1 := snd (add config s) in
    let s2 := snd (remove (Some sid) s1) in
    fst (add config s) = inr sid
    /\ lookup sid (_sections (engine s1)) = Some (storedSection config)
    /\ add config s1 = (inl (AlreadyExisted sid), s1)
    /\ fst (remove (Some sid) s1) = inr true
    /\ _sections (engine s2) = _sections (engine s)
    /\ _sectionCount (engine s2) = _sectionCount (engine s)
    /\ (_lastSectionId (engine s) <> sid -> s2 = s)
    /\ remove (Some sid) s2 = (inr false, s2).
Proof.
  intros config s sid Hid _ Hnew. cbn zeta.
  destruct (nonEmpty_inv _ _ Hid) as [_ Hne].
  assert (Hadd : add config s
                 = (inr sid,
                    onEngine (fun e =>
                      with_sectionCount (_sectionCount e + 1)%Z
                        (with_sections
                           (replace sid (storedSection config)
                              (assign sid emptyConfig (_sections e))) e)) s)).
  { unfold add. rewrite Hid, Hnew. now apply add_fresh. }
  rewrite Hadd. cbn [fst snd].
  set (s1 := onEngine _ s).
  assert (Hl1 : lookup sid (_sections (engine s1)) = Some (storedSection config)).
  { subst s1. cbn. rewrite lookup_replace_assign. now rewrite String.eqb_refl. }
  assert (Hrem : remove (Some sid) s1
                 = (inr true,
                    onEngine (fun e =>
                      let e := with_sectionCount (_sectionCount e - 1)%Z
                                 (with_sections (delete sid (_sections e)) e) in
                      if String.eqb (_lastSectionId e) sid
                      then with_lastSectionId "" e else e) s1)).
  { unfold remove. rewrite (nonEmpty_Some sid Hne), Hl1. reflexivity. }
  rewrite Hrem. cbn [fst snd].
  assert (Hdel : delete sid (_sections (engine s1)) = _sections (engine s)).
  { subst s1. cbn. rewrite delete_replace. now apply delete_assign_new. }
  split; [reflexivity|]. split; [exact Hl1|].
  split; [unfold add; now rewrite Hid, Hl1|].
  split; [reflexivity|].
  assert (Hsec2 : forall b : bool,
            _sections
              (if b
               then with_lastSectionId ""
                      (with_sectionCount (_sectionCount (engine s1) - 1)%Z
                         (with_sections (delete sid (_sections (engine s1)))
                            (engine s1)))
               else with_sectionCount (_sectionCount (engine s1) - 1)%Z
                      (with_sections (delete sid (_sections (engine s1)))
                         (engine s1)))
            = _sections (engine s))
    by (intros [|]; cbn; exact Hdel).
  split; [cbn; apply Hsec2|].
  split.
  { cbn. destruct (String.eqb _ sid); cbn; lia. }
  split.
  - intros Hlast. apply String.eqb_neq in Hlast.
    subst s1. clear Hrem Hsec2 Hadd Hl1. destruct s as [e a evs].
    unfold onEngine. cbn in *. rewrite Hlast, Hdel. destruct e.
    unfold with_sectionCount, with_sections. cbn. do 2 f_equal. lia.
  - unfold remove. rewrite (nonEmpty_Some sid Hne).
    cbn [onEngine engine]. rewrite Hsec2, Hnew. reflexivity.
Qed.

(** ** [disable] and [enable] *)

Lemma isNavigable_lookup (w : World) (e e' : Engine) (elem : option Elem)
    (sid : string) (v : bool) :
  lookup sid (_sections e') = lookup sid (_sections e) ->
  globalConfig e' = globalConfig e ->
  isNavigable w e' elem (Some sid) v = isNavigable w e elem (Some sid) v.
Proof.
  intros Hl Hg. unfold isNavigable. destruct elem; [|reflexivity].
  destruct (nonEmpty (Some sid)) as [j|] eqn:Ej; [|reflexivity].
  assert (j = sid)
    by (unfold nonEmpty in Ej; destruct (String.eqb sid ""); congruence).
  subst j. now rewrite Hl, Hg.
Qed.

Lemma getSectionNavigableElements_lookup (w : World) (e e' : Engine)
    (sid : string) :
  lookup sid (_sections e') = lookup sid (_sections e) ->
  globalConfig e' = globalConfig e ->
  getSectionNavigableElements w e' sid = getSectionNavigableElements w e sid.
Proof.
  intros Hl Hg. unfold getSectionNavigableElements. rewrite Hl.
  destruct (lookup sid (_sections e)) eqn:El; [|reflexivity].
  apply filter_ext. intros x. apply isNavigable_lookup; congruence.
Qed.

Lemma firstSection_In_keys (w : World) (elem : Elem)
    (secs : list (string * Config)) (i : string) :
  firstSection w elem secs = Some i -> In i (keys secs).
Proof.
  intros H. apply lookup_In_keys.
  exact (firstSection_registered w elem secs i H).
Qed.

Lemma firstSection_disabled (w : World) (elem : Elem)
    (secs : list (string * Config)) (sid : string) :
  NoDup (keys secs) ->
  firstSection w elem (updateSection sid (with_disabled true) secs) <> Some sid.
Proof.
  unfold updateSection.
  destruct (lookup sid secs) as [sec|] eqn:El.
  - clear El. unfold keys. induction secs as [|[k c] secs IH];
      cbn [replace firstSection map fst]; intros Hnd; [discriminate|].
    apply NoDup_cons_iff in Hnd. destruct Hnd as [Hk Hnd].
    destruct (String.eqb k sid) eqn:E.
    + apply String.eqb_eq in E. subst k.
      cbn [firstSection with_disabled disabled truthy negb andb].
      intros H. apply firstSection_In_keys in H. contradiction.
    + cbn [firstSection].
      destruct (negb (truthy (disabled c)) && matchSelector w (Some elem) (selector c)).
      * apply String.eqb_neq in E. congruence.
      * now apply IH.
  - intros _ H. apply (firstSection_registered w elem secs sid H). exact El.
Qed.

Lemma sectionRange_visitable (e : Engine) (target : option string) (j : string) :
  In j (sectionRange e target) -> visitable e j.
Proof.
  unfold sectionRange. intros Hin. destruct (nonEmpty target).
  - apply addRange_In in Hin. destruct Hin as [[]|[-> H]]. exact H.
  - apply fold_addRange_In in Hin. destruct Hin as [Hin|[_ H]]; [|exact H].
    apply addRange_In in Hin. destruct Hin as [Hin|[-> H]]; [|exact H].
    apply addRange_In in Hin. destruct Hin as [[]|[-> H]]. exact H.
Qed.

(** X23: [disable] of a registered section takes it out of navigation: it
    has no navigable element left, no element is attributed to it, and
    [focusSection] leaves it out of its range, while the navigable
    elements of the other sections are what they were; [enable]
    afterwards gives the section the navigable elements that [enable]
    alone gives it.  Both answer false, and change nothing, for an id
    that is not registered and is not the name of a member of
    [Object.prototype]. *)
Theorem disabled_section_is_out_of_navigation :
  forall (w : World) (s : State) (sid : string),
    lookup sid (_sections (engine s)) <> None ->
    let s1 := snd (disable sid s) in
    fst (disable sid s) = inr true
    /\ getSectionNavigableElements w (engine s1) sid = []
    /\ (forall elem v, isNavigable w (engine s1) elem (Some sid) v = false)
    /\ (NoDup (keys (_sections (engine s))) ->
        forall elem, getSectionId w (engine s1) elem <> Some sid)
    /\ (forall target, ~ In sid (sectionRange (engine s1) target))
    /\ (forall k, k <> sid ->
          getSectionNavigableElements w (engine s1) k
          = getSectionNavigableElements w (engine s) k)
    /\ getSectionNavigableElements w (engine (snd (enable sid s1))) sid
       = getSectionNavigableElements w (engine (snd (enable sid s))) sid
    /\ (forall k, inherited k = false ->
          lookup k (_sections (engine s)) = None ->
          disable k s = (inr false, s) /\ enable k s = (inr false, s)).
Proof.
  intros w s sid Hreg. cbn zeta. unfold disable, enable.
  destruct (lookup sid (_sections (engine s))) as [sec|] eqn:El; [|congruence].
  cbn [fst snd onEngine engine].
  assert (Hl1 : lookup sid
                  (updateSection sid (with_disabled true) (_sections (engine s)))
                = Some (with_disabled true sec)).
  { rewrite lookup_updateSection, String.eqb_refl, El. reflexivity. }
  assert (Hnav : forall elem v,
            isNavigable w
              (with_sections
                 (updateSection sid (with_disabled true) (_sections (engine s)))
                 (engine s)) elem (Some sid) v = false).
  { intros elem v. unfold isNavigable. destruct elem; [|reflexivity].
    destruct (nonEmpty (Some sid)) as [j|] eqn:Ej; [|reflexivity].
    assert (j = sid)
      by (unfold nonEmpty in Ej; destruct (String.eqb sid ""); congruence).
    subst j. cbn [_sections with_sections]. rewrite Hl1. reflexivity. }
  split; [reflexivity|].
  split.
  { unfold getSectionNavigableElements. cbn [_sections with_sections].
    rewrite Hl1. apply filter_none_in. intros x _. apply Hnav. }
  split; [exact Hnav|].
  split.
  { intros Hnd elem. unfold getSectionId. cbn [_sections with_sections].
    now apply firstSection_disabled. }
  split.
  { intros target Hin.
    pose proof (sectionRange_visitable _ target sid Hin) as Hv.
    destruct Hv as [_ (sec' & Hs' & Hd)]. cbn [_sections with_sections] in Hs'.
    rewrite Hl1 in Hs'. injection Hs' as <-. discriminate. }
  split.
  { intros k Hk. apply getSectionNavigableElements_lookup; [|reflexivity].
    cbn [_sections with_sections]. rewrite lookup_updateSection.
    apply String.eqb_neq in Hk. now rewrite Hk. }
  split.
  { cbn [_sections with_sections]. rewrite Hl1. cbn [snd onEngine engine].
    apply getSectionNavigableElements_lookup; [|reflexivity].
    cbn [_sections with_sections].
    rewrite !lookup_updateSection, String.eqb_refl, El. reflexivity. }
  intros k _ Hk. now rewrite Hk.
Qed.

(* ================================================================== *)
(** * The key handlers *)

Lemma onKeyDown_ignored (w : World) (evt : KeyboardEvent) (s : State) :
  keyIgnored (engine s) evt = true -> onKeyDown w evt s = (false, s).
Proof.
  unfold keyIgnored, onKeyDown, bind, gets. intros H. now rewrite H.
Qed.

(** [onKeyDown] on a key that is no arrow. *)
Lemma onKeyDown_other (w : World) (evt : KeyboardEvent) (s : State) :
  keyIgnored (engine s) evt = false ->
  KEYMAPPING (keyCode evt) = None ->
  onKeyDown w evt s
  = if (keyCode evt =? 13)%Z
    then match activeElement s with
         | Some cur =>
             match nonEmpty (getSectionId w (engine s) cur) with
             | Some _ =>
                 (negb (dispatchEvent w cur enter_down noDetail),
                  addEvent (mkEvent cur enter_down noDetail) s)
             | None => (false, s)
             end
         | None => (false, s)
         end
    else (false, s).
Proof.
  unfold keyIgnored, onKeyDown, getCurrentFocusedElement, bind, gets, dispatch,
    addEvent, ret.
  intros H Hk. rewrite H, Hk. cbv beta iota zeta.
  destruct (keyCode evt =? 13)%Z; [|reflexivity].
  destruct s as [e a evs]. cbn [engine activeElement events].
  destruct a as [cur|]; [|reflexivity].
  destruct (nonEmpty (getSectionId w e cur)); [|reflexivity].
  destruct (dispatchEvent w cur enter_down noDetail); reflexivity.
Qed.

Lemma onKeyDown_arrow (w : World) (evt : KeyboardEvent) (dir : Direction)
    (s : State) :
  keyIgnored (engine s) evt = false ->
  KEYMAPPING (keyCode evt) = Some dir ->
  onKeyDown w evt s
  = match keyOrigin w s with
    | None => (true, snd (focusSection w None s))
    | Some cur =>
        match nonEmpty (getSectionId w (engine s) cur) with
        | None => (false, s)
        | Some sid =>
            let ev := mkEvent cur willmove (willMoveDetail dir sid "keydown") in
            (true,
             if dispatchEvent w cur willmove (willMoveDetail dir sid "keydown")
             then snd (focusNext w dir cur sid (addEvent ev s))
             else addEvent ev s)
        end
    end.
Proof.
  intros H Hk. unfold keyIgnored in H.
  unfold onKeyDown, keyOrigin, willMoveDetail.
  unfold bind at 1. unfold gets at 1. rewrite H, Hk.
  unfold bind at 1. unfold getCurrentFocusedElement, gets.
  destruct (match activeElement s with
            | Some cur => Some cur
            | None =>
                match nonEmpty (Some (_lastSectionId (engine s))) with
                | Some lastSectionId =>
                    getSectionLastFocusedElement w (engine s) lastSectionId
                | None => None
                end
            end) as [cur|].
  - destruct (nonEmpty (getSectionId w (engine s) cur)) as [sid|]; [|reflexivity].
    unfold bind, dispatch, addEvent, ret. cbn zeta.
    destruct (dispatchEvent w cur willmove _); [|reflexivity].
    now destruct (focusNext w dir cur sid _).
  - unfold bind, ret. now destruct (focusSection w None s).
Qed.

Lemma onKeyUp_closed (w : World) (evt : KeyboardEvent) (s : State) :
  onKeyUp w evt s
  = if negb (keyIgnored (engine s) evt) && (keyCode evt =? 13)%Z
    then match activeElement s with
         | Some cur =>
             match nonEmpty (getSectionId w (engine s) cur) with
             | Some _ =>
                 (negb (dispatchEvent w cur enter_up noDetail),
                  addEvent (mkEvent cur enter_up noDetail) s)
             | None => (false, s)
             end
         | None => (false, s)
         end
    else (false, s).
Proof.
  unfold keyIgnored, onKeyUp, getCurrentFocusedElement, bind, gets, dispatch,
    addEvent, ret.
  destruct (altKey evt), (ctrlKey evt), (metaKey evt), (shiftKey evt);
    cbn [orb negb andb]; rewrite ?orb_true_r; cbn [negb andb];
    try reflexivity.
  rewrite !orb_false_r.
  destruct (_pause (engine s)); cbn [negb andb orb];
    rewrite ?orb_true_r; cbn [negb andb]; [reflexivity|].
  rewrite orb_false_r.
  destruct (_sectionCount (engine s) =? 0)%Z; cbn [negb andb]; [reflexivity|].
  destruct (keyCode evt =? 13)%Z; [|reflexivity].
  destruct s as [e a evs]. cbn [engine activeElement events].
  destruct a as [cur|]; [|reflexivity].
  destruct (nonEmpty (getSectionId w e cur)); [|reflexivity].
  destruct (dispatchEvent w cur enter_up noDetail); reflexivity.
Qed.

Lemma KEYMAPPING_enter (code : Z) :
  (code =? 13)%Z = true -> KEYMAPPING code = None.
Proof. intros H. apply Z.eqb_eq in H. now subst. Qed.

(** What the handlers do with Enter. *)
Lemma enterKey_frame (w : World) (name : EventName) (s : State) :
  let r := match activeElement s with
           | Some cur =>
               match nonEmpty (getSectionId w (engine s) cur) with
               | Some _ =>
                   (negb (dispatchEvent w cur name noDetail),
                    addEvent (mkEvent cur name noDetail) s)
               | None => (false, s)
               end
           | None => (false, s)
           end in
  engine (snd r) = engine s
  /\ activeElement (snd r) = activeElement s
  /\ (fst r = true ->
      exists cur,
        activeElement s = Some cur
        /\ getSectionId w (engine s) cur <> None
        /\ dispatchEvent w cur name noDetail = false
        /\ snd r = addEvent (mkEvent cur name noDetail) s).
Proof.
  destruct s as [e a evs]. cbn [engine activeElement]. cbn zeta.
  destruct a as [cur|]; [|cbn; repeat split; discriminate].
  destruct (nonEmpty (getSectionId w e cur)) eqn:En; cbn;
    [|repeat split; discriminate].
  repeat split. intros Hp. exists cur. apply negb_true_iff in Hp.
  repeat split; try assumption.
  intros Hn. rewrite Hn in En. discriminate.
Qed.

(** X24: a key that [onKeyDown] lets through to the browser has moved no
    focus and changed no variable of the engine, and unless it is Enter
    nothing has been dispatched either; [onKeyUp] never moves the focus
    or changes the engine.  Both handlers do nothing at all for a key
    with a modifier, while the engine is paused and while the section
    counter [_sectionCount] is zero, and [onKeyUp] does nothing for a
    key other than Enter.
    A handler that answers Enter by preventing the default action found
    the focus on an element of a section, whose listener cancelled the
    event. *)
Theorem key_let_through_moves_nothing :
  forall (w : World) (evt : KeyboardEvent) (s : State),
    let d := onKeyDown w evt s in
    let u := onKeyUp w evt s in
    (fst d = false ->
       engine (snd d) = engine s /\ activeElement (snd d) = activeElement s
       /\ (keyCode evt <> 13%Z -> snd d = s))
    /\ engine (snd u) = engine s
    /\ activeElement (snd u) = activeElement s
    /\ (keyIgnored (engine s) evt = true -> d = (false, s) /\ u = (false, s))
    /\ (keyCode evt <> 13%Z -> u = (false, s))
    /\ (keyCode evt = 13%Z ->
        forall name r, (name = enter_down /\ r = d) \/ (name = enter_up /\ r = u) ->
        fst r = true ->
        exists cur,
          activeElement s = Some cur
          /\ getSectionId w (engine s) cur <> None
          /\ dispatchEvent w cur name noDetail = false
          /\ snd r = addEvent (mkEvent cur name noDetail) s).
Proof.
  intros w evt s. cbn zeta.
  assert (Hu := onKeyUp_closed w evt s).
  pose proof (enterKey_frame w enter_down s) as (Hd1 & Hd2 & Hd3).
  pose proof (enterKey_frame w enter_up s) as (Hu1 & Hu2 & Hu3).
  cbn zeta in *.
  split; [|split; [|split; [|split; [|split]]]].
  - destruct (keyIgnored (engine s) evt) eqn:Hi.
    { rewrite (onKeyDown_ignored w evt s Hi). auto. }
    destruct (KEYMAPPING (keyCode evt)) as [dir|] eqn:Hk.
    + rewrite (onKeyDown_arrow w evt dir s Hi Hk).
      destruct (keyOrigin w s) as [cur|]; [|discriminate].
      destruct (nonEmpty (getSectionId w (engine s) cur)); [discriminate|].
      auto.
    + rewrite (onKeyDown_other w evt s Hi Hk).
      destruct (keyCode evt =? 13)%Z eqn:E13; [|cbn; auto].
      apply Z.eqb_eq in E13. intros _.
      split; [exact Hd1|]. split; [exact Hd2|]. intros Hn. contradiction.
  - rewrite Hu. destruct (_ && _); [exact Hu1 | reflexivity].
  - rewrite Hu. destruct (_ && _); [exact Hu2 | reflexivity].
  - intros Hi. split; [now apply onKeyDown_ignored|].
    rewrite Hu, Hi. reflexivity.
  - intros H13. rewrite Hu. apply Z.eqb_neq in H13. rewrite H13.
    now rewrite andb_false_r.
  - intros H13 name r Hr Hprevent.
    assert (E13 : (keyCode evt =? 13)%Z = true) by now apply Z.eqb_eq.
    destruct (keyIgnored (engine s) evt) eqn:Hi.
    { destruct Hr as [[_ ->] | [_ ->]].
      - rewrite (onKeyDown_ignored w evt s Hi) in Hprevent. discriminate.
      - rewrite Hu in Hprevent. discriminate. }
    destruct Hr as [[-> ->] | [-> ->]].
    + rewrite (onKeyDown_other w evt s Hi (KEYMAPPING_enter _ E13)), E13 in *.
      exact (Hd3 Hprevent).
    + rewrite E13 in Hu. cbn [negb andb] in Hu. rewrite Hu in *.
      exact (Hu3 Hprevent).
Qed.

(* ================================================================== *)
(** * Events are recorded, never read *)

Lemma logfree_ret {A} (a : A) : logfree (ret a).
Proof. intros older s. reflexivity. Qed.

Lemma logfree_bind {A B} (m : M A) (k : A -> M B) :
  logfree m -> (forall a, logfree (k a)) -> logfree (bind m k).
Proof.
  intros Hm Hk older s. unfold bind. rewrite Hm.
  destruct (m s) as [a s1]. cbn [fst snd]. rewrite Hk.
  now destruct (k a s1).
Qed.

Lemma logfree_gets {A} (g : State -> A) :
  (forall older s, g (relog older s) = g s) -> logfree (gets g).
Proof. intros H older s. unfold gets. now rewrite H. Qed.

Lemma logfree_modifyEngine (f : Engine -> Engine) : logfree (modifyEngine f).
Proof. intros older s. reflexivity. Qed.

Lemma logfree_blur : logfree blur.
Proof. intros older s. reflexivity. Qed.

Lemma logfree_focus_ (elem : Elem) : logfree (focus_ elem).
Proof. intros older s. reflexivity. Qed.

Lemma logfree_dispatch (w : World) (elem : Elem) (type : EventName)
    (details : SpatialEventDetail) (cancelable : bool) :
  logfree (dispatch w elem type details cancelable).
Proof. intros older s. reflexivity. Qed.

Lemma logfree_focusChanged (w : World) (elem : Elem) (sid : option string) :
  logfree (focusChanged w elem sid).
Proof.
  intros older s. unfold focusChanged. cbn [relog engine].
  destruct (nonEmpty _); reflexivity.
Qed.

Lemma logfree_forEach {A B} (l : list A) (body : A -> M B) :
  (forall a, logfree (body a)) -> logfree (forEach l body).
Proof.
  intros H. induction l as [|a l IH]; cbn [forEach].
  - apply logfree_ret.
  - apply logfree_bind; [apply H | intros _; exact IH].
Qed.

Ltac logfree_step :=
  first
    [ apply logfree_ret
    | apply logfree_modifyEngine
    | apply logfree_blur
    | apply logfree_focus_
    | apply logfree_dispatch
    | apply logfree_focusChanged
    | apply logfree_gets; reflexivity
    | apply logfree_bind; [|intros ?]
    | apply logfree_forEach; intros ?
    | match goal with
      | |- logfree (match ?x with _ => _ end) => destruct x
      end ].

Lemma logfree_focusElement (w : World) (elem : option Elem)
    (sid : option string) (dir : option Direction) :
  logfree (focusElement w elem sid dir).
Proof.
  unfold focusElement, setDuringFocusChange, getCurrentFocusedElement.
  destruct elem; cbv zeta; repeat logfree_step.
Qed.

Lemma logfree_focusSection (w : World) (sid : option string) :
  logfree (focusSection w sid).
Proof.
  unfold focusSection. cbv zeta.
  repeat first [ apply logfree_focusElement | logfree_step ].
Qed.

Lemma logfree_focusExtendedSelector (w : World) (sel : string)
    (dir : option Direction) :
  logfree (focusExtendedSelector w sel dir).
Proof.
  unfold focusExtendedSelector. cbv zeta.
  repeat first [ apply logfree_focusElement | apply logfree_focusSection
               | logfree_step ].
Qed.

Lemma logfree_fireNavigateFailed (w : World) (elem : Elem) (dir : Direction) :
  logfree (fireNavigateFailed w elem dir).
Proof. unfold fireNavigateFailed. repeat logfree_step. Qed.

Lemma logfree_gotoLeaveFor (w : World) (sid : string) (dir : Direction) :
  logfree (gotoLeaveFor w sid dir).
Proof.
  unfold gotoLeaveFor. cbv zeta.
  repeat first [ apply logfree_focusElement
               | apply logfree_focusExtendedSelector | logfree_step ].
Qed.

Lemma logfree_focusNext (w : World) (dir : Direction) (cur : Elem)
    (sid : string) :
  logfree (focusNext w dir cur sid).
Proof.
  unfold focusNext. cbv zeta.
  repeat first [ apply logfree_focusElement
               | apply logfree_focusExtendedSelector
               | apply logfree_fireNavigateFailed
               | apply logfree_gotoLeaveFor | logfree_step ].
Qed.

(** A computation that is [logfree], run after one more event. *)
Lemma logfree_addEvent {A} (m : M A) (ev : Event) (s : State) :
  logfree m ->
  let r := m (mkState (engine s) (activeElement s) []) in
  m (addEvent ev s) = (fst r, relog (ev :: events s) (snd r)).
Proof.
  intros H. cbn zeta.
  rewrite <- (H (ev :: events s) (mkState (engine s) (activeElement s) [])).
  reflexivity.
Qed.

(** X25: an arrow key that [onKeyDown] does not ignore -- no modifier,
    the engine not paused, the section counter [_sectionCount] not
    zero -- pressed while an element is focused moves the focus as
    [move] does for that direction: provided the listeners of
    [willmove] give the two causes, [keydown] and [api], the same
    answer, the engine and the focused element end up the same, and the
    same events are dispatched, but for the cause that [willmove]
    carries.  The handler prevents the default action whenever the
    element belongs to a section, also when [move] returns false. *)
Theorem arrow_key_acts_as_move :
  forall (w : World) (evt : KeyboardEvent) (dir : Direction) (cur : Elem)
         (s : State),
    keyIgnored (engine s) evt = false ->
    KEYMAPPING (keyCode evt) = Some dir ->
    activeElement s = Some cur ->
    (forall sid,
        dispatchEvent w cur willmove (willMoveDetail dir sid "keydown")
        = dispatchEvent w cur willmove (willMoveDetail dir sid "api")) ->
    let k := onKeyDown w evt s in
    let m := move w dir None s in
    engine (snd k) = engine (snd m)
    /\ activeElement (snd k) = activeElement (snd m)
    /\ match nonEmpty (getSectionId w (engine s) cur) with
       | None => k = (false, s) /\ m = (inr false, s)
       | Some sid =>
           fst k = true
           /\ exists later,
                events (snd k)
                = later ++ mkEvent cur willmove (willMoveDetail dir sid "keydown")
                           :: events s
                /\ events (snd m)
                   = later ++ mkEvent cur willmove (willMoveDetail dir sid "api")
                              :: events s
       end.
Proof.
  intros w evt dir cur s Hi Hk Ha Hsame. cbn zeta.
  rewrite (onKeyDown_arrow w evt dir s Hi Hk).
  unfold keyOrigin. rewrite Ha.
  unfold move. cbn [truthySel]. rewrite Ha.
  destruct (nonEmpty (getSectionId w (engine s) cur)) as [sid|]; [|auto].
  cbv zeta. unfold dispatch.
  change (mkState (engine s) (activeElement s)
            (mkEvent cur willmove
               {| d_direction := Some dir; d_id := Some sid; d_nextId := None;
                  d_nextElement := None; d_previousElement := None;
                  d_native := None; d_cause := Some "api"%string |}
             :: events s))
    with (addEvent (mkEvent cur willmove (willMoveDetail dir sid "api")) s).
  change {| d_direction := Some dir; d_id := Some sid; d_nextId := None;
            d_nextElement := None; d_previousElement := None;
            d_native := None; d_cause := Some "api"%string |}
    with (willMoveDetail dir sid "api").
  rewrite (Hsame sid).
  destruct (dispatchEvent w cur willmove (willMoveDetail dir sid "api")).
  - rewrite !(logfree_addEvent _ _ s (logfree_focusNext w dir cur sid)).
    destruct (focusNext w dir cur sid _) as [b s']. cbn.
    repeat split. exists (events s'). split; reflexivity.
  - cbn. repeat split. exists []. split; reflexivity.
Qed.

(* ================================================================== *)
(** * [makeFocusable] *)

Lemma onlyFilled_refl (attrs : TabIndex) : onlyFilled attrs attrs.
Proof. intros x. now left. Qed.

Lemma onlyFilled_trans (a b c : TabIndex) :
  onlyFilled a b -> onlyFilled b c -> onlyFilled a c.
Proof.
  intros Hab Hbc x. destruct (Hab x) as [E1|[H1 E1]], (Hbc x) as [E2|[H2 E2]].
  - left. congruence.
  - right. unfold hasTabindex in *. rewrite E1 in H2. auto.
  - right. split; [assumption | congruence].
  - right. auto.
Qed.

Lemma onlyFilled_step (doc : Document) (ignoreList : option string)
    (attrs : TabIndex) (elem : Elem) :
  onlyFilled attrs (makeFocusable_step doc ignoreList attrs elem).
Proof.
  unfold makeFocusable_step.
  destruct (negb _); [|apply onlyFilled_refl].
  destruct (nonEmpty (attrs elem)) eqn:En; [apply onlyFilled_refl|].
  intros x. unfold setAttribute_tabindex.
  destruct (x =? elem)%nat eqn:E; [|now left].
  apply Nat.eqb_eq in E. subst x. right. unfold hasTabindex. now rewrite En.
Qed.

Lemma onlyFilled_fold {A} (f : TabIndex -> A -> TabIndex) (l : list A) :
  (forall attrs a, onlyFilled attrs (f attrs a)) ->
  forall attrs, onlyFilled attrs (fold_left f l attrs).
Proof.
  intros H. induction l as [|a l IH]; intros attrs; cbn [fold_left].
  - apply onlyFilled_refl.
  - apply (onlyFilled_trans _ (f attrs a)); [apply H | apply IH].
Qed.

Lemma onlyFilled_doMakeFocusable (doc : Document) (e : Engine) (section : Config)
    (attrs : TabIndex) :
  onlyFilled attrs (doMakeFocusable doc e section attrs).
Proof.
  unfold doMakeFocusable. cbv zeta.
  destruct (truthySel (selector section)); [|apply onlyFilled_refl].
  apply onlyFilled_fold. intros a x. apply onlyFilled_step.
Qed.

(** X26: where the lists of selectors to ignore are selectors (none is
    the empty string) and the id, if one is given, is not the name of a
    member of [Object.prototype], [makeFocusable] throws for an id that
    names no section, and only then.  Otherwise all it does to the
    [tabindex] attributes of the document is to give the value [-1] to
    elements that had none, or an empty one: an attribute that is set is
    never overwritten. *)
Theorem makeFocusable_only_fills_missing_tabindex :
  forall (doc : Document) (sid : option string) (e : Engine) (attrs : TabIndex),
    makeFocusableInput sid e ->
    match makeFocusable doc sid e attrs with
    | inl exn =>
        exists i, nonEmpty sid = Some i /\ lookup i (_sections e) = None
                  /\ exn = DoesntExist i
    | inr attrs' =>
        match nonEmpty sid with
        | Some i => lookup i (_sections e) <> None
        | None => True
        end
        /\ onlyFilled attrs attrs'
        /\ (forall elem v, attrs elem = Some v -> v <> ""%string ->
              attrs' elem = Some v)
    end.
Proof.
  intros doc sid e attrs _.
  assert (Hkeep : forall attrs', onlyFilled attrs attrs' ->
            forall elem v, attrs elem = Some v -> v <> ""%string ->
                           attrs' elem = Some v).
  { intros attrs' H elem v Hv Hne. destruct (H elem) as [E|[Hh _]];
      [congruence|].
    unfold hasTabindex in Hh. rewrite Hv in Hh. cbn in Hh.
    apply String.eqb_neq in Hne. rewrite Hne in Hh. discriminate. }
  unfold makeFocusable. destruct (nonEmpty sid) as [i|].
  - destruct (lookup i (_sections e)) as [section|] eqn:El.
    + split; [discriminate|].
      split; [apply onlyFilled_doMakeFocusable|].
      apply Hkeep, onlyFilled_doMakeFocusable.
    + exists i. auto.
  - split; [exact I|].
    assert (H : onlyFilled attrs
                  (fold_left (fun attrs kv => doMakeFocusable doc e (snd kv) attrs)
                     (_sections e) attrs)).
    { apply onlyFilled_fold. intros a kv. apply onlyFilled_doMakeFocusable. }
    split; [exact H | now apply Hkeep].
Qed.

(** ** A document whose answers do not depend on [tabindex] *)

Lemma hasTabindex_minus_one (attrs : TabIndex) (x : Elem) :
  attrs x = Some "-1"%string -> hasTabindex attrs x = true.
Proof. unfold hasTabindex. now intros ->. Qed.

Lemma fold_fill {A} (P : A -> Elem -> bool) (f : TabIndex -> A -> TabIndex) :
  (forall attrs a x,
      f attrs a x
      = if P a x && negb (hasTabindex attrs x) then Some "-1"%string
        else attrs x) ->
  forall (l : list A) (attrs : TabIndex) (x : Elem),
    fold_left f l attrs x
    = if existsb (fun a => P a x) l && negb (hasTabindex attrs x)
      then Some "-1"%string else attrs x.
Proof.
  intros H. induction l as [|a l IH]; intros attrs x;
    cbn [fold_left existsb andb]; [reflexivity|].
  rewrite IH.
  assert (Hx := H attrs a x).
  destruct (P a x) eqn:Ep; cbn [orb andb] in *.
  - destruct (hasTabindex attrs x) eqn:Eh; cbn [negb andb] in *.
    + unfold hasTabindex in *. rewrite Hx, Eh.
      now rewrite andb_false_r.
    + rewrite (hasTabindex_minus_one _ _ Hx). cbn [negb].
      now rewrite andb_false_r.
  - unfold hasTabindex in *. now rewrite Hx.
Qed.

Lemma step_fill (w : World) (doc : Document) (ignoreList : option string)
    (attrs : TabIndex) (elem x : Elem) :
  (forall a, doc a = w) ->
  makeFocusable_step doc ignoreList attrs elem x
  = if ((x =? elem)%nat
        && negb (matchSelector w (Some x) (option_map SelStr ignoreList)))
       && negb (hasTabindex attrs x)
    then Some "-1"%string else attrs x.
Proof.
  intros Hdoc. unfold makeFocusable_step, hasTabindex. rewrite Hdoc.
  destruct (x =? elem)%nat eqn:E; cbn [andb].
  - apply Nat.eqb_eq in E. subst x.
    destruct (negb _); cbn [andb]; [|reflexivity].
    destruct (nonEmpty (attrs elem)); cbn [negb]; [reflexivity|].
    unfold setAttribute_tabindex. now rewrite Nat.eqb_refl.
  - destruct (negb _); [|reflexivity].
    destruct (nonEmpty (attrs elem)); [reflexivity|].
    unfold setAttribute_tabindex. now rewrite E.
Qed.

Lemma existsb_eqb_and (x : Elem) (b : bool) (l : list Elem) :
  existsb (fun elem => (x =? elem)%nat && b) l = existsb (Nat.eqb x) l && b.
Proof.
  induction l as [|a l IH]; cbn [existsb]; [reflexivity|].
  rewrite IH. destruct (x =? a)%nat, b, (existsb (Nat.eqb x) l); reflexivity.
Qed.

Lemma doMakeFocusable_fill (w : World) (doc : Document) (e : Engine)
    (section : Config) (attrs : TabIndex) (x : Elem) :
  (forall a, doc a = w) ->
  doMakeFocusable doc e section attrs x
  = if focusableIn w e section x && negb (hasTabindex attrs x)
    then Some "-1"%string else attrs x.
Proof.
  intros Hdoc. unfold doMakeFocusable, focusableIn. cbv zeta.
  destruct (truthySel (selector section)); cbn [andb]; [|reflexivity].
  rewrite (fold_fill
             (fun elem x =>
                (x =? elem)%nat
                && negb (matchSelector w (Some x)
                           (option_map SelStr
                              match tabIndexIgnoreList section with
                              | Some l => Some l
                              | None => tabIndexIgnoreList (globalConfig e)
                              end))))
    by (intros; now apply step_fill).
  rewrite existsb_eqb_and, Hdoc. reflexivity.
Qed.

Lemma makeFocusable_fill (w : World) (doc : Document) (sid : option string)
    (e : Engine) (attrs attrs' : TabIndex) :
  (forall a, doc a = w) ->
  makeFocusable doc sid e attrs = inr attrs' ->
  forall x,
    attrs' x = if targeted w e sid x && negb (hasTabindex attrs x)
               then Some "-1"%string else attrs x.
Proof.
  intros Hdoc. unfold makeFocusable, targeted.
  destruct (nonEmpty sid) as [i|].
  - destruct (lookup i (_sections e)) as [section|]; [|discriminate].
    intros [= <-] x. now apply doMakeFocusable_fill.
  - intros [= <-] x.
    apply (fold_fill (fun kv x => focusableIn w e (snd kv) x)).
    intros a kv y. now apply doMakeFocusable_fill.
Qed.

(** X27: over a document whose answers to selectors do not depend on
    [tabindex] attributes, and where the lists of selectors to ignore
    are selectors (none is the empty string), [makeFocusable] gives the
    value [-1] to exactly the elements that have no [tabindex] yet,
    match the selector of a section it is asked about and do not match
    the list of selectors that section ignores; a second call changes
    nothing. *)
Theorem makeFocusable_is_idempotent :
  forall (w : World) (doc : Document) (sid : option string) (e : Engine)
         (attrs attrs' : TabIndex),
    (forall a, doc a = w) ->
    makeFocusableInput sid e ->
    makeFocusable doc sid e attrs = inr attrs' ->
    (forall x,
        attrs' x = if targeted w e sid x && negb (hasTabindex attrs x)
                   then Some "-1"%string else attrs x)
    /\ exists attrs'',
         makeFocusable doc sid e attrs' = inr attrs''
         /\ forall x, attrs'' x = attrs' x.
Proof.
  intros w doc sid e attrs attrs' Hdoc _ Hm.
  pose proof (makeFocusable_fill w doc sid e attrs attrs' Hdoc Hm) as Hfill.
  split; [exact Hfill|].
  assert (Hok : exists attrs'', makeFocusable doc sid e attrs' = inr attrs'').
  { unfold makeFocusable in *. destruct (nonEmpty sid) as [i|]; [|eauto].
    destruct (lookup i (_sections e)); [eauto | discriminate]. }
  destruct Hok as [attrs'' Hm2]. exists attrs''. split; [exact Hm2|].
  intros x. rewrite (makeFocusable_fill w doc sid e attrs' attrs'' Hdoc Hm2 x).
  destruct (targeted w e sid x) eqn:Et; cbn [andb]; [|reflexivity].
  destruct (hasTabindex attrs' x) eqn:Eh; cbn [negb]; [reflexivity|].
  rewrite Hfill, Et in *. cbn [andb] in *.
  destruct (hasTabindex attrs x) eqn:Eh0; cbn [negb] in *; [|reflexivity].
  unfold hasTabindex in *. rewrite Hfill, Et in Eh. cbn [andb] in Eh.
  rewrite Eh0 in Eh. cbn [negb] in Eh. unfold hasTabindex in Eh0.
  congruence.
Qed.

(* ================================================================== *)
(** * The state manager *)

Lemma lookup_Map_set {V} (key k : string) (v : V) (m : list (string * V)) :
  lookup k (Map_set key v m)
  = if String.eqb k key then Some v else lookup k m.
Proof.
  unfold Map_set. destruct (String.eqb k key) eqn:E.
  - apply String.eqb_eq in E. subst k.
    destruct (lookup key m) eqn:El.
    + apply lookup_replace. congruence.
    + now apply lookup_app_new.
  - apply String.eqb_neq in E.
    destruct (lookup key m); [now apply lookup_replace_other|].
    now apply lookup_app_other.
Qed.

Lemma keys_Map_set {V} (key : string) (v : V) (m : list (string * V)) :
  keys (Map_set key v m)
  = if Map_has key m then keys m else keys m ++ [key].
Proof.
  unfold Map_set, Map_has. destruct (lookup key m).
  - apply keys_replace.
  - unfold keys. now rewrite map_app.
Qed.

Lemma delete_absent {V} (key : string) (m : list (string * V)) :
  lookup key m = None -> delete key m = m.
Proof.
  induction m as [|[k v] m IH]; cbn [lookup delete]; [reflexivity|].
  destruct (String.eqb k key); [discriminate|]. intros H. now rewrite IH.
Qed.

Lemma In_keys_delete {V} (key k : string) (m : list (string * V)) :
  In k (keys (delete key m)) -> In k (keys m).
Proof.
  unfold keys. induction m as [|[k' v'] m IH]; cbn [delete map fst];
    [auto|].
  destruct (String.eqb k' key); cbn [map fst In]; [now right|].
  intros [H|H]; auto.
Qed.

Lemma keys_delete {V} (key : string) (m : list (string * V)) :
  NoDup (keys m) -> NoDup (keys (delete key m)).
Proof.
  unfold keys. induction m as [|[k v] m IH]; cbn [delete map fst]; intros Hnd.
  - constructor.
  - apply NoDup_cons_iff in Hnd. destruct Hnd as [Hk Hnd].
    destruct (String.eqb k key); [assumption|].
    cbn [map fst]. constructor; [|now apply IH].
    intros Hin. apply Hk. now apply (In_keys_delete key).
Qed.

(** The number of sections is counted right and no id is held twice. *)
Lemma manager_invariant_step (sm : StateManager.t) (op : Method) :
  sectionCount (StateManager._state sm)
  = Z.of_nat (List.length (sections (StateManager._state sm))) ->
  NoDup (keys (sections (StateManager._state sm))) ->
  sectionCount (StateManager._state (callMethod sm op))
  = Z.of_nat (List.length (sections (StateManager._state (callMethod sm op))))
  /\ NoDup (keys (sections (StateManager._state (callMethod sm op)))).
Proof.
  intros Hc Hnd.
  destruct op; cbn -[Map_set Map_has delete Z.of_nat keys];
    try (split; assumption); try (split; [reflexivity | constructor]).
  - split.
    + unfold Map_set, Map_has.
      destruct (lookup sid (sections (StateManager._state sm))).
      * cbn [negb]. now rewrite length_replace.
      * cbn [negb]. rewrite length_app. cbn [List.length]. lia.
    + rewrite keys_Map_set. unfold Map_has.
      destruct (lookup sid (sections (StateManager._state sm))) eqn:El;
        [assumption|].
      apply NoDup_app; [assumption | repeat constructor; intros [] |].
      intros x Hx [<-|[]]. apply lookup_In_keys in Hx. contradiction.
  - split; [|now apply keys_delete].
    unfold Map_has.
    destruct (lookup sid (sections (StateManager._state sm))) eqn:El.
    + assert (Hl := length_delete sid (sections (StateManager._state sm))).
      rewrite El in Hl. specialize (Hl ltac:(discriminate)). lia.
    + now rewrite delete_absent.
Qed.

Lemma manager_invariant_run (ops : list Method) (sm : StateManager.t) :
  sectionCount (StateManager._state sm)
  = Z.of_nat (List.length (sections (StateManager._state sm))) ->
  NoDup (keys (sections (StateManager._state sm))) ->
  sectionCount (StateManager._state (callMethods ops sm))
  = Z.of_nat (List.length (sections (StateManager._state (callMethods ops sm))))
  /\ NoDup (keys (sections (StateManager._state (callMethods ops sm)))).
Proof.
  unfold callMethods. revert sm. induction ops as [|op ops IH]; intros sm Hc Hnd;
    cbn [fold_left]; [auto|].
  destruct (manager_invariant_step sm op Hc Hnd) as [Hc' Hnd'].
  now apply IH.
Qed.

(** X28: whatever methods have been called on a state manager since it
    was constructed, [sectionCount] is the number of sections it holds,
    no id is listed twice by [getSectionIds], and [hasSection] agrees
    with [getSection] and with [getSectionIds]. *)
Theorem manager_counts_its_sections :
  forall (ops : list Method),
    let sm := callMethods ops StateManager.constructor in
    sectionCount (StateManager._state sm)
    = Z.of_nat (List.length (StateManager.getSectionIds sm))
    /\ NoDup (StateManager.getSectionIds sm)
    /\ (forall sid,
          (StateManager.hasSection sid sm = true
           <-> In sid (StateManager.getSectionIds sm))
          /\ (StateManager.hasSection sid sm = true
              <-> StateManager.getSection sid sm <> None)).
Proof.
  intros ops. cbn zeta.
  destruct (manager_invariant_run ops StateManager.constructor) as [Hc Hnd];
    [reflexivity | constructor |].
  unfold StateManager.getSectionIds, StateManager.hasSection,
    StateManager.getSection, Map_has.
  split; [unfold keys; now rewrite length_map|].
  split; [exact Hnd|].
  intros sid. rewrite <- lookup_In_keys.
  destruct (lookup sid _); split; split; intros; congruence.
Qed.

(** X29: [setSection] followed by [getSection] gives the configuration
    back and leaves the other sections alone.  A new id goes last in
    [getSectionIds] and [removeSection] then restores the manager as it
    was; an id that is held keeps its place and the count does not
    change.  [removeSection] of an id that is not held answers false
    and changes nothing. *)
Theorem manager_set_get_remove :
  forall (sm : StateManager.t) (sid : string) (config : Config),
    let sm1 := StateManager.setSection sid config sm in
    StateManager.getSection sid sm1 = Some config
    /\ StateManager.hasSection sid sm1 = true
    /\ (forall k, k <> sid ->
          StateManager.getSection k sm1 = StateManager.getSection k sm)
    /\ (StateManager.hasSection sid sm = false ->
        StateManager.getSectionIds sm1 = StateManager.getSectionIds sm ++ [sid]
        /\ sectionCount (StateManager._state sm1)
           = (sectionCount (StateManager._state sm) + 1)%Z
        /\ StateManager.removeSection sid sm1 = (true, sm)
        /\ StateManager.removeSection sid sm = (false, sm))
    /\ (StateManager.hasSection sid sm = true ->
        StateManager.getSectionIds sm1 = StateManager.getSectionIds sm
        /\ sectionCount (StateManager._state sm1)
           = sectionCount (StateManager._state sm)).
Proof.
  intros sm sid config. cbn zeta.
  unfold StateManager.getSection, StateManager.hasSection,
    StateManager.getSectionIds, StateManager.setSection,
    StateManager.removeSection, StateManager.withState.
  cbn [StateManager._state sections sectionCount StateManager._globalConfig].
  assert (Hl := lookup_Map_set sid sid config (sections (StateManager._state sm))).
  rewrite String.eqb_refl in Hl.
  split; [exact Hl|].
  split; [unfold Map_has at 1; now rewrite Hl|].
  split.
  { intros k Hk. rewrite lookup_Map_set. apply String.eqb_neq in Hk.
    now rewrite Hk. }
  rewrite keys_Map_set.
  split; intros Hh; rewrite Hh; cbn [negb]; [|auto].
  split; [reflexivity|]. split; [reflexivity|].
  assert (Hnone : lookup sid (sections (StateManager._state sm)) = None).
  { unfold Map_has in Hh.
    now destruct (lookup sid (sections (StateManager._state sm))). }
  split.
  - assert (Hhas : Map_has sid
                     (Map_set sid config (sections (StateManager._state sm)))
                   = true) by (unfold Map_has; now rewrite Hl).
    rewrite !Hhas.
    unfold Map_set. rewrite Hnone. rewrite delete_app_new by assumption.
    destruct sm as [st g]. destruct st. cbn. do 3 f_equal. lia.
  - rewrite delete_absent by assumption.
    destruct sm as [st g]. destruct st. reflexivity.
Qed.

(** ** Generated ids *)

Lemma NoDup_map_injective {A B} (f : A -> B) (l : list A) :
  (forall a b, f a = f b -> a = b) -> NoDup l -> NoDup (map f l).
Proof.
  intros Hf. induction 1 as [|a l Ha Hnd IH]; cbn [map]; constructor;
    [|exact IH].
  rewrite in_map_iff. intros (b & Hb & Hin). apply Hf in Hb. now subst.
Qed.

Lemma generateSectionIds_closed (n : nat) (sm : StateManager.t) :
  let prefix :=
    match nonEmpty (sectionPrefix (StateManager._globalConfig sm)) with
    | Some p => p
    | None => Defaults.SECTION_PREFIX
    end in
  fst (generateSectionIds n sm)
  = map (fun i => (prefix ++ NilEmpty.string_of_uint (Nat.to_uint i))%string)
      (seq (S (idPool (StateManager._state sm))) n)
  /\ idPool (StateManager._state (snd (generateSectionIds n sm)))
     = (idPool (StateManager._state sm) + n)%nat
  /\ sections (StateManager._state (snd (generateSectionIds n sm)))
     = sections (StateManager._state sm)
  /\ StateManager._globalConfig (snd (generateSectionIds n sm))
     = StateManager._globalConfig sm.
Proof.
  cbn zeta. revert sm. induction n as [|n IH]; intros sm;
    cbn [generateSectionIds seq map].
  - cbn. repeat split. lia.
  - unfold StateManager.generateSectionId. cbv zeta.
    match goal with
    | |- context [generateSectionIds n ?sm1] =>
        specialize (IH sm1); destruct (generateSectionIds n sm1) as [ids sm2]
    end.
    cbn [fst snd StateManager.withState StateManager._state
         StateManager._globalConfig idPool sections] in *.
    destruct IH as (-> & -> & -> & ->). repeat split. lia.
Qed.

(** X30: the ids that successive calls of [generateSectionId] return are
    pairwise different: each is the prefix followed by the counter, which
    goes up by one at every call.  The sections held are not looked at,
    and not changed. *)
Theorem generated_section_ids_are_distinct :
  forall (n : nat) (sm : StateManager.t),
    let ids := fst (generateSectionIds n sm) in
    let sm' := snd (generateSectionIds n sm) in
    NoDup ids
    /\ List.length ids = n
    /\ idPool (StateManager._state sm') = (idPool (StateManager._state sm) + n)%nat
    /\ sections (StateManager._state sm') = sections (StateManager._state sm)
    /\ (forall (sid : string) (config : Config),
          fst (generateSectionIds n (StateManager.setSection sid config sm))
          = ids).
Proof.
  intros n sm. cbn zeta.
  destruct (generateSectionIds_closed n sm) as (Hids & Hpool & Hsec & _).
  cbn zeta in Hids. rewrite Hids.
  split.
  { apply NoDup_map_injective; [|apply seq_NoDup].
    intros a b. apply numbered_inj. }
  split; [now rewrite length_map, length_seq|].
  split; [exact Hpool|]. split; [exact Hsec|].
  intros sid config.
  destruct (generateSectionIds_closed n (StateManager.setSection sid config sm))
    as (-> & _).
  reflexivity.
Qed.

(* ================================================================== *)
(** * Instances of the further properties on the example document *)

Lemma box_wellFormed (l t wd ht : Z) :
  (0 <= wd)%Z -> (0 <= ht)%Z -> wellFormed (box l t wd ht).
Proof.
  intros Hw Hh. unfold wellFormed, box. cbn.
  repeat split; unfold Qle, Qeq; cbn; lia.
Qed.

(** With the default threshold the arithmetic is exact for [rect1]: a
    corner candidate that overlaps it by half its width is copied into
    the top centre bucket, one that overlaps it by a pixel less is
    not. *)
Lemma partition_home_bucket_and_corner_duplicates_witness :
  exactEdges rect1 (1 # 2)
  /\ homeBucket rect1 (cornerRect 25) = Grid.TOP_RIGHT
  /\ placed rect1 (1 # 2) (cornerRect 25) Grid.TOP_CENTER = true
  /\ placed rect1 (1 # 2) (cornerRect 26) Grid.TOP_CENTER = false.
Proof.
  destruct (partition_home_bucket_and_corner_duplicates rect1 (1 # 2) [])
    as (_ & _ & _ & _ & Hover & Hex & _).
  assert (E : exactEdges rect1 (1 # 2)).
  { apply Hex. exists 0%Z, 0%Z, 50%Z, 50%Z.
    repeat split; reflexivity. }
  destruct (Hover E) as [_ Hb].
  split; [exact E|]. split; [reflexivity|].
  destruct (Hb (cornerRect 25) eq_refl) as (Heq & _ & _).
  destruct (Hb (cornerRect 26) eq_refl) as (_ & Hlt & _).
  split; [apply Heq; reflexivity | apply Hlt; reflexivity].
Defined.


Lemma navigate_never_returns_origin_witness :
  navigate quietPage (Some 1%nat) Right [1; 2]%nat defaultGlobalConfig
  <> Some 1%nat.
Proof.
  apply (navigate_never_returns_origin quietPage 1%nat Right [1; 2]%nat
           defaultGlobalConfig).
  intros cr [= <-]. apply box_wellFormed; lia.
Defined.

Lemma straight_candidates_beat_diagonal_witness :
  exists dest r',
    navigate quietPage (Some 1%nat) Right [2; 4]%nat defaultGlobalConfig
    = Some dest
    /\ In r' (measure quietPage [2; 4]%nat)
    /\ element r' = dest
    /\ placed rect1 (thresholdOf defaultGlobalConfig) r' (straightBucket Right)
       = true.
Proof.
  apply (straight_candidates_beat_diagonal quietPage 1%nat Right [2; 4]%nat
           defaultGlobalConfig rect1 rect2).
  - reflexivity.
  - left. reflexivity.
  - vm_compute. reflexivity.
Defined.

Lemma focusElement_event_protocol_witness :
  fst (focusElement quietPage (Some 2%nat) (Some "main"%string) None mainFocused)
  = true.
Proof.
  pose proof (focusElement_event_protocol quietPage 2%nat (Some "main"%string)
                None mainFocused eq_refl eq_refl) as H.
  cbv zeta in H.
  etransitivity; [exact (f_equal fst H) | vm_compute; reflexivity].
Defined.

Lemma silent_focus_dispatches_nothing_witness :
  events (snd (focus quietPage (TargetElement 2%nat) (Some true) mainFocused))
  = events mainFocused
  /\ fst (focus quietPage (TargetElement 2%nat) (Some true) mainFocused)
     = inr true.
Proof.
  destruct (silent_focus_dispatches_nothing quietPage (TargetElement 2%nat)
              (Some true) mainFocused (or_intror eq_refl))
    as (Hev & _ & Hel).
  split; [exact Hev|].
  apply (Hel 2%nat eq_refl). vm_compute. reflexivity.
Defined.

Lemma override_attribute_replaces_the_search_witness :
  fst (focusNext overridePage Right 1%nat "main" mainFocused) = true
  /\ activeElement (snd (focusNext overridePage Right 1%nat "main" mainFocused))
     = Some 3%nat.
Proof.
  destruct (override_attribute_replaces_the_search overridePage Right 1%nat
              "main" mainFocused ".c" eq_refl) as [_ H].
  rewrite H. vm_compute. split; reflexivity.
Defined.

Lemma search_winner_belongs_to_a_registered_section_witness :
  exists nid,
    getSectionId quietPage (engine mainFocused) 2%nat = Some nid
    /\ lookup nid (_sections (engine mainFocused)) <> None.
Proof.
  apply (search_winner_belongs_to_a_registered_section quietPage
           (engine mainFocused) Right 1%nat "main" 2%nat).
  vm_compute. reflexivity.
Defined.

(** From element 3 to the right the search settles on element 2.  Back to
    the left, geometry alone prefers element 1; the section having
    remembered the source, the move goes to element 3. *)
Lemma remembered_source_is_taken_back_witness :
  let s := focusedOn 3%nat (registered [sectionRemember "main" ".f"]) in
  let s' := snd (focusNext tallPage Right 3%nat "main" s) in
  searchNext tallPage (engine s) Left 2%nat "main" = Some 1%nat
  /\ option_map previous
       (lookup "main"%string
          (_sections (engine (snd (focusNext tallPage Left 2%nat "main" s')))))
     = Some (Some {| target := 2%nat; destination := 3%nat; reverse := Right |})
  /\ focusNext tallPage Left 2%nat "main" s'
     = focusElement tallPage (Some 3%nat) (Some "main"%string) (Some Left)
         (mkState (recordPrevious (engine s') "main" 2%nat 3%nat Left)
            (activeElement s') (events s')).
Proof.
  cbv zeta. split; [vm_compute; reflexivity|].
  destruct (remembered_source_is_taken_back tallPage
              (focusedOn 3%nat (registered [sectionRemember "main" ".f"]))
              Right 3%nat 2%nat "main" tallRect2 tallRect3)
    as [_ [Hrec Hrun]].
  - vm_compute. discriminate.
  - reflexivity.
  - vm_compute. reflexivity.
  - vm_compute. reflexivity.
  - reflexivity.
  - vm_compute. reflexivity.
  - discriminate.
  - vm_compute. right. right. left. reflexivity.
  - reflexivity.
  - reflexivity.
  - vm_compute. reflexivity.
  - split; [exact Hrec|]. apply Hrun. vm_compute. reflexivity.
Defined.

Lemma add_without_id_takes_a_fresh_id_witness :
  exists sid,
    fst (add (anonymous ".f") initialState) = inr sid
    /\ lookup sid (_sections (engine (snd (add (anonymous ".f") initialState))))
       = Some (storedSection (anonymous ".f")).
Proof.
  destruct (add_without_id_takes_a_fresh_id (anonymous ".f") initialState
              eq_refl) as (sid & n & H1 & _ & _ & _ & _ & H2 & _).
  exists sid. split; assumption.
Defined.

Lemma add_then_remove_restores_the_registry_witness :
  snd (remove (Some "main"%string) (snd (add (section "main" ".f") initialState)))
  = initialState.
Proof.
  destruct (add_then_remove_restores_the_registry (section "main" ".f")
              initialState "main" eq_refl eq_refl eq_refl)
    as (_ & _ & _ & _ & _ & _ & H & _).
  apply H. cbn. discriminate.
Defined.

Lemma disabled_section_is_out_of_navigation_witness :
  getSectionNavigableElements quietPage
    (engine (snd (disable "main" (registered [section "main" ".f"])))) "main"
  = [].
Proof.
  destruct (disabled_section_is_out_of_navigation quietPage
              (registered [section "main" ".f"]) "main") as (_ & H & _).
  - vm_compute. discriminate.
  - exact H.
Defined.

Lemma arrow_key_acts_as_move_witness :
  activeElement (snd (onKeyDown quietPage arrowRight mainFocused))
  = activeElement (snd (move quietPage Right None mainFocused)).
Proof.
  destruct (arrow_key_acts_as_move quietPage arrowRight Right 1%nat mainFocused)
    as (_ & H & _).
  - vm_compute. reflexivity.
  - reflexivity.
  - reflexivity.
  - intros sid. reflexivity.
  - exact H.
Defined.

Lemma makeFocusableInput_main (sid : option string) :
  (forall i, nonEmpty sid = Some i -> inherited i = false) ->
  makeFocusableInput sid (engine (registered [section "main" ".f"])).
Proof.
  intros Hsid. split; [exact Hsid|].
  intros i sec. cbn [registered fold_left]. intros Hl.
  assert (Hg : tabIndexIgnoreList sec = None).
  { vm_compute in Hl. destruct i as [|c i]; [discriminate|].
    repeat match type of Hl with
           | (match ?x with _ => _ end) = _ => destruct x; try discriminate
           | (if ?x then _ else _) = _ => destruct x; try discriminate
           end;
      injection Hl as <-; reflexivity. }
  unfold ignoreListValid. rewrite Hg. vm_compute. discriminate.
Qed.

Lemma makeFocusable_only_fills_missing_tabindex_witness :
  match makeFocusable plainDocument (Some "main"%string)
          (engine (registered [section "main" ".f"])) noTabindex with
  | inl _ => False
  | inr attrs' =>
      onlyFilled noTabindex attrs' /\ attrs' 1%nat = Some "-1"%string
  end
  /\ makeFocusable plainDocument (Some "other"%string)
       (engine (registered [section "main" ".f"])) noTabindex
     = inl (DoesntExist "other").
Proof.
  split.
  - pose proof (makeFocusable_only_fills_missing_tabindex plainDocument
                  (Some "main"%string)
                  (engine (registered [section "main" ".f"])) noTabindex) as H.
    destruct (makeFocusable plainDocument (Some "main"%string)
                (engine (registered [section "main" ".f"])) noTabindex)
      as [exn|attrs'] eqn:E.
    + discriminate E.
    + destruct H as (_ & Hfill & _).
      * apply makeFocusableInput_main. intros i [= <-]. reflexivity.
      * split; [exact Hfill|]. injection E as <-. reflexivity.
  - pose proof (makeFocusable_only_fills_missing_tabindex plainDocument
                  (Some "other"%string)
                  (engine (registered [section "main" ".f"])) noTabindex) as H.
    destruct (makeFocusable plainDocument (Some "other"%string)
                (engine (registered [section "main" ".f"])) noTabindex)
      as [exn|attrs'] eqn:E.
    + destruct H as (i & Hi & _ & ->).
      * apply makeFocusableInput_main. intros i [= <-]. reflexivity.
      * injection Hi as <-. reflexivity.
    + discriminate E.
Defined.

Lemma makeFocusable_is_idempotent_witness :
  let e := engine (registered [section "main" ".f"]) in
  let attrs' :=
    fold_left (fun attrs kv => doMakeFocusable plainDocument e (snd kv) attrs)
      (_sections e) noTabindex in
  exists attrs'',
    makeFocusable plainDocument None e attrs' = inr attrs''
    /\ forall x, attrs'' x = attrs' x.
Proof.
  cbv zeta.
  destruct (makeFocusable_is_idempotent quietPage plainDocument None
              (engine (registered [section "main" ".f"])) noTabindex
              (fold_left
                 (fun attrs kv =>
                    doMakeFocusable plainDocument
                      (engine (registered [section "main" ".f"])) (snd kv) attrs)
                 (_sections (engine (registered [section "main" ".f"])))
                 noTabindex))
    as [_ H].
  - intros a. reflexivity.
  - apply makeFocusableInput_main. discriminate.
  - reflexivity.
  - exact H.
Defined.
